(** * Event-report generator (app.py): text wrapping, DOCX and PDF builders,
      request handling

    A shallow embedding of [src/app.py] and of the library routines its
    behaviour rests on ([textwrap.wrap], [werkzeug.utils.secure_filename],
    [os.path.join]), with the properties of the specification stated and
    proved over it.

    Conventions.
    - A Python [str] is a [string], read as the sequence of its code points:
      the strings of this development are the Python strings of code points
      below 256.  Inside the text wrapper a string is handled as the list of
      its characters.  The character classes ([str.isspace], the [\w] and
      [\d] of [re], [str.lower], the NFKD decomposition) are those of Python
      on these code points.
    - Python integers are [Z]; the PDF coordinates, Python floats in the
      source, are exact rationals ([Q]).
    - The file system is a finite map from paths to file contents. *)

From Stdlib Require Import ZArith QArith Lqa Ascii String List Lia Bool.
From stdpp Require Import base option list strings gmap.

Local Open Scope Z_scope.

(** ** Python strings as character lists *)

Definition pystr := list ascii.

Definition of_str (s : string) : pystr := list_ascii_of_string s.
Definition to_str (l : pystr) : string := string_of_list_ascii l.

Definition len {A} (l : list A) : Z := Z.of_nat (length l).

(** [s[:e]] and [s[e:]] with Python's treatment of a negative index. *)
Definition slice_to {A} (e : Z) (s : list A) : list A :=
  if e <? 0 then take (Z.to_nat (len s + e)) s else take (Z.to_nat e) s.

Definition slice_from {A} (e : Z) (s : list A) : list A :=
  if e <? 0 then drop (Z.to_nat (len s + e)) s else drop (Z.to_nat e) s.

Definition code (c : ascii) : N := N_of_ascii c.

Definition in_range (lo hi : N) (c : ascii) : bool :=
  ((lo <=? code c) && (code c <=? hi))%N.

Definition is_code (n : N) (c : ascii) : bool := (code c =? n)%N.

Definition is_char (d c : ascii) : bool := Ascii.eqb c d.

Definition TAB : ascii := ascii_of_N 9.
Definition LF : ascii := ascii_of_N 10.
Definition CR : ascii := ascii_of_N 13.
Definition SPACE : ascii := " "%char.
Definition HYPHEN : ascii := "-"%char.

Module Textwrap.

(** *** Character classes of [textwrap.py] *)

(** [_whitespace = '\t\n\x0b\x0c\r '] *)
Definition is_whitespace (c : ascii) : bool :=
  in_range 9 13 c || is_char SPACE c.

(** [str.isspace], which is what [chunk.strip() == ''] tests: the ASCII
    white space with the separators U+001C to U+001F, and U+0085, U+00A0. *)
Definition isspace (c : ascii) : bool :=
  in_range 9 13 c || in_range 28 32 c || is_code 133 c || is_code 160 c.

(** [\d]: the decimal digits; below 256 these are 0 to 9. *)
Definition is_digit (c : ascii) : bool := in_range 48 57 c.

(** [A-Za-z] *)
Definition is_alpha (c : ascii) : bool :=
  in_range 65 90 c || in_range 97 122 c.

(** The code points from 128 to 255 that [str.isalnum] holds of: the
    letters, the superscript digits and the fractions. *)
Definition is_latin1_alnum (c : ascii) : bool :=
  is_code 170 c || in_range 178 179 c || is_code 181 c
  || in_range 185 186 c || in_range 188 190 c || in_range 192 214 c
  || in_range 216 246 c || in_range 248 255 c.

(** [\w]: alphanumeric, or the underscore *)
Definition is_word (c : ascii) : bool :=
  is_alpha c || is_digit c || is_char "_"%char c || is_latin1_alnum c.

(** [letter = [^\d\W]] *)
Definition is_letter (c : ascii) : bool := is_word c && negb (is_digit c).

(** [word_punct]: a [\w] character or one of the marks ! & . , ? and the
    two quotation marks. *)
Definition is_word_punct (c : ascii) : bool :=
  is_word c || is_char "!"%char c || is_char (ascii_of_N 34) c
  || is_char "'"%char c || is_char "&"%char c || is_char "."%char c
  || is_char ","%char c || is_char "?"%char c.

(** [chunk.strip() == ''] *)
Definition strip_is_empty (chunk : pystr) : bool := forallb isspace chunk.

(** *** [_munge_whitespace] *)

(** [str.expandtabs(tabsize)]: [column] is the position in the current line. *)
Fixpoint expandtabs_from (tabsize column : nat) (s : pystr) : pystr :=
  match s with
  | [] => []
  | c :: s' =>
      if is_char TAB c then
        if (0 <? tabsize)%nat then
          let incr := (tabsize - column mod tabsize)%nat in
          repeat SPACE incr ++ expandtabs_from tabsize (column + incr) s'
        else expandtabs_from tabsize column s'
      else
        c :: expandtabs_from tabsize
               (if is_char LF c || is_char CR c then 0%nat else S column) s'
  end.

Definition expandtabs (tabsize : nat) (s : pystr) : pystr :=
  expandtabs_from tabsize 0 s.

(** [text.translate(unicode_whitespace_trans)] *)
Definition translate_whitespace (s : pystr) : pystr :=
  map (fun c => if is_whitespace c then SPACE else c) s.

Definition _munge_whitespace (text : pystr) : pystr :=
  translate_whitespace (expandtabs 8 text).

(** *** [_split]: the chunks matched by [wordsep_re]

    [wordsep_re] matches at every position of a non-empty rest of the text
    (a run of whitespace, or a word up to its end at the latest), so
    [wordsep_re.split] yields the successive matches and empty strings in
    between, which [_split] filters out. *)

(** The longest prefix of characters in class [p], and what follows it. *)
Fixpoint span (p : ascii -> bool) (s : pystr) : pystr * pystr :=
  match s with
  | c :: s' =>
      if p c then let '(run, rest) := span p s' in (c :: run, rest)
      else ([], s)
  | [] => ([], [])
  end.

Definition head_is (p : ascii -> bool) (s : pystr) : bool :=
  match s with c :: _ => p c | [] => false end.

(** [-{2,}\w] matches at the head of [s]: the whole run of hyphens has to be
    taken, for a hyphen is not in [\w]. *)
Definition emdash_then_word (s : pystr) : bool :=
  let '(run, rest) := span (is_char HYPHEN) s in
  (2 <=? length run)%nat && head_is is_word rest.

(** The hyphen at the head of [s] ends a chunk: [back] is the text before it,
    latest character first.
    [-(?: (?<=lt{2}-) | (?<=lt-lt-)) (?= lt -? lt)] *)
Definition hyphen_break (back s : pystr) : bool :=
  match s with
  | h :: after =>
      is_char HYPHEN h
      && (match back with
          | b1 :: b2 :: more =>
              is_letter b1
              && (is_letter b2
                  || (is_char HYPHEN b2 && head_is is_letter more))
          | _ => false
          end)
      && (match after with
          | a1 :: a2 :: more =>
              is_letter a1
              && (is_letter a2
                  || (is_char HYPHEN a2 && head_is is_letter more))
          | _ => false
          end)
  | [] => false
  end.

(** The lazy [nws+?] after its first character: extend the word one character
    at a time until one of the three endings matches.  Returns the rest of
    the chunk and the text left. *)
Fixpoint scan_word (back s : pystr) : pystr * pystr :=
  match s with
  | [] => ([], [])
  | c :: s' =>
      if hyphen_break back s then ([c], s')
      else if is_whitespace c then ([], s)
      else if head_is is_word_punct back && emdash_then_word s then ([], s)
      else let '(w, rest) := scan_word (c :: back) s' in (c :: w, rest)
  end.

(** One match of [wordsep_re] at the head of [s]; [back] is the text already
    consumed, latest character first (the look-behinds read it). *)
Definition next_chunk (back s : pystr) : pystr * pystr :=
  match s with
  | [] => ([], [])
  | c :: s' =>
      if is_whitespace c then span is_whitespace s
      else if head_is is_word_punct back && emdash_then_word s
      then span (is_char HYPHEN) s
      else let '(w, rest) := scan_word (c :: back) s' in (c :: w, rest)
  end.

Fixpoint split_from (fuel : nat) (back s : pystr) : list pystr :=
  match fuel, s with
  | _, [] => []
  | O, _ => []
  | S fuel', _ =>
      let '(chunk, rest) := next_chunk back s in
      chunk :: split_from fuel' (rev chunk ++ back) rest
  end.

(** Every chunk takes at least one character, so [length text] rounds
    suffice ([split_concat] below). *)
Definition _split (text : pystr) : list pystr :=
  split_from (length text) [] text.

Definition _split_chunks (text : pystr) : list pystr :=
  _split (_munge_whitespace text).

(** *** [_handle_long_word] and [_wrap_chunks]

    [TextWrapper] is used with its defaults: no indents, [break_long_words],
    [break_on_hyphens] and [drop_whitespace] set, [max_lines] unset.  The
    source reverses the chunk list and pops from its end; here the next chunk
    is the head of the list. *)

(** [chunk.rfind('-', 0, stop)], [-1] when there is none. *)
Fixpoint rfind_from (d : ascii) (i : Z) (s : pystr) (stop : Z) : Z :=
  match s with
  | [] => -1
  | c :: s' =>
      let later := rfind_from d (i + 1) s' stop in
      if 0 <=? later then later
      else if (i <? stop) && is_char d c then i else -1
  end.

Definition rfind (d : ascii) (s : pystr) (stop : Z) : Z :=
  rfind_from d 0 s stop.

Definition _handle_long_word (chunks : list pystr) (cur_line : list pystr)
    (cur_len width : Z) : list pystr * list pystr :=
  let space_left := if width <? 1 then 1 else width - cur_len in
  match chunks with
  | [] => (chunks, cur_line)
  | chunk :: rest =>
      let end_ :=
        if space_left <? len chunk then
          let hyphen := rfind HYPHEN chunk space_left in
          if (0 <? hyphen)
             && existsb (fun c => negb (is_char HYPHEN c)) (slice_to hyphen chunk)
          then hyphen + 1 else space_left
        else space_left in
      (slice_from end_ chunk :: rest, cur_line ++ [slice_to end_ chunk])
  end.

(** The inner [while chunks:] loop: chunks are moved to the line as long as
    they fit. *)
Fixpoint fill_line (width : Z) (cur_line : list pystr) (cur_len : Z)
    (chunks : list pystr) : list pystr * Z * list pystr :=
  match chunks with
  | [] => (cur_line, cur_len, [])
  | c :: rest =>
      if cur_len + len c <=? width
      then fill_line width (cur_line ++ [c]) (cur_len + len c) rest
      else (cur_line, cur_len, chunks)
  end.

(** [del cur_line[-1]] when the last chunk of the line is all whitespace. *)
Definition drop_trailing_space (cur_line : list pystr) : list pystr :=
  match last cur_line with
  | Some c => if strip_is_empty c then removelast cur_line else cur_line
  | None => cur_line
  end.

Definition nonempty {A} (l : list A) : bool :=
  match l with [] => false | _ => true end.

(** One round of the outer [while chunks:] loop, entered with [chunks]
    non-empty. *)
Definition wrap_round (width : Z) (chunks lines : list pystr)
    : list pystr * list pystr :=
  let chunks1 :=
    match chunks with
    | c :: rest => if strip_is_empty c && nonempty lines then rest else chunks
    | [] => []
    end in
  let '(cur_line, cur_len, chunks2) := fill_line width [] 0 chunks1 in
  let '(chunks3, cur_line3) :=
    match chunks2 with
    | c :: _ =>
        if width <? len c
        then _handle_long_word chunks2 cur_line cur_len width
        else (chunks2, cur_line)
    | [] => (chunks2, cur_line)
    end in
  let cur_line4 := drop_trailing_space cur_line3 in
  (chunks3, if nonempty cur_line4 then lines ++ [concat cur_line4] else lines).

Inductive outcome (A : Type) : Type :=
  | Returns (a : A)
  | ValueError
  | OutOfFuel.
Arguments Returns {A} a.
Arguments ValueError {A}.
Arguments OutOfFuel {A}.

Fixpoint wrap_loop (fuel : nat) (width : Z) (chunks lines : list pystr)
    : outcome (list pystr) :=
  match chunks with
  | [] => Returns lines
  | _ :: _ =>
      match fuel with
      | O => OutOfFuel
      | S fuel' =>
          let '(chunks', lines') := wrap_round width chunks lines in
          wrap_loop fuel' width chunks' lines'
      end
  end.

(** What a round makes smaller: the characters left plus the chunks left. *)
Definition weight (chunks : list pystr) : nat :=
  (length (concat chunks) + length chunks)%nat.

Definition _wrap_chunks (width : Z) (chunks : list pystr)
    : outcome (list pystr) :=
  if width <=? 0 then ValueError
  else wrap_loop (weight chunks) width chunks [].

(** [textwrap.wrap(text, width)] *)
Definition wrap (text : string) (width : Z) : outcome (list string) :=
  match _wrap_chunks width (_split_chunks (of_str text)) with
  | Returns lines => Returns (map to_str lines)
  | ValueError => ValueError
  | OutOfFuel => OutOfFuel
  end.

End Textwrap.

(** ** [os.path] (POSIX) and [werkzeug.utils.secure_filename] *)

Module Os.

Definition SLASH : ascii := "/"%char.

Definition starts_with_slash (s : pystr) : bool :=
  match s with c :: _ => is_char SLASH c | [] => false end.

Definition ends_with_slash (s : pystr) : bool :=
  match last s with Some c => is_char SLASH c | None => false end.

(** [posixpath.join(a, b)] *)
Definition path_join (a b : string) : string :=
  let a' := of_str a in
  let b' := of_str b in
  if starts_with_slash b' then b
  else if negb (Textwrap.nonempty a') || ends_with_slash a' then a ++ b
  else a ++ "/" ++ b.

(** What follows the last [d] of [s]; all of [s] when [d] does not occur. *)
Fixpoint after_last (d : ascii) (s : pystr) : pystr :=
  match s with
  | [] => []
  | c :: s' =>
      if existsb (is_char d) s' then after_last d s'
      else if is_char d c then s' else s
  end.

(** [posixpath.basename(p)]: [p[p.rfind('/') + 1:]] *)
Definition path_basename (p : string) : string :=
  to_str (after_last SLASH (of_str p)).

End Os.

Module Werkzeug.
Import Textwrap.

Definition is_ascii (c : ascii) : bool := (code c <? 128)%N.

(** [str.split()]: the maximal runs of non-whitespace characters. *)
Fixpoint split_ws (cur : pystr) (s : pystr) : list pystr :=
  match s with
  | [] => if nonempty cur then [cur] else []
  | c :: s' =>
      if isspace c
      then (if nonempty cur then [cur] else []) ++ split_ws [] s'
      else split_ws (cur ++ [c]) s'
  end.

(** [sep.join(words)] *)
Fixpoint join (sep : pystr) (words : list pystr) : pystr :=
  match words with
  | [] => []
  | [w] => w
  | w :: ws => w ++ sep ++ join sep ws
  end.

(** The characters [_filename_ascii_strip_re = [^A-Za-z0-9_.-]] leaves. *)
Definition is_safe (c : ascii) : bool :=
  is_alpha c || is_digit c || is_char "_"%char c || is_char "."%char c
  || is_char HYPHEN c.

Definition is_dot_or_underscore (c : ascii) : bool :=
  is_char "."%char c || is_char "_"%char c.

Fixpoint lstrip (p : ascii -> bool) (s : pystr) : pystr :=
  match s with
  | c :: s' => if p c then lstrip p s' else s
  | [] => []
  end.

Definition rstrip (p : ascii -> bool) (s : pystr) : pystr :=
  rev (lstrip p (rev s)).

(** [str.strip(chars)] *)
Definition strip (p : ascii -> bool) (s : pystr) : pystr :=
  rstrip p (lstrip p s).

(** [unicodedata.normalize("NFKD", c).encode("ascii", "ignore")] for one
    character: an ASCII character stays; an accented letter keeps its base
    letter, the combining mark being dropped; the compatibility characters
    (no-break space, spacing accents, ordinal indicators, superscript digits,
    fractions) give their ASCII parts; the other code points give nothing.
    The ASCII parts of the decomposition of a string are those of its
    characters, in order. *)
Definition nfkd_ascii (c : ascii) : pystr :=
  if is_ascii c then [c]
  else if is_code 160 c || is_code 168 c || is_code 175 c || is_code 180 c || is_code 184 c then [SPACE]
  else if is_code 170 c then ["a"%char]
  else if is_code 178 c then ["2"%char]
  else if is_code 179 c then ["3"%char]
  else if is_code 185 c then ["1"%char]
  else if is_code 186 c then ["o"%char]
  else if is_code 188 c then ["1"%char; "4"%char]
  else if is_code 189 c then ["1"%char; "2"%char]
  else if is_code 190 c then ["3"%char; "4"%char]
  else if in_range 192 197 c then ["A"%char]
  else if is_code 199 c then ["C"%char]
  else if in_range 200 203 c then ["E"%char]
  else if in_range 204 207 c then ["I"%char]
  else if is_code 209 c then ["N"%char]
  else if in_range 210 214 c then ["O"%char]
  else if in_range 217 220 c then ["U"%char]
  else if is_code 221 c then ["Y"%char]
  else if in_range 224 229 c then ["a"%char]
  else if is_code 231 c then ["c"%char]
  else if in_range 232 235 c then ["e"%char]
  else if in_range 236 239 c then ["i"%char]
  else if is_code 241 c then ["n"%char]
  else if in_range 242 246 c then ["o"%char]
  else if in_range 249 252 c then ["u"%char]
  else if is_code 253 c || is_code 255 c then ["y"%char]
  else [].

(** [secure_filename] on a POSIX system ([os.sep = '/'], no [altsep], no
    Windows device names). *)
Definition secure_filename_chars (filename : pystr) : pystr :=
  let filename := flat_map nfkd_ascii filename in
  let filename := map (fun c => if is_char Os.SLASH c then SPACE else c) filename in
  let joined := join ["_"%char] (split_ws [] filename) in
  strip is_dot_or_underscore (filter (fun c => is_safe c = true) joined).

Definition secure_filename (filename : string) : string :=
  to_str (secure_filename_chars (of_str filename)).

End Werkzeug.

(** ** Data model *)

(** The [data] dictionary of [generate]: it is built with these thirteen keys,
    all strings, so it is modelled as a record. *)
Record EventRecord := {
  ref_no : string;
  date_ref : string;
  title : string;
  department : string;
  academic_year : string;
  date_activity : string;
  organized_by : string;
  overview : string;
  day1 : string;
  day2 : string;
  learning_outcomes : string;
  conclusion : string;
  circular_text : string
}.

(** Truth value of a Python string and of an optional path. *)
Definition truthy (s : string) : bool := negb (String.eqb s EmptyString).

Definition path_given (p : option string) : option string :=
  match p with
  | Some q => if truthy q then Some q else None
  | None => None
  end.

Definition NL : string := String LF EmptyString.
Definition T : string := String TAB EmptyString.

(** *** The word-processor document *)

Inductive style := Normal | IntenseQuote | Title | Heading1 | Heading2 | Heading3.

Inductive table_style := TableDefault | LightListAccent1.

Inductive run :=
  | Text (text : string) (bold : bool)
  | InlinePicture (path : string) (width_inches : Q)
  | EmptyRun.

(** A table cell is the list of runs of its paragraph. *)
Definition cell := list run.

Inductive block :=
  | Paragraph (text : string) (st : style)
  | RunParagraph (runs : list run)
  | Picture (path : string) (width_inches : Q)
  | Table (st : table_style) (rows : list (list cell))
  | PageBreak.

Record document := { header : list run; body : list block }.

(** The texts of a run, of a block, of the document: the strings python-docx
    is given as the text of a run, a paragraph or a table cell, in the order
    of the document. *)
Definition run_text (r : run) : list string :=
  match r with Text t _ => [t] | _ => [] end.

Definition block_text (b : block) : list string :=
  match b with
  | Paragraph t _ => [t]
  | RunParagraph runs => flat_map run_text runs
  | Table _ rows => flat_map (flat_map (flat_map run_text)) rows
  | Picture _ _ | PageBreak => []
  end.

Definition docx_text (d : document) : list string :=
  flat_map run_text (header d) ++ flat_map block_text (body d).

(** *** The PDF canvas: the drawing calls in the order they are made *)

Inductive op :=
  | SetFont (name : string) (size : Z)
  | DrawString (x y : Q) (text : string)
  | DrawRightString (x y : Q) (text : string)
  | DrawCentredString (x y : Q) (text : string)
  | DrawInlineImage (path : string) (x y width height : Q)
  | ShowPage.

(** *** Files *)

(** An uploaded file, as far as the builders look at it: the size PIL's
    [Image.open] reads from it, if it decodes, and whether python-docx takes
    it as a picture. *)
Record upload_data := {
  pil_size : option (N * N);
  docx_ok : bool
}.

Inductive file :=
  | Uploaded (u : upload_data)
  | DocxFile (doc : document)
  | PdfFile (canvas : list op).

(** The part of the world the application reads and writes: the files, the
    error (if any) that writing to a path raises, and the flashed
    messages. *)
Record world := {
  files : gmap string file;
  write_error : string -> option string;
  flashes : list (string * string)
}.

Definition logo_path : string := Os.path_join "static" "sec_logo.png".

(** ** [build_docx] *)

Module Docx.

(** [run.add_picture(p)] / [doc.add_picture(p)] succeeds. *)
Definition picture_ok (fs : gmap string file) (p : string) : bool :=
  match fs !! p with
  | Some (Uploaded u) => docx_ok u
  | _ => false
  end.

(** The header paragraph: an empty run that receives the logo when it can be
    added, then the college name in bold. *)
Definition header_runs (fs : gmap string file) : list run :=
  [ if picture_ok fs logo_path then InlinePicture logo_path (16 # 10) else EmptyRun;
    Text (NL ++ "SURYA ENGINEERING COLLEGE, ERODE") true ].

(** A character python-docx can put in a text.  The text of a run is
    written character by character: a tab becomes a tab element, a line feed
    or carriage return a break, and the other characters are set as the text
    of an XML element, which raises [ValueError] for a control character. *)
Definition xml_ok (c : ascii) : bool :=
  (32 <=? code c)%N || is_char TAB c || is_char LF c || is_char CR c.

Definition xml_compatible (text : string) : bool := forallb xml_ok (of_str text).

(** Lines 61-68: the invitation image, or the circular text.
    [doc.add_picture] appends a paragraph with an empty run and then adds the
    picture to the run, so a picture that cannot be added leaves this
    paragraph behind, before the paragraph of the [except] branch. *)
Definition invitation_block (fs : gmap string file) (data : EventRecord)
    (invitation_path : option string) : list block :=
  match path_given invitation_path with
  | Some p =>
      if picture_ok fs p then [Picture p 6]
      else [RunParagraph [EmptyRun]; Paragraph (circular_text data) Normal]
  | None => [Paragraph (circular_text data) Normal]
  end.

Definition circular_page (fs : gmap string file) (data : EventRecord)
    (invitation_path : option string) : list block :=
  [ Paragraph EmptyString Normal;
    RunParagraph
      [Text ("Ref: " ++ ref_no data ++ T ++ T ++ T ++ "Date: " ++ date_ref data ++ NL) true];
    Paragraph (NL ++ "CIRCULAR" ++ NL) IntenseQuote ]
  ++ invitation_block fs data invitation_path
  ++ [ Paragraph (NL ++ NL ++ "HoD" ++ T ++ T ++ T ++ T ++ "PRINCIPAL") Normal;
       Paragraph (NL ++ "Copy to" ++ NL ++ "All HoD's" ++ NL ++ "Notice board" ++ NL
                  ++ "To be read in all class rooms") Normal ].

Definition text_cell (s : string) : cell := [Text s false].

Definition details_table (data : EventRecord) : block :=
  Table LightListAccent1
    [ [text_cell "Name of the activity"; text_cell (title data)];
      [text_cell "Department"; text_cell (department data)];
      [text_cell "Academic year"; text_cell (academic_year data)];
      [text_cell "Date of activity conducted"; text_cell (date_activity data)];
      [text_cell "Organized by"; text_cell (organized_by data)] ].

Definition optional_section (heading : string) (st : style) (text : string)
    : list block :=
  if truthy text then [Paragraph heading st; Paragraph text Normal] else [].

Definition report_page (data : EventRecord) : list block :=
  [ Paragraph ("DEPARTMENT OF " ++ department data) Title;
    Paragraph "REPORT OF THE EVENT" Heading1;
    details_table data;
    Paragraph NL Normal;
    Paragraph "Workshop Overview" Heading2;
    Paragraph (overview data) Normal ]
  ++ optional_section (NL ++ "Day 1: Fundamentals and Demonstrations") Heading3 (day1 data)
  ++ optional_section (NL ++ "Day 2: Advanced Troubleshooting and Maintenance") Heading3
       (day2 data)
  ++ optional_section (NL ++ "Learning Outcomes") Heading2 (learning_outcomes data)
  ++ [ Paragraph (NL ++ "Conclusion") Heading2;
       Paragraph (conclusion data) Normal;
       Paragraph (NL ++ NL ++ "Function was inaugurated by our resource person" ++ NL ++ NL)
         Normal;
       Table LightListAccent1
         [[text_cell (NL ++ NL ++ "HoD"); text_cell (NL ++ NL ++ "PRINCIPAL")]] ].

(** *** The photo grid (lines 124-137) *)

Definition unable_notice (p : string) : block :=
  Paragraph ("(Unable to add image: " ++ Os.path_basename p ++ ")") Normal.

Definition no_photos_notice : block := Paragraph "No photos uploaded." Normal.

(** [row_cells[k].paragraphs[0].add_run()], the run then holding [r]. *)
Definition cell_add_run (k : nat) (r : run) (b : block) : block :=
  match b with
  | Table st [cells] => Table st [alter (fun c => c ++ [r]) k cells]
  | _ => b
  end.

(** The loop body for photo [p] at index [i].  [row_cells] is the position in
    the body of the table whose cells the variable [row_cells] refers to
    ([None] while it is unbound, when using it raises). *)
Definition add_photo (fs : gmap string file)
    (st : list block * option nat) (i : nat) (p : string)
    : list block * option nat :=
  let '(blocks, row_cells) := st in
  let '(blocks, row_cells) :=
    if (i mod 2 =? 0)%nat
    then (blocks ++ [Table TableDefault [[ []; [] ]]], Some (length blocks))
    else (blocks, row_cells) in
  match row_cells with
  | None => (blocks ++ [unable_notice p], row_cells)
  | Some t =>
      if picture_ok fs p
      then (alter (cell_add_run (i mod 2) (InlinePicture p 3)) t blocks, row_cells)
      else (alter (cell_add_run (i mod 2) EmptyRun) t blocks ++ [unable_notice p],
            row_cells)
  end.

(** [for i, p in enumerate(photo_paths)], from index [i] on. *)
Fixpoint add_photos (fs : gmap string file) (i : nat) (photo_paths : list string)
    (st : list block * option nat) : list block * option nat :=
  match photo_paths with
  | [] => st
  | p :: rest => add_photos fs (S i) rest (add_photo fs st i p)
  end.

Definition photo_page (fs : gmap string file) (blocks : list block)
    (photo_paths : list string) : list block :=
  let blocks := blocks ++ [Paragraph "Event Photographs" Heading1] in
  match photo_paths with
  | [] => blocks ++ [no_photos_notice]
  | _ :: _ => fst (add_photos fs 0 photo_paths (blocks, None))
  end.

(** The document [build_docx] assembles before saving it. *)
Definition docx_document (fs : gmap string file) (data : EventRecord)
    (invitation_path : option string) (photo_paths : list string) : document :=
  {| header := header_runs fs;
     body :=
       photo_page fs
         (circular_page fs data invitation_path ++ [PageBreak]
          ++ report_page data ++ [PageBreak])
         photo_paths |}.

End Docx.

(** ** [build_pdf] *)

Module Pdf.
Local Open Scope Q_scope.

(** [w, h = A4], that is [(210*mm, 297*mm)] with [mm = 72/25.4] points. *)
Definition w : Q := 75600 # 127.
Definition h : Q := 106920 # 127.

Definition Qlt_bool (x y : Q) : bool := negb (Qle_bool y x).

(** Python's [min(a, b)] *)
Definition qmin (a b : Q) : Q := if Qlt_bool b a then b else a.

Definition NQ (n : N) : Q := inject_Z (Z.of_N n).

(** [Image.open(p).size], [None] when opening raises. *)
Definition pil_open (fs : gmap string file) (p : string) : option (N * N) :=
  match fs !! p with
  | Some (Uploaded u) => pil_size u
  | _ => None
  end.

(** [draw_header]: the logo, when it opens and its width is not 0 (the
    division raises then), and the college name. *)
Definition draw_header (fs : gmap string file) : list op :=
  (match pil_open fs logo_path with
   | Some (iw, ih) =>
       if (iw =? 0)%N then []
       else
         let target_w := 120 in
         let ratio := target_w / NQ iw in
         let target_h := NQ ih * ratio in
         [DrawInlineImage logo_path (w / 2 - target_w / 2) (h - 80) target_w target_h]
   | None => []
   end)
  ++ [ SetFont "Helvetica-Bold" 12;
       DrawCentredString (w / 2) (h - 95) "SURYA ENGINEERING COLLEGE, ERODE" ].

(** *** Page 1 *)

Definition invitation_ops (fs : gmap string file) (data : EventRecord)
    (invitation_path : option string) (y : Q) : list op :=
  let fallback := [SetFont "Helvetica" 10; DrawString 50 y (circular_text data)] in
  match path_given invitation_path with
  | Some p =>
      match pil_open fs p with
      | Some (iw, ih) =>
          if (iw =? 0)%N then fallback
          else
            let max_w := w - 100 in
            let ratio := max_w / NQ iw in
            let draw_w := max_w in
            let draw_h := NQ ih * ratio in
            [DrawInlineImage p 50 (y - draw_h - 10) draw_w draw_h]
      | None => fallback
      end
  | None => fallback
  end.

Definition circular_page (fs : gmap string file) (data : EventRecord)
    (invitation_path : option string) : list op :=
  draw_header fs
  ++ [ SetFont "Helvetica-Bold" 11;
       DrawString 50 (h - 120) ("Ref: " ++ ref_no data);
       DrawRightString (w - 50) (h - 120) ("Date: " ++ date_ref data);
       SetFont "Helvetica-Bold" 13;
       DrawString 50 (h - 150) "CIRCULAR" ]
  ++ invitation_ops fs data invitation_path (h - 180)
  ++ [ DrawString 50 120 ("HoD" ++ T ++ T ++ T ++ T ++ "PRINCIPAL"); ShowPage ].

(** *** Page 2: the vertical cursor [y] is threaded through the drawing
    steps *)

Definition painter := Q -> list op * Q.

Definition emit (ops : Q -> list op) : painter := fun y => (ops y, y).

Definition move_down (d : Q) : painter := fun y => ([], y - d).

Definition and_then (a b : painter) : painter :=
  fun y => let '(ops1, y1) := a y in
           let '(ops2, y2) := b y1 in (ops1 ++ ops2, y2).

Notation "a >>> b" := (and_then a b) (at level 65, right associativity).

Definition skip : painter := fun y => ([], y).

(** [for L in lines: c.drawString(50, y, L); y -= 16] *)
Fixpoint draw_details (lines : list string) : painter :=
  match lines with
  | [] => skip
  | L :: rest => emit (fun y => [DrawString 50 y L]) >>> move_down 16 >>> draw_details rest
  end.

(** [wrap(text, 100)]; it always returns, see [wrapped_returns]. *)
Definition wrapped (text : string) : list string :=
  match Textwrap.wrap text 100 with
  | Textwrap.Returns lines => lines
  | _ => []
  end.

(** The page-break step after a line: [if y < 120: showPage; draw_header;
    y = h-120]. *)
Definition break_if_low (hdr : list op) : painter :=
  fun y => if Qlt_bool y 120 then (ShowPage :: hdr, h - 120) else ([], y).

(** [for ln in lines: c.drawString(50, y, ln); y -= 14; if y < 120: ...] *)
Fixpoint draw_lines (hdr : list op) (lines : list string) : painter :=
  match lines with
  | [] => skip
  | ln :: rest =>
      emit (fun y => [DrawString 50 y ln]) >>> move_down 14 >>> break_if_low hdr
      >>> draw_lines hdr rest
  end.

(** A heading and the wrapped text under it (lines 214-226, and the bodies of
    the four [if] blocks after them, which have the same shape). *)
Definition text_section (hdr : list op) (heading text : string) : painter :=
  move_down 8
  >>> emit (fun y => [SetFont "Helvetica-Bold" 11; DrawString 50 y heading])
  >>> move_down 16
  >>> emit (fun _ => [SetFont "Helvetica" 10])
  >>> draw_lines hdr (wrapped text).

Definition optional_section (hdr : list op) (heading text : string) : painter :=
  if truthy text then text_section hdr heading text else skip.

Definition report_sections (hdr : list op) (data : EventRecord) : painter :=
  draw_details
    [ "Name of the activity: " ++ title data;
      "Department: " ++ department data;
      "Academic year: " ++ academic_year data;
      "Date of activity conducted: " ++ date_activity data;
      "Organized by: " ++ organized_by data ]%string
  >>> text_section hdr "Workshop Overview:" (overview data)
  >>> optional_section hdr "Day 1: Fundamentals and Demonstrations" (day1 data)
  >>> optional_section hdr "Day 2: Advanced Troubleshooting and Maintenance" (day2 data)
  >>> optional_section hdr "Learning Outcomes:" (learning_outcomes data)
  >>> optional_section hdr "Conclusion:" (conclusion data).

(** Page 2 and the value of [y] it leaves behind. *)
Definition report_page (fs : gmap string file) (data : EventRecord) : list op * Q :=
  let hdr := draw_header fs in
  let '(ops, y) := report_sections hdr data (h - 170) in
  (hdr
   ++ [ SetFont "Helvetica-Bold" 13;
        DrawCentredString (w / 2) (h - 120) ("DEPARTMENT OF " ++ department data);
        SetFont "Helvetica-Bold" 12;
        DrawCentredString (w / 2) (h - 140) "REPORT OF THE EVENT";
        SetFont "Helvetica" 10 ]
   ++ ops
   ++ [ SetFont "Helvetica" 10;
        DrawString 50 100 "HoD";
        DrawRightString (w - 50) 100 "PRINCIPAL";
        ShowPage ],
   y).

(** *** Page 3: the photo grid (lines 296-323) *)

Definition x_margin : Q := 50.
Definition y_start : Q := h - 160.
Definition col_w : Q := (w - 2 * x_margin - 20) / 2.
Definition row_h : Q := 120.
Definition x_positions : list Q := [x_margin; x_margin + col_w + 20].

(** The loop variables [col], [row] and [y]. *)
Record grid := { col : Z; row : Z; y_last : Q }.

(** The [try] block for photo [p]: the drawing call, if any, and the value of
    [y] afterwards, which stays as it was when the block raises. *)
Definition place_photo (fs : gmap string file) (g : grid) (p : string)
    : list op * Q :=
  match pil_open fs p with
  | Some (iw, ih) =>
      if ((iw =? 0) || (ih =? 0))%N then ([], y_last g)
      else
        let ratio := qmin (col_w / NQ iw) (row_h / NQ ih) in
        let draw_w := NQ iw * ratio in
        let draw_h := NQ ih * ratio in
        match x_positions !! Z.to_nat (col g) with
        | Some x0 =>
            let x := x0 + (col_w - draw_w) / 2 in
            let y := y_start - inject_Z (row g) * (row_h + 20) - draw_h in
            ([DrawInlineImage p x y draw_w draw_h], y)
        | None => ([], y_last g)
        end
  | None => ([], y_last g)
  end.

(** One iteration of [for idx, p in enumerate(photo_paths)]. *)
Definition photo_step (fs : gmap string file) (g : grid) (p : string)
    : list op * grid :=
  let '(ops, y) := place_photo fs g p in
  let col1 := (col g + 1)%Z in
  if (1 <? col1)%Z then
    let row1 := (row g + 1)%Z in
    if Qlt_bool (y - row_h) 120
    then (ops ++ ShowPage :: draw_header fs, {| col := 0; row := 0; y_last := y |})
    else (ops, {| col := 0; row := row1; y_last := y |})
  else (ops, {| col := col1; row := row g; y_last := y |}).

Fixpoint photo_loop (fs : gmap string file) (g : grid) (photo_paths : list string)
    : list op * grid :=
  match photo_paths with
  | [] => ([], g)
  | p :: rest =>
      let '(ops1, g1) := photo_step fs g p in
      let '(ops2, g2) := photo_loop fs g1 rest in
      (ops1 ++ ops2, g2)
  end.

(** Page 3, entered with the [y] page 2 left. *)
Definition photo_page (fs : gmap string file) (y : Q) (photo_paths : list string)
    : list op :=
  draw_header fs
  ++ [ SetFont "Helvetica-Bold" 13;
       DrawCentredString (w / 2) (h - 120) "Event Photographs" ]
  ++ fst (photo_loop fs {| col := 0; row := 0; y_last := y |} photo_paths).

(** All drawing calls of [build_pdf], up to [c.save()]. *)
Definition pdf_canvas (fs : gmap string file) (data : EventRecord)
    (invitation_path : option string) (photo_paths : list string) : list op :=
  let '(page2, y) := report_page fs data in
  circular_page fs data invitation_path ++ page2 ++ photo_page fs y photo_paths.

End Pdf.

(** ** The routes: [generate] and [download] *)

Module App.

Definition UPLOAD_FOLDER : string := "uploads".
Definition OUTPUT_FOLDER : string := "outputs".
Definition ALLOWED_IMG : list string := ["png"; "jpg"; "jpeg"; "gif"]%string.

(** *** Exceptions and the world as state *)

Inductive result (A : Type) : Type :=
  | Ok (a : A)
  | Raise (msg : string).
Arguments Ok {A} a.
Arguments Raise {A} msg.

Definition M (A : Type) : Type := world -> result A * world.

#[export] Instance M_ret : MRet M := fun A a w => (Ok a, w).

#[export] Instance M_bind : MBind M := fun A B k m w =>
  match m w with
  | (Ok a, w') => k a w'
  | (Raise e, w') => (Raise e, w')
  end.

(** [try: m / except Exception as e: ...], the handler getting [Raise e]. *)
Definition catch {A} (m : M A) : M (result A) := fun w =>
  let '(r, w') := m w in (Ok r, w').

(** Writing a file: fails with the error the world has for the path. *)
Definition write_file (path : string) (f : file) : M unit := fun w =>
  match write_error w path with
  | Some e => (Raise e, w)
  | None =>
      (Ok tt, {| files := <[path := f]> (files w);
                 write_error := write_error w;
                 flashes := flashes w |})
  end.

Definition read_files : M (gmap string file) := fun w => (Ok (files w), w).

(** [raise ValueError(msg)] *)
Definition raise {A} (msg : string) : M A := fun w => (Raise msg, w).

Definition flash (message category : string) : M unit := fun w =>
  (Ok tt, {| files := files w;
             write_error := write_error w;
             flashes := flashes w ++ [(message, category)] |}).

(** *** Uploads *)

(** A [FileStorage]: its truth value is that of its file name. *)
Record FileStorage := { filename : string; content : upload_data }.

(** [str.lower] for one character: the capital letters are A to Z and,
    above 127, U+00C0 to U+00DE without the multiplication sign. *)
Definition lower (c : ascii) : ascii :=
  if in_range 65 90 c || in_range 192 214 c || in_range 216 222 c
  then ascii_of_N (code c + 32) else c.

Definition DOT : ascii := "."%char.

(** ["." in filename and filename.rsplit(".", 1)[1].lower() in ALLOWED_IMG] *)
Definition allowed_file (name : string) : bool :=
  let chars := of_str name in
  existsb (is_char DOT) chars
  && bool_decide (to_str (map lower (Os.after_last DOT chars)) ∈ ALLOWED_IMG).

Definition save_file (fileobj : option FileStorage) : M (option string) :=
  match fileobj with
  | None => mret None
  | Some f =>
      if negb (truthy (filename f)) then mret None
      else
        let name := Werkzeug.secure_filename (filename f) in
        let path := Os.path_join UPLOAD_FOLDER name in
        _ ← write_file path (Uploaded (content f));
        mret (Some path)
  end.

(** [for p in photos: if p and allowed_file(p.filename):
    photo_paths.append(save_file(p))].  Here [p] is truthy, so [save_file]
    returns a path. *)
Fixpoint save_photos (photos : list FileStorage) (photo_paths : list string)
    : M (list string) :=
  match photos with
  | [] => mret photo_paths
  | p :: rest =>
      if truthy (filename p) && allowed_file (filename p) then
        saved ← save_file (Some p);
        save_photos rest (photo_paths ++ option_list saved)
      else save_photos rest photo_paths
  end.

(** *** The builders, with their [save] *)

(** The message of the [ValueError] lxml raises for a text it cannot hold. *)
Definition XML_ERROR : string :=
  "All strings must be XML compatible: Unicode or ASCII, no NULL bytes or control characters".

(** [build_docx] assembles the document and saves it.  Assembling raises at
    the first text with a character XML does not allow (nothing of the
    assembly is inside a [try] but the three [add_picture] calls, which set
    no text); the document is then not saved. *)
Definition build_docx (path : string) (data : EventRecord)
    (invitation_path : option string) (photo_paths : list string) : M string :=
  fs ← read_files;
  let doc := Docx.docx_document fs data invitation_path photo_paths in
  if forallb Docx.xml_compatible (docx_text doc) then
    _ ← write_file path (DocxFile doc);
    mret path
  else raise XML_ERROR.

Definition build_pdf (path : string) (data : EventRecord)
    (invitation_path : option string) (photo_paths : list string) : M string :=
  fs ← read_files;
  _ ← write_file path (PdfFile (Pdf.pdf_canvas fs data invitation_path photo_paths));
  mret path.

(** *** [generate] *)

Record request := {
  form : EventRecord;
  invitation : option FileStorage;
  photos : list FileStorage
}.

Inductive response :=
  | Preview (data : EventRecord) (invitation : option string)
      (photos : list string) (docx pdf : string)
  | Redirect (endpoint : string)
  | Plain (text : string) (status : Z)
  | SendFile (path : string) (as_attachment : bool).

(** [s.replace(" ", "_")] *)
Definition replace_spaces (s : string) : string :=
  to_str (map (fun c => if is_char SPACE c then "_"%char else c) (of_str s)).

(** [secure_filename((data.get("title") or "event").replace(" ", "_"))] *)
Definition base_name (data : EventRecord) : string :=
  Werkzeug.secure_filename
    (replace_spaces (if truthy (title data) then title data else "event")).

Definition docx_path (data : EventRecord) : string :=
  Os.path_join OUTPUT_FOLDER (base_name data ++ ".docx").

Definition pdf_path (data : EventRecord) : string :=
  Os.path_join OUTPUT_FOLDER (base_name data ++ ".pdf").

(** Lines 370-391 of [generate]: the two builds and the response. *)
Definition build_phase (data : EventRecord) (invitation_path : option string)
    (photo_paths : list string) : M response :=
  built ← catch (build_docx (docx_path data) data invitation_path photo_paths);
  match built with
  | Raise e =>
      _ ← flash ("Error creating DOCX: " ++ e)%string "danger";
      mret (Redirect "index")
  | Ok _ =>
      _ ← catch (build_pdf (pdf_path data) data invitation_path photo_paths);
      mret (Preview data invitation_path photo_paths
              (Os.path_basename (docx_path data))
              (Os.path_basename (pdf_path data)))
  end.

(** Lines 353-363 of [generate] on their own: the uploads are saved, and
    their paths are what the builders are given. *)
Definition save_uploads (req : request) : M (option string * list string) :=
  invitation_path ←
    match invitation req with
    | Some f =>
        if truthy (filename f) && allowed_file (filename f)
        then save_file (Some f) else mret None
    | None => mret None
    end;
  photo_paths ← save_photos (photos req) [];
  mret (invitation_path, photo_paths).

Definition generate (req : request) : M response :=
  let data := form req in
  invitation_path ←
    match invitation req with
    | Some f =>
        if truthy (filename f) && allowed_file (filename f)
        then save_file (Some f) else mret None
    | None => mret None
    end;
  photo_paths ← save_photos (photos req) [];
  build_phase data invitation_path photo_paths.

(** *** [download] *)

(** [os.path.exists] *)
Definition path_exists (w : world) (path : string) : bool :=
  bool_decide (is_Some (files w !! path)).

Definition download (fmt name : string) (w : world) : response :=
  let fpath := Os.path_join OUTPUT_FOLDER name in
  let found_or_not :=
    if negb (path_exists w fpath) then Plain "File not found" 404
    else SendFile fpath true in
  if String.eqb fmt "pdf" then
    if negb (path_exists w fpath) then Plain "PDF not available" 404
    else found_or_not
  else found_or_not.

End App.

(** ** What the properties observe *)

Module Observe.
Import Textwrap.

(** A line fits the width. *)
Definition fits (width : Z) (line : pystr) : Prop := len line <= width.

(** Text wrapper: the reading of the specification under which a word longer
    than the width is kept whole, on a line of its own. *)
Definition long_word_overflows : Prop :=
  forall (word : string) (width : Z),
    1 <= width ->
    forallb (fun c => negb (is_whitespace c)) (of_str word) = true ->
    width < Z.of_nat (String.length word) ->
    exists lines, wrap word width = Returns lines /\ In word lines.

(** PDF: the strings drawn with [drawString], with their heights. *)
Definition drawn_lines (ops : list op) : list (Q * string) :=
  omap (fun o => match o with DrawString _ y t => Some (y, t) | _ => None end) ops.

(** PDF: every string drawn, in order. *)
Definition pdf_text (ops : list op) : list string :=
  omap (fun o => match o with
                 | DrawString _ _ t | DrawRightString _ _ t
                 | DrawCentredString _ _ t => Some t
                 | _ => None
                 end) ops.

(** PDF: the paths of the images drawn, in order. *)
Definition pdf_images (ops : list op) : list string :=
  omap (fun o => match o with DrawInlineImage p _ _ _ _ => Some p | _ => None end) ops.

Definition is_show_page (o : op) : bool :=
  match o with ShowPage => true | _ => false end.

(** PDF: the number of page breaks. *)
Definition page_breaks (ops : list op) : nat :=
  length (filter (fun o => is_show_page o = true) ops).

(** PDF: the calls made after the last [showPage]. *)
Fixpoint last_page (ops : list op) : list op :=
  match ops with
  | [] => []
  | o :: rest =>
      if existsb is_show_page rest then last_page rest
      else if is_show_page o then rest else ops
  end.

(** PDF: PIL opens the photo and its sides are not 0, so the [try] block of
    the photo grid runs to its end. *)
Definition pil_decodes (fs : gmap string file) (p : string) : bool :=
  match Pdf.pil_open fs p with
  | Some (iw, ih) => negb ((iw =? 0) || (ih =? 0))%N
  | None => false
  end.

(** PDF: the loop variables of the photo grid before photo number [k]. *)
Definition grid_before (fs : gmap string file) (y : Q) (photo_paths : list string)
    (k : nat) : Pdf.grid :=
  snd (Pdf.photo_loop fs {| Pdf.col := 0; Pdf.row := 0; Pdf.y_last := y |}
         (take k photo_paths)).

(** PDF: the reading of the specification under which the page breaks of the
    photo grid are decided by the column and row indices alone, hence by the
    number of photos. *)
Definition pagination_by_indices_only : Prop :=
  forall (fs1 fs2 : gmap string file) (y1 y2 : Q) (photo_paths : list string),
    page_breaks (Pdf.photo_page fs1 y1 photo_paths)
    = page_breaks (Pdf.photo_page fs2 y2 photo_paths).

(** DOCX: the texts that stand in table cells. *)
Definition table_text (b : block) : list string :=
  match b with Table _ _ => block_text b | _ => [] end.

Definition is_page_break (b : block) : bool :=
  match b with PageBreak => true | _ => false end.

Definition is_table (b : block) : bool :=
  match b with Table _ _ => true | _ => false end.

(** DOCX: the blocks after the last page break. *)
Fixpoint last_docx_page (blocks : list block) : list block :=
  match blocks with
  | [] => []
  | b :: rest =>
      if existsb is_page_break rest then last_docx_page rest
      else if is_page_break b then rest else blocks
  end.

(** DOCX: the photo grid in closed form.  A row is a one-row table of two
    cells; a photo that python-docx takes fills its cell, one that it does not
    take leaves an empty run there and a notice paragraph below the table. *)
Definition photo_cell (fs : gmap string file) (p : string) : cell :=
  if Docx.picture_ok fs p then [InlinePicture p 3] else [EmptyRun].

Definition photo_notice (fs : gmap string file) (p : string) : list block :=
  if Docx.picture_ok fs p then [] else [Docx.unable_notice p].

Fixpoint photo_rows (fs : gmap string file) (photo_paths : list string)
    : list block :=
  match photo_paths with
  | [] => []
  | [p] => Table TableDefault [[photo_cell fs p; []]] :: photo_notice fs p
  | p :: q :: rest =>
      Table TableDefault [[photo_cell fs p; photo_cell fs q]]
      :: photo_notice fs p ++ photo_notice fs q ++ photo_rows fs rest
  end.

(** Requests: the files a request uploads, where [save_file] puts one, and
    a later state of the files that differs from an earlier one by uploads
    only. *)
Definition uploads (req : App.request) : list App.FileStorage :=
  option_list (App.invitation req) ++ App.photos req.

Definition upload_path (f : App.FileStorage) : string :=
  Os.path_join App.UPLOAD_FOLDER (Werkzeug.secure_filename (App.filename f)).

Definition only_uploads_added (fs fs' : gmap string file) : Prop :=
  forall path, fs' !! path = fs !! path \/ exists u, fs' !! path = Some (Uploaded u).

(** File names: a string of characters [secure_filename] lets through. *)
Definition safe (s : pystr) : Prop :=
  Forall (fun c => Werkzeug.is_safe c = true) s.

(** Titles: a title of letters, digits, hyphens, dots, underscores and
    spaces that neither begins nor ends with a space, a dot or an
    underscore, and is not empty. *)
Definition is_edge (c : ascii) : bool :=
  Werkzeug.is_dot_or_underscore c || is_char SPACE c.

Definition plain_title (t : string) : Prop :=
  t <> EmptyString
  /\ Forall (fun c => Werkzeug.is_safe c || is_char SPACE c = true) (of_str t)
  /\ head_is is_edge (of_str t) = false
  /\ head_is is_edge (rev (of_str t)) = false.

(** Each space replaced by an underscore. *)
Definition underscored (t : pystr) : pystr :=
  map (fun c => if is_char SPACE c then "_"%char else c) t.

(** What saving uploads can change. *)
Definition upload_phase (w w' : world) : Prop :=
  write_error w' = write_error w /\ flashes w' = flashes w
  /\ only_uploads_added (files w) (files w').

(** Two states of the files that hold the same images for a request: they
    agree on the invitation path and on every photo path. *)
Definition same_images (fs1 fs2 : gmap string file)
    (invitation_path : option string) (photo_paths : list string) : Prop :=
  forall p, In p (option_list (path_given invitation_path) ++ photo_paths) ->
            fs1 !! p = fs2 !! p.

(** Two painters that move the cursor alike and draw the same strings. *)
Definition same_painting (a b : Pdf.painter) : Prop :=
  forall y, snd (a y) = snd (b y) /\ pdf_text (fst (a y)) = pdf_text (fst (b y)).

End Observe.

(** ** Scenarios *)

Module Scenario.

Definition blank : EventRecord :=
  {| ref_no := EmptyString; date_ref := EmptyString; title := EmptyString;
     department := EmptyString; academic_year := EmptyString;
     date_activity := EmptyString; organized_by := EmptyString;
     overview := EmptyString; day1 := EmptyString; day2 := EmptyString;
     learning_outcomes := EmptyString; conclusion := EmptyString;
     circular_text := EmptyString |}.

(** An overview that wraps to 31 lines, and a one-line Day 1 section. *)
Definition long_overview : EventRecord :=
  {| ref_no := EmptyString; date_ref := EmptyString; title := EmptyString;
     department := EmptyString; academic_year := EmptyString;
     date_activity := EmptyString; organized_by := EmptyString;
     overview := to_str (repeat "a"%char 3100); day1 := "x"; day2 := EmptyString;
     learning_outcomes := EmptyString; conclusion := EmptyString;
     circular_text := EmptyString |}.

(** The scenario of the specification: title "Robotics Workshop", no day
    sections, no photos. *)
Definition robotics : EventRecord :=
  {| ref_no := "R-1"; date_ref := "2024-01-05"; title := "Robotics Workshop";
     department := "ECE"; academic_year := "2023-24";
     date_activity := "2024-01-04"; organized_by := "ECE";
     overview := "A two-day workshop."; day1 := EmptyString; day2 := EmptyString;
     learning_outcomes := EmptyString; conclusion := "It went well.";
     circular_text := "All are invited." |}.

(** The title "Cafe Workshop" with an acute accent on the e (U+00E9), and a
    title with two spaces in a row. *)
Definition accented_title : EventRecord :=
  {| ref_no := EmptyString; date_ref := EmptyString;
     title := "Caf" ++ String (ascii_of_N 233) " Workshop";
     department := EmptyString; academic_year := EmptyString;
     date_activity := EmptyString; organized_by := EmptyString;
     overview := EmptyString; day1 := EmptyString; day2 := EmptyString;
     learning_outcomes := EmptyString; conclusion := EmptyString;
     circular_text := EmptyString |}.

Definition two_spaces_title : EventRecord :=
  {| ref_no := EmptyString; date_ref := EmptyString;
     title := "Robotics  Workshop - 2024";
     department := EmptyString; academic_year := EmptyString;
     date_activity := EmptyString; organized_by := EmptyString;
     overview := EmptyString; day1 := EmptyString; day2 := EmptyString;
     learning_outcomes := EmptyString; conclusion := EmptyString;
     circular_text := EmptyString |}.

(** A title that is not empty but holds spaces only. *)
Definition spaces_title : EventRecord :=
  {| ref_no := EmptyString; date_ref := EmptyString; title := "   ";
     department := EmptyString; academic_year := EmptyString;
     date_activity := EmptyString; organized_by := EmptyString;
     overview := EmptyString; day1 := EmptyString; day2 := EmptyString;
     learning_outcomes := EmptyString; conclusion := EmptyString;
     circular_text := EmptyString |}.

(** A form feed, a control character XML does not allow. *)
Definition FF : string := String (ascii_of_N 12) EmptyString.

(** The scenario of the specification with a form feed at the end of the
    circular text, and with one at the end of the overview. *)
Definition form_feed_circular : EventRecord :=
  {| ref_no := "R-1"; date_ref := "2024-01-05"; title := "Robotics Workshop";
     department := "ECE"; academic_year := "2023-24";
     date_activity := "2024-01-04"; organized_by := "ECE";
     overview := "A two-day workshop."; day1 := EmptyString; day2 := EmptyString;
     learning_outcomes := EmptyString; conclusion := "It went well.";
     circular_text := "All are invited." ++ FF |}.

Definition form_feed_overview : EventRecord :=
  {| ref_no := "R-1"; date_ref := "2024-01-05"; title := "Robotics Workshop";
     department := "ECE"; academic_year := "2023-24";
     date_activity := "2024-01-04"; organized_by := "ECE";
     overview := "A two-day workshop." ++ FF; day1 := EmptyString; day2 := EmptyString;
     learning_outcomes := EmptyString; conclusion := "It went well.";
     circular_text := "All are invited." |}.

Definition image (iw ih : N) : file :=
  Uploaded {| pil_size := Some (iw, ih); docx_ok := true |}.

(** A file that is there and is no image. *)
Definition broken : file := Uploaded {| pil_size := None; docx_ok := false |}.

Definition photo : string := "uploads/p.png".

(** Eight times the same photo; square in one world, flat in the other. *)
Definition eight_photos : list string := repeat photo 8.
Definition fs_square : gmap string file := {[ photo := image 100 100 ]}.
Definition fs_flat : gmap string file := {[ photo := image 1000 10 ]}.
Definition fs_broken : gmap string file := {[ photo := broken ]}.

Definition quiet (fs : gmap string file) : world :=
  {| files := fs; write_error := fun _ => None; flashes := [] |}.

End Scenario.

(** ** Further observations *)

Module ObserveMore.
Import Textwrap Observe.

(** Text wrapper: the characters of a string that are not white space. *)
Definition ink (s : list ascii) : list ascii :=
  filter (fun c => isspace c = false) s.

(** Text wrapper: a text made of the characters of [_whitespace] only. *)
Definition all_whitespace (s : pystr) : Prop := forallb is_whitespace s = true.

(** Text wrapper: no chunk (or line) of the list is empty. *)
Definition no_empty (chunks : list pystr) : Prop :=
  Forall (fun c => c <> []) chunks.

(** DOCX: the outline of a body: the paragraphs whose style is not Normal,
    with their styles. *)
Definition outline (blocks : list block) : list (style * string) :=
  omap (fun b => match b with
                 | Paragraph _ Normal => None
                 | Paragraph t st => Some (st, t)
                 | _ => None
                 end) blocks.

(** DOCX: the cells of the tables of a body, row by row. *)
Definition grid_cells (blocks : list block) : list cell :=
  flat_map (fun b => match b with Table _ rows => concat rows | _ => [] end) blocks.

(** DOCX: the number of page breaks of a body. *)
Definition docx_page_breaks (blocks : list block) : nat :=
  length (filter (fun b => is_page_break b = true) blocks).

Definition optional_heading (text : string) (st : style) (heading : string)
    : list (style * string) :=
  if truthy text then [(st, heading)] else [].

(** PDF: a painter that, entered with the cursor at [b] or above, draws its
    strings at [b'] or above and leaves the cursor there. *)
Definition keeps_above (b b' : Q) (a : Pdf.painter) : Prop :=
  forall y, (b <= y)%Q ->
    Forall (fun d => (b' <= fst d)%Q) (drawn_lines (fst (a y)))
    /\ (b' <= snd (a y))%Q.

(** PDF: the lower edges of the images drawn. *)
Definition image_bottoms (ops : list op) : list Q :=
  omap (fun o => match o with DrawInlineImage _ _ y _ _ => Some y | _ => None end) ops.

(** PDF: the photo grid is in one of its two columns and within five rows. *)
Definition grid_ok (g : Pdf.grid) : Prop :=
  (Pdf.col g = 0 \/ Pdf.col g = 1)%Z /\ (0 <= Pdf.row g <= 4)%Z.

(** DOCX: the thirteen fields of the record. *)
Definition fields (data : EventRecord) : list string :=
  [ ref_no data; date_ref data; title data; department data; academic_year data;
    date_activity data; organized_by data; overview data; day1 data; day2 data;
    learning_outcomes data; conclusion data; circular_text data ].

(** Requests: the test [generate] makes before it saves an upload. *)
Definition allowed_upload (f : App.FileStorage) : bool :=
  truthy (App.filename f) && App.allowed_file (App.filename f).

(** Requests: a later state of the files that differs from an earlier one
    under the upload folder only. *)
Definition changed_under_uploads (fs fs' : gmap string file) : Prop :=
  forall path,
    fs' !! path = fs !! path \/ exists name, path = ("uploads/" ++ name)%string.

(** Requests: what saving uploads can change, with the place of the
    change. *)
Definition upload_effect (w w' : world) : Prop :=
  write_error w' = write_error w /\ flashes w' = flashes w
  /\ only_uploads_added (files w) (files w')
  /\ changed_under_uploads (files w) (files w').

(** PDF: the texts of the strings drawn with [drawString], in order. *)
Definition drawn_texts (ops : list op) : list string := map snd (drawn_lines ops).

(** PDF: a painter that draws the strings [ts], wherever the cursor is. *)
Definition draws (ts : list string) (a : Pdf.painter) : Prop :=
  forall y, drawn_texts (fst (a y)) = ts.

(** PDF: what is drawn for a section that is left out when its text is
    empty. *)
Definition optional_lines (heading text : string) : list string :=
  if truthy text then heading :: Pdf.wrapped text else [].

Definition is_draw_string (o : op) : bool :=
  match o with DrawString _ _ _ => true | _ => false end.

(** PDF: the font of the last [setFont] call of [ops], [f0] when there is
    none: the font a string drawn next is drawn in. *)
Definition font_set (f0 : string * Z) (ops : list op) : string * Z :=
  fold_left (fun f o => match o with SetFont name size => (name, size) | _ => f end)
    ops f0.

End ObserveMore.

(** * Part II: properties *)

(** * General facts *)

Module Basics.

Lemma succ_mod2 k : (S k mod 2 = if k mod 2 =? 0 then 1 else 0)%nat.
Proof.
  assert (Hk : (k mod 2 < 2)%nat) by (apply Nat.mod_upper_bound; lia).
  pose proof (Nat.div_mod_eq k 2) as Hd.
  destruct (Nat.eqb_spec (k mod 2) 0) as [E|E].
  - symmetry. apply (Nat.mod_unique _ _ (k / 2)); lia.
  - symmetry. apply (Nat.mod_unique _ _ (S (k / 2))); lia.
Qed.

Lemma pair_ind {A} (P : list A -> Prop) :
  P [] -> (forall x, P [x]) -> (forall x y l, P l -> P (x :: y :: l)) ->
  forall l, P l.
Proof.
  intros H0 H1 H2.
  assert (H : forall l, P l /\ forall x, P (x :: l)).
  { induction l as [|y l [IH1 IH2]]; split; auto. }
  intros l. apply H.
Qed.

Lemma alter_middle {A} (f : A -> A) (l1 : list A) (x : A) (l2 : list A) :
  alter f (length l1) (l1 ++ x :: l2) = l1 ++ f x :: l2.
Proof.
  replace (length l1) with (length l1 + 0)%nat by lia.
  now rewrite alter_app_r.
Qed.

(** **** Strings and their characters *)

Lemma of_to_str l : of_str (to_str l) = l.
Proof. apply list_ascii_of_string_of_list_ascii. Qed.

Lemma to_of_str s : to_str (of_str s) = s.
Proof. apply string_of_list_ascii_of_string. Qed.

Lemma of_str_app (s t : string) :
  of_str (s ++ t)%string = (of_str s ++ of_str t)%list.
Proof. induction s as [|c s IH]; simpl; [reflexivity | now rewrite IH]. Qed.

Lemma of_str_inj s t : of_str s = of_str t -> s = t.
Proof. intros H. rewrite <- (to_of_str s), <- (to_of_str t). now rewrite H. Qed.

End Basics.

(** * Properties of the text wrapper *)

Module TextwrapFacts.
Import Textwrap Observe.

Lemma len_nonneg {A} (l : list A) : 0 <= len l.
Proof. unfold len. lia. Qed.

Lemma len_app {A} (l k : list A) : len (l ++ k) = len l + len k.
Proof. unfold len. rewrite length_app. lia. Qed.

Lemma to_str_length (l : pystr) : String.length (to_str l) = length l.
Proof. induction l as [|c l IH]; simpl; [reflexivity | now rewrite IH]. Qed.

(** **** Chunking loses nothing and needs no more fuel than it gets *)

Lemma span_app p s run rest : span p s = (run, rest) -> run ++ rest = s.
Proof.
  revert run rest. induction s as [|c s IH]; simpl; intros run rest H.
  - now inversion H.
  - destruct (p c).
    + destruct (span p s) as [r1 r2]. inversion H; subst. simpl.
      f_equal. now apply IH.
    + now inversion H.
Qed.

Lemma span_head p c s : p c = true -> fst (span p (c :: s)) <> [].
Proof. intros H. simpl. rewrite H. now destruct (span p s). Qed.

Lemma scan_word_app back s w rest : scan_word back s = (w, rest) -> w ++ rest = s.
Proof.
  revert back w rest. induction s as [|c s IH]; intros back w rest H.
  - simpl in H. now inversion H.
  - cbn [scan_word] in H.
    destruct (hyphen_break back (c :: s)); [now inversion H|].
    destruct (is_whitespace c); [now inversion H|].
    destruct (head_is is_word_punct back && emdash_then_word (c :: s));
      [now inversion H|].
    destruct (scan_word (c :: back) s) as [w' r'] eqn:E.
    inversion H; subst. simpl. f_equal. eapply IH, E.
Qed.

Lemma next_chunk_app back s chunk rest :
  next_chunk back s = (chunk, rest) ->
  chunk ++ rest = s /\ (s <> [] -> chunk <> []).
Proof.
  destruct s as [|c s]; intros H.
  - simpl in H. inversion H. now split.
  - unfold next_chunk in H. destruct (is_whitespace c) eqn:Hws.
    + split; [eapply span_app, H|]. intros _.
      pose proof (span_head is_whitespace c s Hws) as Hne. now rewrite H in Hne.
    + destruct (head_is is_word_punct back && emdash_then_word (c :: s)) eqn:Hem.
      * split; [eapply span_app, H|]. intros _.
        apply andb_prop in Hem as [_ Hem]. unfold emdash_then_word in Hem.
        rewrite H in Hem. destruct chunk; [discriminate | easy].
      * destruct (scan_word (c :: back) s) as [w r] eqn:E. inversion H; subst.
        split; [|easy]. simpl. f_equal. eapply scan_word_app, E.
Qed.

Lemma split_from_concat fuel back s :
  (length s <= fuel)%nat -> concat (split_from fuel back s) = s.
Proof.
  revert back s. induction fuel as [|fuel IH]; intros back s Hlen.
  - destruct s; [reflexivity | simpl in Hlen; lia].
  - destruct s as [|c s]; [reflexivity|].
    cbn [split_from]. destruct (next_chunk back (c :: s)) as [chunk rest] eqn:E.
    apply next_chunk_app in E as [Happ Hne]. specialize (Hne ltac:(easy)).
    simpl. rewrite IH; [assumption|].
    apply (f_equal (@length ascii)) in Happ. rewrite length_app in Happ.
    destruct chunk; [easy|]. simpl in *. lia.
Qed.

(** [_split] cuts the text into chunks without losing or adding a character. *)
Lemma split_concat text : concat (_split text) = text.
Proof. apply split_from_concat. lia. Qed.

(** **** Slices and [rfind] *)

Lemma slice_app {A} (e : Z) (s : list A) : slice_to e s ++ slice_from e s = s.
Proof. unfold slice_to, slice_from. destruct (e <? 0); apply take_drop. Qed.

Lemma slice_to_len {A} (e : Z) (s : list A) :
  0 <= e <= len s -> len (slice_to e s) = e.
Proof.
  intros H. unfold slice_to. destruct (Z.ltb_spec e 0); [lia|].
  unfold len in *. rewrite length_take. lia.
Qed.

Lemma rfind_from_range d s : forall i stop,
  0 <= i ->
  rfind_from d i s stop = -1 \/ i <= rfind_from d i s stop < stop.
Proof.
  induction s as [|c s IH]; intros i stop Hi; simpl; [now left|].
  destruct (IH (i + 1) stop ltac:(lia)) as [E | E].
  - rewrite E. simpl. destruct ((i <? stop) && is_char d c) eqn:B; [|now left].
    apply andb_prop in B as [B _]. apply Z.ltb_lt in B. right. lia.
  - destruct (Z.leb_spec 0 (rfind_from d (i + 1) s stop)); [|lia]. right. lia.
Qed.

Lemma rfind_range d s stop : rfind d s stop = -1 \/ 0 <= rfind d s stop < stop.
Proof. apply rfind_from_range. lia. Qed.

(** **** One round of [_wrap_chunks] *)

Lemma weight_cons c chunks :
  weight (c :: chunks) = (length c + 1 + weight chunks)%nat.
Proof. unfold weight. simpl. rewrite length_app. lia. Qed.

Lemma weight_app l k : weight (l ++ k) = (weight l + weight k)%nat.
Proof.
  induction l as [|c l IH]; [reflexivity|].
  simpl. rewrite !weight_cons, IH. lia.
Qed.

Lemma fill_line_spec width chunks : forall cur_line cur_len cl n rest,
  fill_line width cur_line cur_len chunks = (cl, n, rest) ->
  exists taken,
    cl = cur_line ++ taken /\ chunks = taken ++ rest
    /\ n = cur_len + len (concat taken)
    /\ n <= Z.max cur_len width
    /\ match rest with c :: _ => width < n + len c | [] => True end.
Proof.
  induction chunks as [|c chunks IH]; intros cur_line cur_len cl n rest H.
  - simpl in H. inversion H; subst. exists []. rewrite app_nil_r. simpl.
    unfold len. simpl. repeat split; lia.
  - cbn [fill_line] in H. destruct (Z.leb_spec (cur_len + len c) width) as [Hfit|Hfit].
    + apply IH in H as (taken & -> & -> & -> & Hle & Hrest).
      exists (c :: taken). rewrite <- app_assoc. simpl. rewrite len_app.
      repeat split; try lia; try assumption.
    + inversion H; subst. exists []. rewrite app_nil_r. simpl.
      unfold len at 1. simpl. repeat split; lia.
Qed.

Lemma handle_long_word_spec c rest cur_line cur_len width :
  1 <= width -> 0 <= cur_len <= width -> width < len c ->
  exists t d,
    _handle_long_word (c :: rest) cur_line cur_len width
      = (d :: rest, cur_line ++ [t])
    /\ t ++ d = c /\ len t <= width - cur_len /\ (cur_len = 0 -> 1 <= len t).
Proof.
  intros Hw Hcur Hlong. unfold _handle_long_word.
  destruct (Z.ltb_spec width 1) as [?|_]; [lia|].
  set (space_left := width - cur_len).
  match goal with |- context [slice_from ?e c] => set (end_ := e) end.
  assert (Hend : 0 <= end_ <= space_left /\ (cur_len = 0 -> 1 <= end_)).
  { subst end_. destruct (space_left <? len c); [|subst space_left; lia].
    destruct (rfind_range HYPHEN c space_left) as [E | E].
    - rewrite E. simpl. subst space_left. lia.
    - destruct (_ && _); subst space_left; lia. }
  exists (slice_to end_ c), (slice_from end_ c).
  split; [reflexivity|]. split; [apply slice_app|].
  rewrite slice_to_len by (subst space_left; lia). subst space_left. lia.
Qed.

Lemma drop_trailing_space_len cur_line :
  len (concat (drop_trailing_space cur_line)) <= len (concat cur_line).
Proof.
  unfold drop_trailing_space.
  destruct cur_line as [|x l _] using rev_ind; [simpl; lia|].
  rewrite last_snoc. destruct (strip_is_empty x); [|lia].
  rewrite removelast_last, concat_app, len_app. simpl.
  pose proof (len_nonneg (x ++ [])). lia.
Qed.

(** A round of the outer loop uses up part of the chunks and adds at most one
    line, which fits the width. *)
Lemma wrap_round_spec width c chunks lines chunks' lines' :
  1 <= width ->
  wrap_round width (c :: chunks) lines = (chunks', lines') ->
  (weight chunks' < weight (c :: chunks))%nat
  /\ exists new, lines' = lines ++ new /\ Forall (fun l => len l <= width) new.
Proof.
  intros Hw H. unfold wrap_round in H.
  set (chunks1 := if strip_is_empty c && nonempty lines then chunks else c :: chunks) in H.
  assert (H1 : chunks1 = c :: chunks \/ (weight chunks1 < weight (c :: chunks))%nat).
  { subst chunks1. destruct (_ && _); [right | now left]. rewrite weight_cons. lia. }
  destruct (fill_line width [] 0 chunks1) as [[cur_line cur_len] chunks2] eqn:F.
  apply fill_line_spec in F as (taken & Hcl & Hch & Hn & Hle & Hrest).
  simpl in Hcl. subst cur_line. rewrite Z.add_0_l in Hn.
  assert (Hlen : 0 <= cur_len <= width).
  { subst cur_len. pose proof (len_nonneg (concat taken)). lia. }
  assert (Hstep : exists chunks3 cur_line3,
     (match chunks2 with
      | c0 :: _ => if width <? len c0
                   then _handle_long_word chunks2 taken cur_len width
                   else (chunks2, taken)
      | [] => (chunks2, taken)
      end) = (chunks3, cur_line3)
     /\ (weight chunks3 < weight (c :: chunks))%nat
     /\ len (concat cur_line3) <= width).
  { destruct chunks2 as [|c0 rest].
    - exists [], taken. split; [reflexivity|]. split; [|lia].
      rewrite weight_cons. unfold weight. simpl. lia.
    - destruct (Z.ltb_spec width (len c0)) as [Hlong|Hshort].
      + destruct (handle_long_word_spec c0 rest taken cur_len width Hw Hlen Hlong)
          as (t & d & Hh & Htd & Ht & Hpos).
        exists (d :: rest), (taken ++ [t]). split; [exact Hh|].
        split.
        * assert (Hd : (weight (d :: rest) <= weight (c0 :: rest))%nat).
          { rewrite !weight_cons, <- Htd, length_app. lia. }
          destruct taken as [|x taken].
          -- simpl in Hch. assert (cur_len = 0) as E0 by (subst cur_len; reflexivity).
             specialize (Hpos E0).
             assert (weight (d :: rest) < weight (c0 :: rest))%nat.
             { rewrite !weight_cons, <- Htd, length_app. unfold len in Hpos. lia. }
             destruct H1 as [H1|H1]; [rewrite <-H1, Hch; lia | rewrite Hch in H1; lia].
          -- assert (weight chunks1 > weight (c0 :: rest))%nat.
             { rewrite Hch, weight_app, weight_cons. lia. }
             destruct H1 as [H1|H1]; [rewrite <- H1|]; lia.
        * rewrite concat_app, len_app. simpl. rewrite app_nil_r. lia.
      + exists (c0 :: rest), taken. split; [reflexivity|]. split; [|lia].
        destruct taken as [|x taken].
        * exfalso. assert (cur_len = 0) by (subst cur_len; reflexivity). lia.
        * assert (weight chunks1 > weight (c0 :: rest))%nat.
          { rewrite Hch, weight_app, weight_cons. lia. }
          destruct H1 as [H1|H1]; [rewrite <- H1|]; lia. }
  destruct Hstep as (chunks3 & cur_line3 & Heq & Hwt & Hfit).
  rewrite Heq in H. inversion H; subst chunks' lines'. split; [assumption|].
  pose proof (drop_trailing_space_len cur_line3).
  destruct (nonempty (drop_trailing_space cur_line3)).
  - eexists. split; [reflexivity|]. constructor; [lia | constructor].
  - exists []. now rewrite app_nil_r.
Qed.

(** The fuel [_wrap_chunks] starts with is never used up, and every line of
    the result fits. *)
Lemma wrap_loop_spec width :
  1 <= width ->
  forall fuel chunks lines,
    (weight chunks <= fuel)%nat -> Forall (fits width) lines ->
    exists out,
      wrap_loop fuel width chunks lines = Returns out /\ Forall (fits width) out.
Proof.
  intros Hw. induction fuel as [|fuel IH]; intros chunks lines Hfuel Hlines.
  - destruct chunks as [|c chunks]; [simpl; eauto|].
    rewrite weight_cons in Hfuel. lia.
  - destruct chunks as [|c chunks]; [simpl; eauto|].
    cbn [wrap_loop].
    destruct (wrap_round width (c :: chunks) lines) as [chunks' lines'] eqn:R.
    apply wrap_round_spec in R as (Hlt & new & -> & Hnew); [|assumption].
    apply IH; [lia|]. apply Forall_app. split; assumption.
Qed.

Lemma wrap_chunks_spec width chunks :
  1 <= width ->
  exists out, _wrap_chunks width chunks = Returns out /\ Forall (fits width) out.
Proof.
  intros Hw. unfold _wrap_chunks. destruct (Z.leb_spec width 0); [lia|].
  apply wrap_loop_spec; [assumption | lia | constructor].
Qed.

(** The width 100 of [build_pdf] is positive, so [wrap] returns there. *)
Lemma wrapped_returns text :
  wrap text 100 = Returns (Pdf.wrapped text).
Proof.
  unfold Pdf.wrapped, wrap.
  destruct (wrap_chunks_spec 100 (_split_chunks (of_str text)) ltac:(lia))
    as (out & -> & _).
  reflexivity.
Qed.

(** C1 (as amended): for every text and every width of at least 1,
    [textwrap.wrap] returns, and every line it returns is at most [width]
    characters long; there is no overflowing line, a word longer than the
    width being cut into pieces that fit. *)
Theorem wrap_lines_fit (text : string) (width : Z) :
  1 <= width ->
  exists lines,
    wrap text width = Returns lines
    /\ Forall (fun line => Z.of_nat (String.length line) <= width) lines.
Proof.
  intros Hw. unfold wrap.
  destruct (wrap_chunks_spec width (_split_chunks (of_str text)) Hw)
    as (out & -> & Hout).
  eexists. split; [reflexivity|].
  apply Forall_map. eapply Forall_impl; [exact Hout|].
  intros l Hl. simpl. rewrite to_str_length. exact Hl.
Qed.

Lemma wrap_lines_fit_witness :
  exists lines,
    wrap "Look, goof-ball -- use the -b option!" 5 = Returns lines
    /\ Forall (fun line => Z.of_nat (String.length line) <= 5) lines.
Proof. apply (wrap_lines_fit "Look, goof-ball -- use the -b option!" 5). lia. Defined.

(** C1 (as stated) fails: the one-word text "abcdef" is longer than the
    width 3, yet it does not get an overflowing line of its own; it is
    wrapped into "abc" and "def". *)
Lemma wrap_long_word_is_broken :
  wrap "abcdef" 3 = Returns ["abc"; "def"]%string /\ ~ long_word_overflows.
Proof.
  assert (E : wrap "abcdef" 3 = Returns ["abc"; "def"]%string) by (vm_compute; reflexivity).
  split; [exact E|]. intros H.
  destruct (H "abcdef"%string 3) as (lines & Hl & Hin);
    [lia | reflexivity | simpl; lia |].
  rewrite E in Hl. inversion Hl; subst lines.
  simpl in Hin. destruct Hin as [Hin | [Hin | []]]; discriminate Hin.
Qed.

End TextwrapFacts.





(** * Properties of the PDF page painter *)

Module PdfFacts.
Import Pdf Observe Basics.
Local Open Scope Q_scope.

Lemma Qlt_bool_true x y : Qlt_bool x y = true -> x < y.
Proof.
  unfold Qlt_bool. intros H. apply negb_true_iff in H.
  apply Qnot_le_lt. intros Hle. apply Qle_bool_iff in Hle. congruence.
Qed.

Lemma Qlt_bool_false x y : Qlt_bool x y = false -> y <= x.
Proof.
  unfold Qlt_bool. intros H. apply negb_false_iff in H.
  now apply Qle_bool_iff.
Qed.

Lemma reset_above_margin : 120 <= h - 120.
Proof. apply Qle_bool_iff. reflexivity. Qed.

Lemma drawn_lines_app a b : drawn_lines (a ++ b) = drawn_lines a ++ drawn_lines b.
Proof. apply omap_app. Qed.

Lemma drawn_lines_header fs : drawn_lines (draw_header fs) = [].
Proof.
  unfold draw_header. rewrite drawn_lines_app.
  destruct (pil_open fs logo_path) as [[iw ih]|]; [destruct (iw =? 0)%N|]; reflexivity.
Qed.

Lemma header_no_show_page fs : existsb is_show_page (draw_header fs) = false.
Proof.
  unfold draw_header.
  destruct (pil_open fs logo_path) as [[iw ih]|]; [destruct (iw =? 0)%N|]; reflexivity.
Qed.

Lemma pdf_text_header fs :
  pdf_text (draw_header fs) = ["SURYA ENGINEERING COLLEGE, ERODE"%string].
Proof.
  unfold draw_header.
  destruct (pil_open fs logo_path) as [[iw ih]|]; [destruct (iw =? 0)%N|]; reflexivity.
Qed.

Lemma last_page_app before after :
  existsb is_show_page after = false ->
  last_page (before ++ ShowPage :: after) = after.
Proof.
  intros Hafter. induction before as [|o before IH]; simpl.
  - now rewrite Hafter.
  - rewrite existsb_app. simpl. rewrite orb_true_r. exact IH.
Qed.

Lemma last_page_app_2 ops before hdr tail :
  ops = (before ++ [ShowPage]) ++ hdr ++ tail ->
  existsb is_show_page hdr = false ->
  existsb is_show_page tail = false ->
  last_page ops = hdr ++ tail.
Proof.
  intros -> Hh Ht. rewrite <- app_assoc. apply last_page_app.
  now rewrite existsb_app, Hh, Ht.
Qed.

(** The loop of a text section, one line at a time. *)
Lemma draw_lines_cons hdr ln rest y :
  draw_lines hdr (ln :: rest) y =
    let '(ops1, y1) := break_if_low hdr (y - 14) in
    let '(ops2, y2) := draw_lines hdr rest y1 in
    (DrawString 50 y ln :: ops1 ++ ops2, y2).
Proof.
  cbn [draw_lines]. unfold and_then, emit, move_down.
  destruct (break_if_low hdr (y - 14)) as [ops1 y1].
  destruct (draw_lines hdr rest y1) as [ops2 y2]. reflexivity.
Qed.

Lemma break_if_low_spec fs y :
  drawn_lines (fst (break_if_low (draw_header fs) y)) = []
  /\ 120 <= snd (break_if_low (draw_header fs) y).
Proof.
  unfold break_if_low. destruct (Qlt_bool y 120) eqn:E; simpl.
  - split; [apply drawn_lines_header | apply reset_above_margin].
  - split; [reflexivity | now apply Qlt_bool_false].
Qed.

(** Entered with the cursor at or above the margin, the loop draws every line
    at or above it and leaves the cursor there. *)
Lemma draw_lines_above fs lines : forall y,
  120 <= y ->
  Forall (fun d => 120 <= fst d) (drawn_lines (fst (draw_lines (draw_header fs) lines y)))
  /\ 120 <= snd (draw_lines (draw_header fs) lines y).
Proof.
  induction lines as [|ln rest IH]; intros y Hy; [simpl; split; [constructor | exact Hy]|].
  rewrite draw_lines_cons.
  pose proof (break_if_low_spec fs (y - 14)) as [Hnone Hy1].
  destruct (break_if_low (draw_header fs) (y - 14)) as [ops1 y1]. simpl in Hnone, Hy1.
  specialize (IH y1 Hy1).
  destruct (draw_lines (draw_header fs) rest y1) as [ops2 y2]. simpl in *.
  destruct IH as [IH1 IH2]. split; [|exact IH2].
  constructor; [exact Hy|]. rewrite drawn_lines_app, Hnone. exact IH1.
Qed.

Lemma draw_lines_texts fs lines : forall y,
  map snd (drawn_lines (fst (draw_lines (draw_header fs) lines y))) = lines.
Proof.
  induction lines as [|ln rest IH]; intros y; [reflexivity|].
  rewrite draw_lines_cons.
  pose proof (break_if_low_spec fs (y - 14)) as [Hnone _].
  destruct (break_if_low (draw_header fs) (y - 14)) as [ops1 y1]. simpl in Hnone.
  specialize (IH y1).
  destruct (draw_lines (draw_header fs) rest y1) as [ops2 y2]. simpl in *.
  rewrite drawn_lines_app, Hnone. simpl. now rewrite IH.
Qed.

(** C2 (as amended): a text section draws its heading 8 below the cursor it
    is entered with and starts the loop over the wrapped lines 16 below the
    heading, with no check.  In the loop the page-break check comes after a
    line is drawn and the cursor lowered by 14: if the cursor is then below
    120, the page is ended, the header redrawn and the cursor reset to
    [h - 120].  So the loop draws the lines of the text in order, the first
    where the cursor stands on entry, and every line after the first at 120
    or above; a loop that draws a line leaves the cursor at 120 or above, and
    a loop without lines draws nothing and leaves the cursor where it
    was. *)
Theorem section_lines_after_first_above_margin
    (fs : gmap string file) (heading text : string) (lines : list string) (y : Q) :
  let hdr := draw_header fs in
  let drawn := drawn_lines (fst (draw_lines hdr lines y)) in
  text_section hdr heading text y
    = (SetFont "Helvetica-Bold" 11 :: DrawString 50 (y - 8) heading
       :: SetFont "Helvetica" 10 :: fst (draw_lines hdr (wrapped text) (y - 8 - 16)),
       snd (draw_lines hdr (wrapped text) (y - 8 - 16)))
  /\ map snd drawn = lines
  /\ match lines with
     | [] => draw_lines hdr [] y = ([], y)
     | ln :: rest =>
         draw_lines hdr (ln :: rest) y
           = (let '(ops1, y1) :=
                if Qlt_bool (y - 14) 120 then (ShowPage :: hdr, h - 120)
                else ([], y - 14) in
              let '(ops2, y2) := draw_lines hdr rest y1 in
              (DrawString 50 y ln :: ops1 ++ ops2, y2))
         /\ head drawn = Some (y, ln)
         /\ Forall (fun d => 120 <= fst d) (tail drawn)
         /\ 120 <= snd (draw_lines hdr (ln :: rest) y)
     end.
Proof.
  cbv zeta. split.
  { unfold text_section, and_then, move_down, emit.
    destruct (draw_lines (draw_header fs) (wrapped text) (y - 8 - 16)) as [ops y'].
    reflexivity. }
  split; [apply draw_lines_texts|].
  destruct lines as [|ln rest]; [reflexivity|].
  split; [rewrite draw_lines_cons; unfold break_if_low; reflexivity|].
  rewrite draw_lines_cons.
  pose proof (break_if_low_spec fs (y - 14)) as [Hnone Hy1].
  destruct (break_if_low (draw_header fs) (y - 14)) as [ops1 y1]. simpl in Hnone, Hy1.
  pose proof (draw_lines_above fs rest y1 Hy1) as [Hall Hend].
  destruct (draw_lines (draw_header fs) rest y1) as [ops2 y2]. simpl in *.
  rewrite drawn_lines_app, Hnone. simpl. repeat split; assumption.
Qed.

(** C2 (as stated) fails: with an overview of 31 wrapped lines the cursor
    stands at [h - 708], above the margin, after the overview; the Day 1
    heading then takes it down by 8 and 16 without a check, and the first line
    of the Day 1 section, "x", is drawn at 13956/127 (about 109.9), below the
    margin of 120. *)
Lemma section_first_line_below_margin :
  In (DrawString 50 (13956 # 127) "x")
     (pdf_canvas ∅ Scenario.long_overview None [])
  /\ 13956 # 127 < 120.
Proof.
  split; [|reflexivity].
  assert (H : pdf_canvas ∅ Scenario.long_overview None [] !! 60%nat
              = Some (DrawString 50 (13956 # 127) "x"))
    by (vm_compute; reflexivity).
  apply list_elem_of_lookup_2 in H. apply list_elem_of_In in H. exact H.
Qed.


(** **** The photo grid *)

Lemma photo_loop_app fs l1 : forall g l2,
  photo_loop fs g (l1 ++ l2) =
    let '(ops1, g1) := photo_loop fs g l1 in
    let '(ops2, g2) := photo_loop fs g1 l2 in
    (ops1 ++ ops2, g2).
Proof.
  induction l1 as [|p l1 IH]; intros g l2; simpl.
  - now destruct (photo_loop fs g l2).
  - destruct (photo_step fs g p) as [o1 g1]. rewrite IH.
    destruct (photo_loop fs g1 l1) as [o2 g2].
    destruct (photo_loop fs g2 l2) as [o3 g3]. now rewrite app_assoc.
Qed.

Lemma photo_step_col fs g p :
  col (snd (photo_step fs g p)) = (if (1 <? col g + 1)%Z then 0 else col g + 1)%Z.
Proof.
  unfold photo_step. destruct (place_photo fs g p) as [ops y].
  destruct (1 <? col g + 1)%Z; [|reflexivity].
  now destruct (Qlt_bool (y - row_h) 120).
Qed.

(** The column index before photo [k] is [k mod 2], whatever was decoded. *)
Lemma grid_before_col fs y photo_paths k :
  (k <= length photo_paths)%nat ->
  col (grid_before fs y photo_paths k) = Z.of_nat (k mod 2).
Proof.
  unfold grid_before. induction k as [|k IH]; intros Hk; [reflexivity|].
  destruct (lookup_lt_is_Some_2 photo_paths k ltac:(lia)) as [p Hp].
  rewrite (take_S_r _ _ _ Hp), photo_loop_app.
  specialize (IH ltac:(lia)).
  destruct (photo_loop fs _ (take k photo_paths)) as [ops1 g1]. cbn [snd] in IH.
  cbn [photo_loop].
  pose proof (photo_step_col fs g1 p) as Hc.
  destruct (photo_step fs g1 p) as [ops2 g2]. cbn [snd] in *.
  rewrite Hc, IH, succ_mod2.
  assert (Hmod : (k mod 2 < 2)%nat) by (apply Nat.mod_upper_bound; lia).
  destruct (k mod 2)%nat as [|[|n]]; [reflexivity | reflexivity | lia].
Qed.

Lemma grid_before_S fs y photo_paths k p :
  photo_paths !! k = Some p ->
  grid_before fs y photo_paths (S k)
  = snd (photo_step fs (grid_before fs y photo_paths k) p).
Proof.
  intros Hp. unfold grid_before. rewrite (take_S_r _ _ _ Hp), photo_loop_app.
  destruct (photo_loop fs _ (take k photo_paths)) as [ops1 g1]. simpl.
  now destruct (photo_step fs g1 p).
Qed.

Lemma place_photo_fails fs g p :
  pil_decodes fs p = false -> place_photo fs g p = ([], y_last g).
Proof.
  unfold pil_decodes, place_photo.
  destruct (pil_open fs p) as [[iw ih]|]; [|reflexivity].
  intros H. apply negb_false_iff in H. now rewrite H.
Qed.

Lemma place_photo_draws fs g p :
  pil_decodes fs p = true -> (col g = 0 \/ col g = 1)%Z ->
  exists x dw dh,
    place_photo fs g p
    = ([DrawInlineImage p x (y_start - inject_Z (row g) * (row_h + 20) - dh) dw dh],
       y_start - inject_Z (row g) * (row_h + 20) - dh).
Proof.
  unfold pil_decodes, place_photo.
  destruct (pil_open fs p) as [[iw ih]|]; [|discriminate].
  intros H Hcol. apply negb_true_iff in H. rewrite H.
  destruct Hcol as [-> | ->]; simpl; eauto.
Qed.

(** C3 (as amended): the grid advances column-then-row: photo number [k] is
    handled at column [k mod 2], whether or not it decodes.  A photo that does
    not decode draws nothing and leaves [y] as it was; one that decodes is
    drawn once, with its lower edge [y] at [y_start - row*140 - draw_h].
    After a photo in the first column the row stays and nothing else is
    emitted.  After a photo in the second column the row is complete: if
    [y - 120 < 120], for the [y] last computed, a page break and the header
    follow and the row counter returns to 0, otherwise the row counter goes up
    by one.  So the page break is decided by [y] together with the column. *)
Theorem photo_grid_advance
    (fs : gmap string file) (y0 : Q) (photo_paths : list string)
    (k : nat) (p : string) :
  photo_paths !! k = Some p ->
  let g := grid_before fs y0 photo_paths k in
  let g' := grid_before fs y0 photo_paths (S k) in
  let drawn := fst (place_photo fs g p) in
  let y := snd (place_photo fs g p) in
  let ops := fst (photo_step fs g p) in
  col g = Z.of_nat (k mod 2)
  /\ col g' = Z.of_nat (S k mod 2)
  /\ y_last g' = y
  /\ (pil_decodes fs p = false -> drawn = [] /\ y = y_last g)
  /\ (pil_decodes fs p = true ->
      exists x dw dh,
        drawn = [DrawInlineImage p x y dw dh]
        /\ y = y_start - inject_Z (row g) * (row_h + 20) - dh)
  /\ ((k mod 2 = 0)%nat -> row g' = row g /\ ops = drawn)
  /\ ((k mod 2 = 1)%nat ->
      if Qlt_bool (y - row_h) 120
      then row g' = 0%Z /\ ops = drawn ++ ShowPage :: draw_header fs
      else row g' = (row g + 1)%Z /\ ops = drawn).
Proof.
  intros Hp. cbv zeta.
  assert (Hk : (k < length photo_paths)%nat) by (eapply lookup_lt_Some, Hp).
  pose proof (grid_before_col fs y0 photo_paths k ltac:(lia)) as Hcol.
  pose proof (grid_before_col fs y0 photo_paths (S k) ltac:(lia)) as Hcol'.
  rewrite (grid_before_S _ _ _ _ _ Hp) in *.
  set (g := grid_before fs y0 photo_paths k) in *.
  split; [exact Hcol|]. split; [exact Hcol'|].
  assert (Hmod : (k mod 2 < 2)%nat) by (apply Nat.mod_upper_bound; lia).
  split.
  { unfold photo_step. destruct (place_photo fs g p) as [ops y].
    destruct (1 <? col g + 1)%Z; [destruct (Qlt_bool (y - row_h) 120)|]; reflexivity. }
  split.
  { intros Hd. now rewrite place_photo_fails. }
  split.
  { intros Hd. destruct (place_photo_draws fs g p Hd) as (x & dw & dh & ->); [lia|].
    simpl. eauto. }
  split.
  - intros E. unfold photo_step. destruct (place_photo fs g p) as [ops y].
    rewrite Hcol, E. simpl. split; reflexivity.
  - intros E. unfold photo_step. destruct (place_photo fs g p) as [ops y].
    rewrite Hcol, E. simpl. destruct (Qlt_bool (y - row_h) 120); split; reflexivity.
Qed.

Lemma photo_grid_advance_witness :
  let fs := Scenario.fs_square in
  let g := grid_before fs 500 Scenario.eight_photos 7 in
  let g' := grid_before fs 500 Scenario.eight_photos 8 in
  col g = 1%Z /\ col g' = 0%Z /\ row g' = 0%Z
  /\ fst (photo_step fs g Scenario.photo)
     = fst (place_photo fs g Scenario.photo) ++ ShowPage :: draw_header fs.
Proof.
  pose proof (photo_grid_advance Scenario.fs_square 500 Scenario.eight_photos 7
                Scenario.photo eq_refl) as (H1 & H2 & _ & _ & _ & _ & H7).
  cbv zeta. split; [exact H1|]. split; [exact H2|].
  specialize (H7 eq_refl).
  assert (E : Qlt_bool
                (snd (place_photo Scenario.fs_square
                        (grid_before Scenario.fs_square 500 Scenario.eight_photos 7)
                        Scenario.photo) - row_h) 120 = true)
    by (vm_compute; reflexivity).
  rewrite E in H7. exact H7.
Defined.

(** C3 (as stated) fails: the indices are not the sole pagination state.
    Eight decodable photos fill the same four rows in both worlds; with
    square photos the grid breaks the page after the fourth row, with flat
    ones it does not. *)
Lemma grid_pagination_depends_on_photo_height :
  page_breaks (photo_page Scenario.fs_square 500 Scenario.eight_photos) = 1%nat
  /\ page_breaks (photo_page Scenario.fs_flat 500 Scenario.eight_photos) = 0%nat
  /\ ~ pagination_by_indices_only.
Proof.
  assert (E1 : page_breaks (photo_page Scenario.fs_square 500 Scenario.eight_photos) = 1%nat)
    by (vm_compute; reflexivity).
  assert (E2 : page_breaks (photo_page Scenario.fs_flat 500 Scenario.eight_photos) = 0%nat)
    by (vm_compute; reflexivity).
  split; [exact E1|]. split; [exact E2|]. intros H.
  specialize (H Scenario.fs_square Scenario.fs_flat 500 500 Scenario.eight_photos).
  rewrite E1, E2 in H. discriminate H.
Qed.

(** The value of [y] the page-break test reads can also be a leftover: when
    neither photo of the first row decodes, it is the cursor the text of
    page 2 ended with. *)
Lemma grid_pagination_reads_text_cursor :
  page_breaks (photo_page ∅ 500 [Scenario.photo; Scenario.photo]) = 0%nat
  /\ page_breaks (photo_page ∅ 200 [Scenario.photo; Scenario.photo]) = 1%nat.
Proof. split; vm_compute; reflexivity. Qed.

End PdfFacts.

(** * Properties of file names and paths *)

Module NameFacts.
Import Textwrap Werkzeug Os App Observe Basics.
Local Open Scope string_scope.

(** **** [secure_filename] returns safe characters only *)

Lemma lstrip_safe p s : safe s -> safe (lstrip p s).
Proof.
  unfold safe. induction s as [|c s IH]; intros H; simpl; [constructor|].
  destruct (p c); [|exact H]. apply IH. now inversion H.
Qed.

Lemma strip_safe p s : safe s -> safe (strip p s).
Proof.
  intros H. unfold strip, rstrip. apply Forall_rev, lstrip_safe, Forall_rev.
  now apply lstrip_safe.
Qed.

Lemma secure_filename_safe name : safe (of_str (secure_filename name)).
Proof.
  unfold secure_filename, secure_filename_chars. rewrite of_to_str.
  apply strip_safe. unfold safe. apply list.Forall_forall.
  intros c Hc. now apply list_elem_of_filter in Hc as [Hc _].
Qed.

Lemma safe_no_slash s : safe s -> existsb (is_char SLASH) s = false.
Proof.
  unfold safe. induction 1 as [|c s Hc _ IH]; [reflexivity|].
  simpl. rewrite IH, orb_false_r.
  destruct (is_char SLASH c) eqn:E; [|reflexivity].
  apply Ascii.eqb_eq in E. subst c. discriminate Hc.
Qed.

(** **** Paths under a folder *)

Lemma after_last_app d before s :
  existsb (is_char d) s = false ->
  after_last d (before ++ d :: s)%list = s.
Proof.
  intros Hs. induction before as [|c before IH]; simpl.
  - rewrite Hs. unfold is_char. now rewrite Ascii.eqb_refl.
  - rewrite existsb_app. simpl. unfold is_char at 2. rewrite Ascii.eqb_refl.
    rewrite orb_true_r. exact IH.
Qed.

Lemma path_join_outputs name :
  existsb (is_char SLASH) (of_str name) = false ->
  path_join OUTPUT_FOLDER name = "outputs/" ++ name
  /\ path_basename (path_join OUTPUT_FOLDER name) = name.
Proof.
  intros Hname.
  assert (E : path_join OUTPUT_FOLDER name = "outputs/" ++ name).
  { unfold path_join.
    destruct (of_str name) as [|c cs] eqn:En; [reflexivity|].
    simpl in Hname. apply orb_false_elim in Hname as [Hc _].
    simpl. rewrite Hc. reflexivity. }
  split; [exact E|]. rewrite E. unfold path_basename.
  change ("outputs/" ++ name) with ("outputs" ++ String SLASH name).
  rewrite of_str_app. cbn [of_str list_ascii_of_string]. fold (of_str name).
  rewrite after_last_app by exact Hname. apply to_of_str.
Qed.

Lemma base_name_plus_ext_no_slash data ext :
  safe (of_str ext) ->
  existsb (is_char SLASH) (of_str (base_name data ++ ext)) = false.
Proof.
  intros Hext. apply safe_no_slash. rewrite of_str_app. apply Forall_app.
  split; [apply secure_filename_safe | exact Hext].
Qed.

Lemma output_paths data :
  docx_path data = "outputs/" ++ base_name data ++ ".docx"
  /\ pdf_path data = "outputs/" ++ base_name data ++ ".pdf"
  /\ path_basename (docx_path data) = base_name data ++ ".docx"
  /\ path_basename (pdf_path data) = base_name data ++ ".pdf".
Proof.
  assert (Hd : safe (of_str ".docx")) by (repeat constructor).
  assert (Hp : safe (of_str ".pdf")) by (repeat constructor).
  pose proof (path_join_outputs _ (base_name_plus_ext_no_slash data _ Hd)) as [D1 D2].
  pose proof (path_join_outputs _ (base_name_plus_ext_no_slash data _ Hp)) as [P1 P2].
  repeat split; assumption.
Qed.

(** **** What [secure_filename] leaves as it is *)

Lemma lstrip_head p s : head_is p (lstrip p s) = false.
Proof.
  induction s as [|c s IH]; [reflexivity|]. cbn [lstrip].
  destruct (p c) eqn:E; [exact IH | simpl; exact E].
Qed.

Lemma lstrip_id p s : head_is p s = false -> lstrip p s = s.
Proof. destruct s as [|c s]; [reflexivity|]. simpl. now intros ->. Qed.

Lemma lstrip_suffix p s : exists t, s = (t ++ lstrip p s)%list.
Proof.
  induction s as [|c s [t IH]]; [now exists []|]. cbn [lstrip].
  destruct (p c); [|now exists []]. exists (c :: t). simpl. now rewrite <- IH.
Qed.

Lemma rstrip_last p s : head_is p (rev (rstrip p s)) = false.
Proof. unfold rstrip. rewrite rev_involutive. apply lstrip_head. Qed.

Lemma rstrip_id p s : head_is p (rev s) = false -> rstrip p s = s.
Proof. intros H. unfold rstrip. rewrite lstrip_id by exact H. apply rev_involutive. Qed.

Lemma rstrip_prefix p s : exists t, s = (rstrip p s ++ t)%list.
Proof.
  unfold rstrip. destruct (lstrip_suffix p (rev s)) as [t Ht].
  exists (rev t). rewrite <- rev_app_distr, <- Ht. now rewrite rev_involutive.
Qed.

Lemma rstrip_head p s : head_is p s = false -> head_is p (rstrip p s) = false.
Proof.
  intros H. destruct (rstrip_prefix p s) as [t Ht].
  destruct (rstrip p s) as [|c r]; [reflexivity|]. rewrite Ht in H. exact H.
Qed.

Lemma strip_ends p s :
  head_is p (strip p s) = false /\ head_is p (rev (strip p s)) = false.
Proof.
  unfold strip. split; [apply rstrip_head, lstrip_head | apply rstrip_last].
Qed.

Lemma strip_id p s :
  head_is p s = false -> head_is p (rev s) = false -> strip p s = s.
Proof. intros H1 H2. unfold strip. rewrite (lstrip_id p s H1). now apply rstrip_id. Qed.

Lemma safe_char c :
  is_safe c = true ->
  is_ascii c = true /\ isspace c = false /\ is_char SLASH c = false.
Proof.
  destruct c as [[] [] [] [] [] [] [] []]; intros H; try discriminate H;
    repeat split; reflexivity.
Qed.

Lemma filter_all {A} (P : A -> bool) (l : list A) :
  Forall (fun x => P x = true) l -> filter (fun x => P x = true) l = l.
Proof.
  induction 1 as [|x l Hx _ IH]; [reflexivity|].
  now rewrite filter_cons, decide_True, IH by exact Hx.
Qed.

Lemma nfkd_ascii_id s :
  Forall (fun c => is_ascii c = true) s -> flat_map nfkd_ascii s = s.
Proof.
  induction 1 as [|c s Hc _ IH]; [reflexivity|].
  cbn [flat_map]. unfold nfkd_ascii at 1. now rewrite Hc, IH.
Qed.

Lemma split_ws_no_space s : forall cur,
  Forall (fun c => isspace c = false) s ->
  split_ws cur s = if nonempty (cur ++ s)%list then [(cur ++ s)%list] else [].
Proof.
  induction s as [|c s IH]; intros cur H.
  - cbn [split_ws]. rewrite app_nil_r. reflexivity.
  - inversion H as [|? ? Hc Hs]; subst. cbn [split_ws]. rewrite Hc, (IH _ Hs).
    now rewrite <- app_assoc.
Qed.

Lemma secure_filename_chars_fixed y :
  safe y ->
  head_is is_dot_or_underscore y = false ->
  head_is is_dot_or_underscore (rev y) = false ->
  secure_filename_chars y = y.
Proof.
  intros Hsafe Hh Hl. unfold secure_filename_chars, pystr in *.
  assert (Ha : Forall (fun c => is_ascii c = true) y).
  { eapply Forall_impl; [exact Hsafe|]. intros c Hc. now apply safe_char in Hc. }
  rewrite (nfkd_ascii_id y Ha).
  assert (Hm : map (fun c => if is_char SLASH c then SPACE else c) y = y).
  { clear - Hsafe. induction Hsafe as [|c l Hc _ IH]; [reflexivity|].
    cbn [map]. apply safe_char in Hc as (_ & _ & ->). now rewrite IH. }
  rewrite Hm.
  assert (Hs : Forall (fun c => isspace c = false) y).
  { eapply Forall_impl; [exact Hsafe|]. intros c Hc. now apply safe_char in Hc. }
  rewrite (split_ws_no_space y [] Hs). cbn [app].
  assert (Hj : join ["_"%char] (if nonempty y then [y] else []) = y) by now destruct y.
  rewrite Hj, (filter_all is_safe y Hsafe). now apply strip_id.
Qed.

(** **** Where an upload is saved *)

Lemma upload_path_eq f :
  upload_path f = "uploads/" ++ secure_filename (filename f).
Proof.
  unfold upload_path, path_join.
  pose proof (safe_no_slash _ (secure_filename_safe (filename f))) as Hns.
  destruct (of_str (secure_filename (filename f))) as [|c cs] eqn:E.
  - apply (f_equal to_str) in E. rewrite to_of_str in E. rewrite E. reflexivity.
  - cbn [existsb] in Hns. apply orb_false_elim in Hns as [Hc _].
    cbn [starts_with_slash]. rewrite Hc. reflexivity.
Qed.

End NameFacts.

(** * Properties of the word-processor builder *)

Module DocxFacts.
Import Docx Observe Basics NameFacts.

Lemma add_photo_even fs blocks row_cells i p :
  (i mod 2 = 0)%nat ->
  add_photo fs (blocks, row_cells) i p
  = (blocks ++ Table TableDefault [[photo_cell fs p; []]] :: photo_notice fs p,
     Some (length blocks)).
Proof.
  intros Hi. unfold add_photo, photo_cell, photo_notice. rewrite Hi. cbn [Nat.eqb].
  rewrite !alter_middle.
  destruct (picture_ok fs p); cbn; rewrite <- ?app_assoc; reflexivity.
Qed.

Lemma add_photo_odd fs blocks c0 below i q :
  (i mod 2 = 1)%nat ->
  add_photo fs (blocks ++ Table TableDefault [[c0; []]] :: below, Some (length blocks)) i q
  = (blocks ++ Table TableDefault [[c0; photo_cell fs q]] :: below ++ photo_notice fs q,
     Some (length blocks)).
Proof.
  intros Hi. unfold add_photo, photo_cell, photo_notice. rewrite Hi. cbn [Nat.eqb].
  rewrite !alter_middle.
  destruct (picture_ok fs q); cbn; rewrite <- ?app_assoc, ?app_nil_r; reflexivity.
Qed.

(** The loop over the photos, with its [row_cells] alias into the body,
    builds the grid of [photo_rows] after the blocks already there. *)
Lemma add_photos_rows fs photo_paths : forall blocks i row_cells,
  (i mod 2 = 0)%nat ->
  fst (add_photos fs i photo_paths (blocks, row_cells))
  = blocks ++ photo_rows fs photo_paths.
Proof.
  induction photo_paths as [|p|p q rest IH] using pair_ind;
    intros blocks i row_cells Hi.
  - simpl. now rewrite app_nil_r.
  - cbn [add_photos photo_rows]. now rewrite add_photo_even.
  - cbn [add_photos photo_rows].
    assert (Hi1 : (S i mod 2 = 1)%nat) by (rewrite succ_mod2, Hi; reflexivity).
    assert (Hi2 : (S (S i) mod 2 = 0)%nat) by (rewrite succ_mod2, Hi1; reflexivity).
    rewrite add_photo_even, add_photo_odd by assumption.
    rewrite (IH _ _ _ Hi2). rewrite <- !app_assoc. cbn. now rewrite <- !app_assoc.
Qed.

(** The body of the document, page by page. *)
Lemma docx_body fs data invitation_path photo_paths :
  body (docx_document fs data invitation_path photo_paths)
  = circular_page fs data invitation_path ++ [PageBreak]
    ++ report_page data ++ [PageBreak]
    ++ Paragraph "Event Photographs" Heading1
       :: match photo_paths with
          | [] => [no_photos_notice]
          | _ :: _ => photo_rows fs photo_paths
          end.
Proof.
  unfold docx_document, photo_page. cbn [body].
  destruct photo_paths as [|p rest].
  - rewrite <- !app_assoc. reflexivity.
  - rewrite add_photos_rows by reflexivity. rewrite <- !app_assoc. reflexivity.
Qed.

Lemma last_docx_page_app before after :
  existsb is_page_break after = false ->
  last_docx_page (before ++ PageBreak :: after) = after.
Proof.
  intros Hafter. induction before as [|b before IH]; simpl.
  - now rewrite Hafter.
  - rewrite existsb_app. simpl. rewrite orb_true_r. exact IH.
Qed.

(** **** What [build_docx] raises and what it saves *)

Lemma build_docx_spec path data invitation_path photo_paths w :
  App.build_docx path data invitation_path photo_paths w
  = (let doc := docx_document (files w) data invitation_path photo_paths in
     if forallb xml_compatible (docx_text doc) then
       match write_error w path with
       | Some e => (App.Raise e, w)
       | None =>
           (App.Ok path,
            {| files := <[path := DocxFile doc]> (files w);
               write_error := write_error w;
               flashes := flashes w |})
       end
     else (App.Raise App.XML_ERROR, w)).
Proof.
  unfold App.build_docx, App.read_files, App.write_file, App.raise, mbind,
    App.M_bind, mret, App.M_ret. cbv zeta.
  destruct (forallb xml_compatible
              (docx_text (docx_document (files w) data invitation_path photo_paths)));
    [|reflexivity].
  now destruct (write_error w path).
Qed.

Lemma xml_compatible_app (s t : string) :
  xml_compatible (s ++ t) = xml_compatible s && xml_compatible t.
Proof. unfold xml_compatible. now rewrite of_str_app, forallb_app. Qed.

Lemma safe_xml_compatible (s : string) : safe (of_str s) -> xml_compatible s = true.
Proof.
  unfold xml_compatible, safe. intros H. apply forallb_forall.
  intros c Hc. apply list_elem_of_In in Hc.
  rewrite list.Forall_forall in H. specialize (H c Hc). revert H. clear.
  destruct c as [[] [] [] [] [] [] [] []]; intros H; try discriminate H; reflexivity.
Qed.

Lemma upload_basename f :
  Os.path_basename (upload_path f) = Werkzeug.secure_filename (App.filename f).
Proof.
  rewrite upload_path_eq. unfold Os.path_basename.
  change ("uploads/" ++ Werkzeug.secure_filename (App.filename f))%string
    with ("uploads" ++ String Os.SLASH (Werkzeug.secure_filename (App.filename f)))%string.
  rewrite of_str_app. cbn [of_str list_ascii_of_string].
  fold (of_str (Werkzeug.secure_filename (App.filename f))).
  rewrite after_last_app by apply safe_no_slash, secure_filename_safe.
  apply to_of_str.
Qed.

Lemma upload_name_compatible f :
  xml_compatible (Os.path_basename (upload_path f)) = true.
Proof. rewrite upload_basename. apply safe_xml_compatible, secure_filename_safe. Qed.

(** The texts of the photo grid are those of the notices. *)
Lemma photo_rows_compatible fs photo_paths :
  forallb xml_compatible (map Os.path_basename photo_paths) = true ->
  forallb xml_compatible (flat_map block_text (photo_rows fs photo_paths)) = true.
Proof.
  assert (Hc : forall p, flat_map run_text (photo_cell fs p) = []).
  { intros p. unfold photo_cell. now destruct (picture_ok fs p). }
  assert (Hn : forall p,
    xml_compatible (Os.path_basename p) = true ->
    forallb xml_compatible (flat_map block_text (photo_notice fs p)) = true).
  { intros p Hp. unfold photo_notice. destruct (picture_ok fs p); [reflexivity|].
    cbn [flat_map block_text unable_notice app forallb].
    now rewrite !xml_compatible_app, Hp. }
  induction photo_paths as [|p|p q rest IH] using pair_ind; intros H.
  - reflexivity.
  - cbn [map forallb] in H. apply andb_prop in H as [Hp _].
    cbn [photo_rows flat_map block_text]. rewrite Hc. cbn [app flat_map].
    now apply Hn.
  - cbn [map forallb] in H. apply andb_prop in H as [Hp H].
    apply andb_prop in H as [Hq H].
    cbn [photo_rows flat_map block_text]. rewrite !Hc. cbn [app flat_map].
    rewrite !flat_map_app, !forallb_app, (Hn p Hp), (Hn q Hq), (IH H). reflexivity.
Qed.

Lemma photos_do_not_abort fs data invitation_path photo_paths :
  forallb xml_compatible (map Os.path_basename photo_paths) = true ->
  forallb xml_compatible (docx_text (docx_document fs data invitation_path photo_paths))
  = forallb xml_compatible (docx_text (docx_document fs data invitation_path [])).
Proof.
  intros H. unfold docx_text. rewrite !docx_body. cbn [header docx_document].
  rewrite !flat_map_app, !forallb_app. do 5 f_equal.
  destruct photo_paths as [|p rest]; [reflexivity|].
  cbn [flat_map block_text app forallb].
  rewrite (photo_rows_compatible fs (p :: rest) H). reflexivity.
Qed.

(** An invitation that cannot be added leaves a paragraph without text. *)
Lemma fallback_texts fs data invitation_path photo_paths :
  (forall p, path_given invitation_path = Some p -> picture_ok fs p = false) ->
  docx_text (docx_document fs data invitation_path photo_paths)
  = docx_text (docx_document fs data None photo_paths).
Proof.
  intros Hbad. unfold docx_text. rewrite !docx_body. cbn [header docx_document].
  f_equal. rewrite !flat_map_app. f_equal.
  unfold circular_page, invitation_block. cbn [path_given].
  destruct (path_given invitation_path) as [p|] eqn:Hp; [|reflexivity].
  rewrite (Hbad p eq_refl). reflexivity.
Qed.

Lemma photo_rows_notices fs photo_paths :
  filter (fun b => is_table b = false) (photo_rows fs photo_paths)
  = unable_notice <$> filter (fun p => picture_ok fs p = false) photo_paths.
Proof.
  assert (Hn : forall p,
    filter (fun b => is_table b = false) (photo_notice fs p)
    = unable_notice <$> filter (fun q => picture_ok fs q = false) [p]).
  { intros p. unfold photo_notice. rewrite filter_cons, filter_nil.
    destruct (picture_ok fs p) eqn:E; rewrite ?decide_True, ?decide_False by congruence;
      reflexivity. }
  induction photo_paths as [|p|p q rest IH] using pair_ind.
  - reflexivity.
  - cbn [photo_rows]. rewrite filter_cons, decide_False by (simpl; congruence).
    apply Hn.
  - cbn [photo_rows]. rewrite filter_cons, decide_False by (simpl; congruence).
    rewrite !filter_app, !Hn, IH.
    change (p :: q :: rest) with ([p] ++ [q] ++ rest).
    now rewrite !filter_app, !fmap_app.
Qed.

Lemma photo_rows_table_text fs photo_paths :
  flat_map table_text (photo_rows fs photo_paths) = [].
Proof.
  assert (Hc : forall p, flat_map run_text (photo_cell fs p) = []).
  { intros p. unfold photo_cell. now destruct (picture_ok fs p). }
  assert (Hn : forall p, flat_map table_text (photo_notice fs p) = []).
  { intros p. unfold photo_notice. now destruct (picture_ok fs p). }
  induction photo_paths as [|p|p q rest IH] using pair_ind.
  - reflexivity.
  - cbn [photo_rows flat_map table_text block_text]. rewrite Hc, Hn. reflexivity.
  - cbn [photo_rows flat_map table_text block_text].
    rewrite !flat_map_app, !Hc, !Hn, IH. reflexivity.
Qed.

(** C4 (as amended): with no photos the last page of the word-processor
    document is the heading and one "No photos uploaded." paragraph, with no
    table; the last page of the PDF is the header and the title "Event
    Photographs" and nothing else: the PDF builder draws no image there and
    has no no-photos notice. *)
Theorem zero_photos_pages
    (fs : gmap string file) (data : EventRecord) (invitation_path : option string) :
  last_docx_page (body (docx_document fs data invitation_path []))
    = [Paragraph "Event Photographs" Heading1; Paragraph "No photos uploaded." Normal]
  /\ last_page (Pdf.pdf_canvas fs data invitation_path [])
    = Pdf.draw_header fs
      ++ [ SetFont "Helvetica-Bold" 13;
           DrawCentredString (Pdf.w / 2)%Q (Pdf.h - 120)%Q "Event Photographs" ]
  /\ pdf_text (last_page (Pdf.pdf_canvas fs data invitation_path []))
    = ["SURYA ENGINEERING COLLEGE, ERODE"; "Event Photographs"]%string.
Proof.
  split.
  { rewrite docx_body.
    transitivity
      (last_docx_page
         ((circular_page fs data invitation_path ++ [PageBreak] ++ report_page data)
          ++ PageBreak :: [Paragraph "Event Photographs" Heading1; no_photos_notice])).
    - f_equal; rewrite <- ?app_assoc; reflexivity.
    - now apply last_docx_page_app. }
  assert (E : last_page (Pdf.pdf_canvas fs data invitation_path [])
    = Pdf.draw_header fs
      ++ [ SetFont "Helvetica-Bold" 13;
           DrawCentredString (Pdf.w / 2)%Q (Pdf.h - 120)%Q "Event Photographs" ]).
  { unfold Pdf.pdf_canvas, Pdf.report_page.
    destruct (Pdf.report_sections (Pdf.draw_header fs) data (Pdf.h - 170)%Q) as [ops y].
    unfold Pdf.photo_page. cbn [Pdf.photo_loop fst]. rewrite app_nil_r.
    apply (PdfFacts.last_page_app_2 _
             (Pdf.circular_page fs data invitation_path
              ++ Pdf.draw_header fs
              ++ [ SetFont "Helvetica-Bold" 13;
                   DrawCentredString (Pdf.w / 2)%Q (Pdf.h - 120)%Q
                     ("DEPARTMENT OF " ++ department data);
                   SetFont "Helvetica-Bold" 12;
                   DrawCentredString (Pdf.w / 2)%Q (Pdf.h - 140)%Q "REPORT OF THE EVENT";
                   SetFont "Helvetica" 10 ]
              ++ ops
              ++ [ SetFont "Helvetica" 10; DrawString 50 100 "HoD";
                   DrawRightString (Pdf.w - 50)%Q 100 "PRINCIPAL" ])).
    - rewrite <- !app_assoc. reflexivity.
    - apply PdfFacts.header_no_show_page.
    - reflexivity. }
  split; [exact E|]. rewrite E. unfold pdf_text. rewrite omap_app.
  fold (pdf_text (Pdf.draw_header fs)). now rewrite PdfFacts.pdf_text_header.
Qed.

(** C4 (as stated) fails for the PDF: in the scenario of the specification
    (title "Robotics Workshop", no photos) no string drawn on the PDF is the
    no-photos notice. *)
Lemma pdf_has_no_photos_notice :
  ~ In "No photos uploaded."%string
      (pdf_text (Pdf.pdf_canvas ∅ Scenario.robotics None [])).
Proof.
  intros H. vm_compute in H.
  repeat (destruct H as [H|H]; [discriminate H|]). exact H.
Qed.

(** C5 (as amended): the photo page is the heading followed by the grid of
    [photo_rows]: photo number [i] goes to cell [i mod 2] of table [i / 2]
    whether or not other photos fail; a photo that cannot be added leaves an
    empty run in its cell and is reported by a paragraph that names the file,
    placed in the body below that row's table, not in the cell; the
    paragraphs that are not tables are exactly these notices, in photo order,
    and no table cell holds text.  The build does not abort for such a
    photo: when the file names of the photos are names XML can hold, the
    build ends as it does with no photo at all (it returns, or raises what
    the texts of the record or saving make it raise); and the file names
    [save_file] gives to uploads are such names. *)
Theorem docx_photo_grid
    (fs : gmap string file) (blocks : list block) (photo_paths : list string) :
  photo_page fs blocks photo_paths
    = blocks ++ Paragraph "Event Photographs" Heading1
      :: match photo_paths with
         | [] => [no_photos_notice]
         | _ :: _ => photo_rows fs photo_paths
         end
  /\ filter (fun b => is_table b = false) (photo_rows fs photo_paths)
    = unable_notice <$> filter (fun p => picture_ok fs p = false) photo_paths
  /\ flat_map table_text (photo_rows fs photo_paths) = []
  /\ (forallb xml_compatible (map Os.path_basename photo_paths) = true ->
      forall (path : string) (data : EventRecord) (invitation_path : option string)
             (w : world),
        fst (App.build_docx path data invitation_path photo_paths w)
        = fst (App.build_docx path data invitation_path [] w))
  /\ forall f : App.FileStorage,
      xml_compatible (Os.path_basename (upload_path f)) = true.
Proof.
  split.
  { unfold photo_page. destruct photo_paths as [|p rest].
    - now rewrite <- app_assoc.
    - rewrite add_photos_rows by reflexivity. now rewrite <- app_assoc. }
  split; [apply photo_rows_notices|].
  split; [apply photo_rows_table_text|].
  split; [|apply upload_name_compatible].
  intros Hnames path data invitation_path w. rewrite !build_docx_spec. cbv zeta.
  rewrite (photos_do_not_abort _ _ _ _ Hnames).
  destruct (forallb xml_compatible
              (docx_text (docx_document (files w) data invitation_path [])));
    [|reflexivity].
  now destruct (write_error w path).
Qed.

Lemma docx_photo_grid_witness :
  fst (App.build_docx "outputs/Robotics_Workshop.docx" Scenario.robotics None
         ["uploads/bad.png"%string] (Scenario.quiet ∅))
  = fst (App.build_docx "outputs/Robotics_Workshop.docx" Scenario.robotics None []
           (Scenario.quiet ∅)).
Proof.
  destruct (docx_photo_grid ∅ [] ["uploads/bad.png"%string]) as (_ & _ & _ & H & _).
  apply H. reflexivity.
Defined.

(** C5 (as stated) fails: for one photo that cannot be added, its cell holds
    an empty run and no text; the notice is a paragraph of the body after the
    table. *)
Lemma photo_notice_is_not_in_cell :
  photo_page ∅ [] ["uploads/bad.png"%string]
  = [ Paragraph "Event Photographs" Heading1;
      Table TableDefault [[[EmptyRun]; []]];
      Paragraph "(Unable to add image: bad.png)" Normal ]
  /\ flat_map table_text (photo_page ∅ [] ["uploads/bad.png"%string]) = [].
Proof. split; vm_compute; reflexivity. Qed.

(** C6 (as amended): an invitation image that cannot be added does not
    abort the build by itself.  The failed [doc.add_picture] leaves an empty
    paragraph, and the paragraph after it holds [circular_text] as it is;
    with no invitation image the paragraph with [circular_text] stands in
    the same place, right after the CIRCULAR heading.  The rest of the
    document and its texts are those of the document built without an
    invitation, and the build ends as that build does: it saves this
    document, or raises what that build raises, which is the [ValueError] for
    a text XML cannot hold, [circular_text] among them, or what saving
    raises. *)
Theorem undecodable_invitation_falls_back
    (fs : gmap string file) (data : EventRecord) (invitation_path : option string)
    (photo_paths : list string) :
  (forall p, path_given invitation_path = Some p -> picture_ok fs p = false) ->
  let fallback := Paragraph (circular_text data) Normal in
  let left_behind :=
    match path_given invitation_path with
    | Some _ => [RunParagraph [EmptyRun]]
    | None => []
    end in
  let doc := docx_document fs data invitation_path photo_paths in
  let plain := docx_document fs data None photo_paths in
  invitation_block fs data invitation_path = left_behind ++ [fallback]
  /\ take (4 + length left_behind) (body doc)
    = [ Paragraph EmptyString Normal;
        RunParagraph
          [Text ("Ref: " ++ ref_no data ++ T ++ T ++ T ++ "Date: " ++ date_ref data ++ NL)
             true];
        Paragraph (NL ++ "CIRCULAR" ++ NL) IntenseQuote ]
      ++ left_behind ++ [fallback]
  /\ body doc = take 3 (body plain) ++ left_behind ++ drop 3 (body plain)
  /\ header doc = header plain
  /\ docx_text doc = docx_text plain
  /\ forall (path : string) (w : world),
      files w = fs ->
      App.build_docx path data invitation_path photo_paths w
      = (if forallb xml_compatible (docx_text plain) then
           match write_error w path with
           | Some e => (App.Raise e, w)
           | None =>
               (App.Ok path,
                {| files := <[path := DocxFile doc]> fs;
                   write_error := write_error w;
                   flashes := flashes w |})
           end
         else (App.Raise App.XML_ERROR, w))
      /\ fst (App.build_docx path data invitation_path photo_paths w)
        = fst (App.build_docx path data None photo_paths w).
Proof.
  intros Hbad. cbv zeta.
  assert (E : invitation_block fs data invitation_path
              = match path_given invitation_path with
                | Some _ => [RunParagraph [EmptyRun]]
                | None => []
                end ++ [Paragraph (circular_text data) Normal]).
  { unfold invitation_block. destruct (path_given invitation_path) as [p|] eqn:Hp;
      [|reflexivity]. now rewrite (Hbad p eq_refl). }
  pose proof (fallback_texts fs data invitation_path photo_paths Hbad) as Etext.
  split; [exact E|]. split.
  { rewrite docx_body. unfold circular_page. rewrite E.
    destruct (path_given invitation_path); reflexivity. }
  split.
  { rewrite !docx_body. unfold circular_page. rewrite E.
    destruct (path_given invitation_path); reflexivity. }
  split; [reflexivity|]. split; [exact Etext|].
  intros path w Hfs. subst fs. rewrite !build_docx_spec. cbv zeta. rewrite Etext.
  split; [reflexivity|].
  destruct (forallb xml_compatible (docx_text (docx_document (files w) data None photo_paths)));
    [|reflexivity].
  now destruct (write_error w path).
Qed.

Lemma undecodable_invitation_falls_back_witness :
  body (docx_document Scenario.fs_broken Scenario.robotics (Some Scenario.photo) [])
    !! 3%nat = Some (RunParagraph [EmptyRun])
  /\ body (docx_document Scenario.fs_broken Scenario.robotics (Some Scenario.photo) [])
    !! 4%nat = Some (Paragraph "All are invited." Normal)
  /\ fst (App.build_docx "outputs/Robotics_Workshop.docx" Scenario.robotics
            (Some Scenario.photo) [] (Scenario.quiet Scenario.fs_broken))
    = App.Ok "outputs/Robotics_Workshop.docx"%string.
Proof.
  destruct (undecodable_invitation_falls_back Scenario.fs_broken Scenario.robotics
              (Some Scenario.photo) [])
    as (_ & Htake & _ & _ & _ & Hbuild).
  { intros p Hp. injection Hp as <-. reflexivity. }
  destruct (Hbuild "outputs/Robotics_Workshop.docx"%string
              (Scenario.quiet Scenario.fs_broken) eq_refl) as [_ Hfst].
  split; [|split].
  - apply (f_equal (fun l => l !! 3%nat)) in Htake.
    rewrite lookup_take_lt in Htake by (cbn; lia). exact Htake.
  - apply (f_equal (fun l => l !! 4%nat)) in Htake.
    rewrite lookup_take_lt in Htake by (cbn; lia). exact Htake.
  - rewrite Hfst. reflexivity.
Defined.

(** C6 (as stated) fails: with an invitation file that is no image and a
    circular text that ends with a form feed, the build aborts with the
    [ValueError] of the text, with nothing wrong in saving; with the same
    record and an invitation that is an image, where the text is not used,
    it returns. *)
Lemma undecodable_invitation_can_abort :
  fst (App.build_docx "outputs/Robotics_Workshop.docx" Scenario.form_feed_circular
         (Some Scenario.photo) [] (Scenario.quiet Scenario.fs_broken))
    = App.Raise App.XML_ERROR
  /\ fst (App.build_docx "outputs/Robotics_Workshop.docx" Scenario.form_feed_circular
            (Some Scenario.photo) [] (Scenario.quiet Scenario.fs_square))
    = App.Ok "outputs/Robotics_Workshop.docx"%string.
Proof. split; vm_compute; reflexivity. Qed.

End DocxFacts.

(** * Properties of file names and of the routes *)

Module AppFacts.
Import Textwrap Werkzeug Os App Observe Basics NameFacts.
Local Open Scope string_scope.

(** **** The base name of the artifacts *)

Lemma head_underscored t :
  head_is is_edge t = false -> head_is is_dot_or_underscore (underscored t) = false.
Proof.
  destruct t as [|c t]; [reflexivity|]. cbn [head_is underscored map].
  unfold is_edge. intros H. apply orb_false_elim in H as [Hd Hs]. now rewrite Hs.
Qed.

Lemma plain_title_base_name data :
  plain_title (title data) ->
  of_str (base_name data) = underscored (of_str (title data)).
Proof.
  intros (Hne & Hchars & Hh & Hl). unfold base_name.
  assert (Ht : truthy (title data) = true).
  { unfold truthy. destruct (String.eqb_spec (title data) EmptyString);
      [contradiction | reflexivity]. }
  rewrite Ht. unfold secure_filename, replace_spaces. rewrite !of_to_str.
  fold (underscored (of_str (title data))).
  apply secure_filename_chars_fixed.
  - unfold safe, underscored. apply Forall_map.
    eapply Forall_impl; [exact Hchars|]. intros c Hc. simpl in *.
    destruct (is_char SPACE c); [reflexivity|]. now rewrite orb_false_r in Hc.
  - now apply head_underscored.
  - unfold underscored. rewrite <- map_rev. now apply head_underscored.
Qed.

(** C9 (as stated) fails for a blank title: a title of three spaces is not
    the empty string, so the default name is not used; the spaces become
    underscores, which [secure_filename] strips, and the base name is the
    empty string: the artifacts are [outputs/.docx] and [outputs/.pdf]. *)
Lemma spaces_title_has_empty_base_name :
  title Scenario.spaces_title = "   "
  /\ base_name Scenario.spaces_title = EmptyString
  /\ base_name Scenario.spaces_title <> "event"
  /\ docx_path Scenario.spaces_title = "outputs/.docx"
  /\ pdf_path Scenario.spaces_title = "outputs/.pdf".
Proof. repeat split; try (vm_compute; reflexivity). vm_compute. discriminate. Qed.

(** C9 (as amended): the base name of the two artifacts is [secure_filename]
    of the title with each space replaced by an underscore, and "event" when
    the title is the empty string (and only then).  For a title of letters,
    digits, hyphens, dots, underscores and spaces that neither begins nor
    ends with a space, a dot or an underscore, it is the title with each
    space replaced by an underscore.  In every case it has only letters,
    digits, [_], [.] and [-], and neither begins nor ends with a dot or an
    underscore; the artifacts are [outputs/<base>.docx] and
    [outputs/<base>.pdf], and these are the names the preview is given.  The
    title "Robotics Workshop" gives [Robotics_Workshop], and an accented
    letter keeps its base letter. *)
Theorem artifact_names (data : EventRecord) :
  (title data = EmptyString -> base_name data = "event")
  /\ (plain_title (title data) ->
      of_str (base_name data) = underscored (of_str (title data)))
  /\ Forall (fun c => is_safe c = true) (of_str (base_name data))
  /\ head_is is_dot_or_underscore (of_str (base_name data)) = false
  /\ head_is is_dot_or_underscore (rev (of_str (base_name data))) = false
  /\ docx_path data = "outputs/" ++ base_name data ++ ".docx"
  /\ pdf_path data = "outputs/" ++ base_name data ++ ".pdf"
  /\ path_basename (docx_path data) = base_name data ++ ".docx"
  /\ path_basename (pdf_path data) = base_name data ++ ".pdf"
  /\ base_name Scenario.blank = "event"
  /\ base_name Scenario.robotics = "Robotics_Workshop"
  /\ docx_path Scenario.robotics = "outputs/Robotics_Workshop.docx"
  /\ pdf_path Scenario.robotics = "outputs/Robotics_Workshop.pdf"
  /\ base_name Scenario.accented_title = "Cafe_Workshop".
Proof.
  split; [intros E; unfold base_name; rewrite E; vm_compute; reflexivity|].
  split; [apply plain_title_base_name|].
  split; [apply secure_filename_safe|].
  assert (Hends : head_is is_dot_or_underscore (of_str (base_name data)) = false
                  /\ head_is is_dot_or_underscore (rev (of_str (base_name data))) = false).
  { unfold base_name, secure_filename, secure_filename_chars. rewrite of_to_str.
    apply strip_ends. }
  destruct Hends as [Hh Hl]. split; [exact Hh|]. split; [exact Hl|].
  destruct (output_paths data) as (D1 & P1 & D2 & P2).
  repeat split; try assumption; vm_compute; reflexivity.
Qed.

Lemma artifact_names_witness :
  base_name Scenario.two_spaces_title = "Robotics__Workshop_-_2024".
Proof.
  destruct (artifact_names Scenario.two_spaces_title) as (_ & H & _).
  apply of_str_inj. rewrite H; [reflexivity|].
  split; [discriminate|]. split; [|split; reflexivity].
  repeat constructor.
Defined.



(** **** The upload phase of [generate] *)

Lemma upload_phase_refl w : upload_phase w w.
Proof. repeat split. intros path. now left. Qed.

Lemma upload_phase_trans w1 w2 w3 :
  upload_phase w1 w2 -> upload_phase w2 w3 -> upload_phase w1 w3.
Proof.
  intros (E1 & F1 & U1) (E2 & F2 & U2). repeat split; [congruence..|].
  intros path. destruct (U2 path) as [H|H]; [rewrite H; apply U1 | now right].
Qed.

Lemma save_file_ok f w :
  write_error w (upload_path f) = None ->
  exists r w', save_file (Some f) w = (Ok r, w') /\ upload_phase w w'.
Proof.
  intros Hw. unfold save_file. destruct (negb (truthy (filename f))).
  - eexists _, w. split; [reflexivity | apply upload_phase_refl].
  - unfold mbind, M_bind, write_file. fold (upload_path f). rewrite Hw.
    eexists _, _. split; [reflexivity|]. repeat split. intros path. cbn [files].
    destruct (decide (upload_path f = path)) as [<-|Hne].
    + right. rewrite lookup_insert_eq. eauto.
    + left. now rewrite lookup_insert_ne.
Qed.

Lemma save_photos_ok photos : forall w photo_paths,
  Forall (fun f => write_error w (upload_path f) = None) photos ->
  exists r w', save_photos photos photo_paths w = (Ok r, w') /\ upload_phase w w'.
Proof.
  induction photos as [|f photos IH]; intros w photo_paths Hall.
  - eexists _, w. split; [reflexivity | apply upload_phase_refl].
  - inversion Hall as [|? ? Hf Hrest]; subst. cbn [save_photos].
    destruct (truthy (filename f) && allowed_file (filename f)).
    + destruct (save_file_ok f w Hf) as (r1 & w1 & E1 & P1).
      unfold mbind at 1, M_bind at 1. rewrite E1.
      destruct (IH w1 (photo_paths ++ option_list r1)%list) as (r2 & w2 & E2 & P2).
      { destruct P1 as (Ew & _). eapply Forall_impl; [exact Hrest|].
        intros g Hg. simpl. now rewrite Ew. }
      exists r2, w2. split; [exact E2 | eapply upload_phase_trans; eassumption].
    + now apply IH.
Qed.

Lemma generate_uploads req w :
  Forall (fun f => write_error w (upload_path f) = None) (uploads req) ->
  exists invitation_path photo_paths w2,
    upload_phase w w2
    /\ save_uploads req w = (Ok (invitation_path, photo_paths), w2)
    /\ generate req w = build_phase (form req) invitation_path photo_paths w2.
Proof.
  unfold uploads. intros Hall. apply Forall_app in Hall as [Hinv Hphotos].
  unfold generate, save_uploads.
  assert (H1 : exists r1 w1,
    (match invitation req with
     | Some f =>
         if truthy (filename f) && allowed_file (filename f)
         then save_file (Some f) else mret None
     | None => mret None
     end) w = (Ok r1, w1) /\ upload_phase w w1).
  { destruct (invitation req) as [f|].
    - destruct (truthy (filename f) && allowed_file (filename f)).
      + apply save_file_ok. now inversion Hinv.
      + eexists _, w. split; [reflexivity | apply upload_phase_refl].
    - eexists _, w. split; [reflexivity | apply upload_phase_refl]. }
  destruct H1 as (r1 & w1 & E1 & P1).
  destruct (save_photos_ok (photos req) w1 []) as (r2 & w2 & E2 & P2).
  { destruct P1 as (Ew & _). eapply Forall_impl; [exact Hphotos|].
    intros g Hg. simpl. now rewrite Ew. }
  exists r1, r2, w2. split; [eapply upload_phase_trans; eassumption|].
  unfold mbind, M_bind. rewrite E1, E2. split; reflexivity.
Qed.

Lemma catch_build_docx path data invitation_path photo_paths w :
  catch (build_docx path data invitation_path photo_paths) w
  = (let doc := Docx.docx_document (files w) data invitation_path photo_paths in
     if forallb Docx.xml_compatible (docx_text doc) then
       match write_error w path with
       | Some e => (Ok (Raise e), w)
       | None =>
           (Ok (Ok path),
            {| files := <[path := DocxFile doc]> (files w);
               write_error := write_error w;
               flashes := flashes w |})
       end
     else (Ok (Raise XML_ERROR), w)).
Proof.
  unfold catch. rewrite DocxFacts.build_docx_spec. cbv zeta.
  destruct (forallb Docx.xml_compatible
              (docx_text (Docx.docx_document (files w) data invitation_path photo_paths)));
    [|reflexivity].
  now destruct (write_error w path).
Qed.

Lemma catch_build_pdf path data invitation_path photo_paths w :
  catch (build_pdf path data invitation_path photo_paths) w
  = match write_error w path with
    | Some e => (Ok (Raise e), w)
    | None =>
        (Ok (Ok path),
         {| files :=
              <[path := PdfFile (Pdf.pdf_canvas (files w) data invitation_path
                                   photo_paths)]> (files w);
            write_error := write_error w;
            flashes := flashes w |})
    end.
Proof.
  unfold catch, build_pdf, read_files, write_file, mbind, M_bind.
  now destruct (write_error w path).
Qed.

(** C7: once the uploads are saved, the DOCX build fails when a text of
    the document is one XML cannot hold, or when saving the document raises.
    Either failure ends the request with a redirect to the index page and the
    flashed message "Error creating DOCX: ..."; the PDF build is not run and
    no artifact is written: the files are those the uploads left.  When the
    DOCX build succeeds the preview is returned whether or not the PDF build
    fails; nothing is flashed; the DOCX written is the document built, and
    the PDF is written when it can be saved and left out when it cannot. *)
Theorem docx_failure_aborts_pdf_failure_is_skipped (req : request) (w : world) :
  Forall (fun f => write_error w (upload_path f) = None) (uploads req) ->
  let data := form req in
  let r := fst (generate req w) in
  let w' := snd (generate req w) in
  exists (invitation_path : option string) (photo_paths : list string) (w2 : world),
    save_uploads req w = (Ok (invitation_path, photo_paths), w2)
    /\ upload_phase w w2
    /\ let doc := Docx.docx_document (files w2) data invitation_path photo_paths in
       let docx_failure :=
         if forallb Docx.xml_compatible (docx_text doc)
         then write_error w (docx_path data) else Some XML_ERROR in
       fst (build_docx (docx_path data) data invitation_path photo_paths w2)
         = match docx_failure with
           | Some e => Raise e
           | None => Ok (docx_path data)
           end
       /\ match docx_failure with
          | Some e =>
              r = Ok (Redirect "index")
              /\ flashes w'
                 = (flashes w ++ [(("Error creating DOCX: " ++ e)%string, "danger")])%list
              /\ files w' = files w2
          | None =>
              r = Ok (Preview data invitation_path photo_paths
                        (base_name data ++ ".docx") (base_name data ++ ".pdf"))
              /\ flashes w' = flashes w
              /\ let with_docx := <[docx_path data := DocxFile doc]> (files w2) in
                 files w'
                 = match write_error w (pdf_path data) with
                   | Some _ => with_docx
                   | None =>
                       <[pdf_path data :=
                           PdfFile (Pdf.pdf_canvas with_docx data invitation_path
                                      photo_paths)]> with_docx
                   end
          end.
Proof.
  intros Hall. cbv zeta.
  destruct (generate_uploads req w Hall)
    as (inv & photo_paths & w2 & (Ew & Ef & Eu) & Esave & ->).
  exists inv, photo_paths, w2. split; [exact Esave|].
  split; [repeat split; assumption|].
  rewrite <- Ew, <- Ef. unfold build_phase, mbind, M_bind.
  rewrite catch_build_docx, DocxFacts.build_docx_spec. cbv zeta.
  destruct (forallb Docx.xml_compatible
              (docx_text (Docx.docx_document (files w2) (form req) inv photo_paths))).
  - destruct (write_error w2 (docx_path (form req))) as [e|] eqn:Hd.
    + split; [reflexivity|]. simpl. repeat split.
    + split; [reflexivity|]. rewrite catch_build_pdf. cbn [write_error files flashes].
      destruct (output_paths (form req)) as (_ & _ & B1 & B2). rewrite B1, B2.
      destruct (write_error w2 (pdf_path (form req))); simpl; repeat split.
  - split; [reflexivity|]. simpl. repeat split.
Qed.

Lemma docx_failure_aborts_pdf_failure_is_skipped_witness :
  let req := {| form := Scenario.form_feed_overview; invitation := None;
                photos := [ {| filename := "hall.png";
                               content := {| pil_size := Some (640, 480)%N;
                                             docx_ok := true |} |} ] |} in
  let w := Scenario.quiet ∅ in
  fst (generate req w) = Ok (Redirect "index")
  /\ flashes (snd (generate req w))
     = [(("Error creating DOCX: " ++ XML_ERROR)%string, "danger")]
  /\ files (snd (generate req w))
     = {[ "uploads/hall.png" := Uploaded {| pil_size := Some (640, 480)%N;
                                            docx_ok := true |} ]}.
Proof.
  intros req w.
  assert (Hup : Forall (fun f => write_error w (upload_path f) = None) (uploads req))
    by (repeat constructor).
  destruct (docx_failure_aborts_pdf_failure_is_skipped req w Hup)
    as (inv & photo_paths & w2 & Esave & _ & _ & H).
  assert (E : save_uploads req w
              = (Ok (None, ["uploads/hall.png"]),
                 {| files := {[ "uploads/hall.png"
                                  := Uploaded {| pil_size := Some (640, 480)%N;
                                                 docx_ok := true |} ]};
                    write_error := fun _ => None; flashes := [] |}))
    by reflexivity.
  rewrite E in Esave. injection Esave as <- <- <-.
  exact H.
Defined.

End AppFacts.

(** * Determinism of the textual content *)

Module Determinism.
Import Pdf Observe.
Local Open Scope Q_scope.

Lemma pdf_text_app a b : pdf_text (a ++ b) = pdf_text a ++ pdf_text b.
Proof. apply omap_app. Qed.

Lemma same_painting_refl a : same_painting a a.
Proof. intros y. now split. Qed.

Lemma same_and_then a a' b b' :
  same_painting a a' -> same_painting b b' ->
  same_painting (a >>> b) (a' >>> b').
Proof.
  intros Ha Hb y. unfold and_then. destruct (Ha y) as [Ey Et].
  destruct (a y) as [o1 y1], (a' y) as [o1' y1']. simpl in Ey, Et. subst y1'.
  destruct (Hb y1) as [Ey2 Et2].
  destruct (b y1) as [o2 y2], (b' y1) as [o2' y2']. simpl in *.
  split; [exact Ey2|]. now rewrite !pdf_text_app, Et, Et2.
Qed.

Lemma same_break_if_low hdr1 hdr2 :
  pdf_text hdr1 = pdf_text hdr2 ->
  same_painting (break_if_low hdr1) (break_if_low hdr2).
Proof.
  intros Hh y. unfold break_if_low. destruct (Qlt_bool y 120); simpl; [|now split].
  unfold pdf_text in *. simpl. now split.
Qed.

Lemma same_draw_lines hdr1 hdr2 lines :
  pdf_text hdr1 = pdf_text hdr2 ->
  same_painting (draw_lines hdr1 lines) (draw_lines hdr2 lines).
Proof.
  intros Hh. induction lines as [|ln rest IH]; [apply same_painting_refl|].
  cbn [draw_lines].
  do 2 (apply same_and_then; [apply same_painting_refl|]).
  apply same_and_then; [now apply same_break_if_low | exact IH].
Qed.

Lemma same_text_section hdr1 hdr2 heading text :
  pdf_text hdr1 = pdf_text hdr2 ->
  same_painting (text_section hdr1 heading text) (text_section hdr2 heading text).
Proof.
  intros Hh. unfold text_section.
  repeat (apply same_and_then; [apply same_painting_refl|]).
  now apply same_draw_lines.
Qed.

Lemma same_optional_section hdr1 hdr2 heading text :
  pdf_text hdr1 = pdf_text hdr2 ->
  same_painting (optional_section hdr1 heading text)
    (optional_section hdr2 heading text).
Proof.
  intros Hh. unfold optional_section.
  destruct (truthy text); [now apply same_text_section | apply same_painting_refl].
Qed.

Lemma same_report_sections hdr1 hdr2 data :
  pdf_text hdr1 = pdf_text hdr2 ->
  same_painting (report_sections hdr1 data) (report_sections hdr2 data).
Proof.
  intros Hh. unfold report_sections.
  apply same_and_then; [apply same_painting_refl|].
  apply same_and_then; [now apply same_text_section|].
  repeat (apply same_and_then; [now apply same_optional_section|]).
  now apply same_optional_section.
Qed.

Lemma header_text_same fs1 fs2 :
  pdf_text (draw_header fs1) = pdf_text (draw_header fs2).
Proof. now rewrite !PdfFacts.pdf_text_header. Qed.

Lemma same_report_page fs1 fs2 data :
  snd (report_page fs1 data) = snd (report_page fs2 data)
  /\ pdf_text (fst (report_page fs1 data)) = pdf_text (fst (report_page fs2 data)).
Proof.
  unfold report_page.
  destruct (same_report_sections (draw_header fs1) (draw_header fs2) data
              (header_text_same fs1 fs2) (h - 170)) as [Ey Et].
  destruct (report_sections (draw_header fs1) data (h - 170)) as [o1 y1].
  destruct (report_sections (draw_header fs2) data (h - 170)) as [o2 y2].
  simpl in Ey, Et. cbn [fst snd]. split; [exact Ey|].
  rewrite !pdf_text_app, Et, (header_text_same fs1 fs2). reflexivity.
Qed.

Lemma pil_open_same fs1 fs2 p : fs1 !! p = fs2 !! p -> pil_open fs1 p = pil_open fs2 p.
Proof. unfold pil_open. now intros ->. Qed.

Lemma same_photo_loop fs1 fs2 photo_paths : forall g,
  (forall p, In p photo_paths -> fs1 !! p = fs2 !! p) ->
  snd (photo_loop fs1 g photo_paths) = snd (photo_loop fs2 g photo_paths)
  /\ pdf_text (fst (photo_loop fs1 g photo_paths))
     = pdf_text (fst (photo_loop fs2 g photo_paths)).
Proof.
  induction photo_paths as [|p rest IH]; intros g Hsame; [now split|].
  cbn [photo_loop].
  assert (Hstep : snd (photo_step fs1 g p) = snd (photo_step fs2 g p)
                  /\ pdf_text (fst (photo_step fs1 g p))
                     = pdf_text (fst (photo_step fs2 g p))).
  { unfold photo_step, place_photo.
    rewrite (pil_open_same fs1 fs2 p) by (apply Hsame; now left).
    match goal with |- context [let '(_, _) := ?e in _] => destruct e as [ops y] end.
    destruct (1 <? col g + 1)%Z; [|now split].
    destruct (Qlt_bool (y - row_h) 120); [|now split].
    cbn [fst snd]. split; [reflexivity|].
    rewrite !pdf_text_app. f_equal.
    change (pdf_text (draw_header fs1) = pdf_text (draw_header fs2)).
    apply header_text_same. }
  destruct Hstep as [Eg Et].
  destruct (photo_step fs1 g p) as [o1 g1], (photo_step fs2 g p) as [o1' g1'].
  simpl in Eg, Et. subst g1'.
  destruct (IH g1 ltac:(intros q Hq; apply Hsame; now right)) as [Eg2 Et2].
  destruct (photo_loop fs1 g1 rest) as [o2 g2], (photo_loop fs2 g1 rest) as [o2' g2'].
  simpl in *. split; [exact Eg2|]. now rewrite !pdf_text_app, Et, Et2.
Qed.

Lemma same_pdf_text fs1 fs2 data invitation_path photo_paths :
  same_images fs1 fs2 invitation_path photo_paths ->
  pdf_text (pdf_canvas fs1 data invitation_path photo_paths)
  = pdf_text (pdf_canvas fs2 data invitation_path photo_paths).
Proof.
  intros Hsame. unfold pdf_canvas.
  destruct (same_report_page fs1 fs2 data) as [Ey Et].
  destruct (report_page fs1 data) as [o1 y1], (report_page fs2 data) as [o2 y2].
  simpl in Ey, Et. subst y2.
  rewrite !pdf_text_app, Et. f_equal; [|f_equal].
  - unfold circular_page, invitation_ops. rewrite !pdf_text_app.
    rewrite (header_text_same fs1 fs2). do 2 f_equal.
    destruct (path_given invitation_path) as [p|] eqn:Hp; [|reflexivity].
    rewrite (pil_open_same fs1 fs2 p); [reflexivity|].
    apply Hsame. rewrite Hp. simpl. now left.
  - unfold photo_page. rewrite !pdf_text_app, (header_text_same fs1 fs2).
    do 2 f_equal. apply same_photo_loop.
    intros p Hp. apply Hsame. apply in_or_app. now right.
Qed.

Lemma picture_ok_same fs1 fs2 p :
  fs1 !! p = fs2 !! p -> Docx.picture_ok fs1 p = Docx.picture_ok fs2 p.
Proof. unfold Docx.picture_ok. now intros ->. Qed.

Lemma same_photo_rows fs1 fs2 photo_paths :
  (forall p, In p photo_paths -> fs1 !! p = fs2 !! p) ->
  photo_rows fs1 photo_paths = photo_rows fs2 photo_paths.
Proof.
  induction photo_paths as [|p|p q rest IH] using Basics.pair_ind; intros Hsame.
  - reflexivity.
  - cbn [photo_rows]. unfold photo_cell, photo_notice.
    now rewrite (picture_ok_same fs1 fs2 p) by (apply Hsame; now left).
  - cbn [photo_rows]. unfold photo_cell, photo_notice.
    rewrite (picture_ok_same fs1 fs2 p) by (apply Hsame; now left).
    rewrite (picture_ok_same fs1 fs2 q) by (apply Hsame; right; now left).
    rewrite IH; [reflexivity|]. intros r Hr. apply Hsame. right. now right.
Qed.

Lemma same_docx_body fs1 fs2 data invitation_path photo_paths :
  same_images fs1 fs2 invitation_path photo_paths ->
  body (Docx.docx_document fs1 data invitation_path photo_paths)
  = body (Docx.docx_document fs2 data invitation_path photo_paths).
Proof.
  intros Hsame. rewrite !DocxFacts.docx_body.
  assert (Hinv : Docx.invitation_block fs1 data invitation_path
                 = Docx.invitation_block fs2 data invitation_path).
  { unfold Docx.invitation_block.
    destruct (path_given invitation_path) as [p|] eqn:Hp; [|reflexivity].
    rewrite (picture_ok_same fs1 fs2 p); [reflexivity|].
    apply Hsame. rewrite Hp. simpl. now left. }
  unfold Docx.circular_page. rewrite Hinv.
  rewrite (same_photo_rows fs1 fs2 photo_paths); [reflexivity|].
  intros p Hp. apply Hsame. apply in_or_app. now right.
Qed.

(** C8: the text of both artifacts is a function of the event record and of
    the images alone.  Two builds from the same record, invitation path and
    photo paths, in two states of the files that hold the same images there,
    but may differ in every other file (the logo among them), produce a
    word-processor body that is the same block for block, the same document
    text, and the same strings on the PDF in the same order.  No builder
    reads a clock. *)
Theorem same_inputs_same_text
    (fs1 fs2 : gmap string file) (data : EventRecord)
    (invitation_path : option string) (photo_paths : list string) :
  same_images fs1 fs2 invitation_path photo_paths ->
  body (Docx.docx_document fs1 data invitation_path photo_paths)
    = body (Docx.docx_document fs2 data invitation_path photo_paths)
  /\ docx_text (Docx.docx_document fs1 data invitation_path photo_paths)
    = docx_text (Docx.docx_document fs2 data invitation_path photo_paths)
  /\ pdf_text (pdf_canvas fs1 data invitation_path photo_paths)
    = pdf_text (pdf_canvas fs2 data invitation_path photo_paths).
Proof.
  intros Hsame. pose proof (same_docx_body _ _ data _ _ Hsame) as Hb.
  split; [exact Hb|]. split; [|now apply same_pdf_text].
  unfold docx_text. rewrite Hb. f_equal.
  unfold Docx.docx_document, Docx.header_runs. cbn [header].
  now destruct (Docx.picture_ok fs1 logo_path), (Docx.picture_ok fs2 logo_path).
Qed.

Lemma same_inputs_same_text_witness :
  let fs1 : gmap string file := {[ Scenario.photo := Scenario.image 100 100 ]} in
  let fs2 : gmap string file := <[logo_path := Scenario.image 10 10]> fs1 in
  pdf_text (pdf_canvas fs1 Scenario.robotics None [Scenario.photo])
  = pdf_text (pdf_canvas fs2 Scenario.robotics None [Scenario.photo]).
Proof.
  intros fs1 fs2.
  apply (same_inputs_same_text fs1 fs2 Scenario.robotics None [Scenario.photo]).
  intros p [<- | []]. reflexivity.
Defined.

End Determinism.

(** * Further properties of the text wrapper *)

Module TextwrapMore.
Import Textwrap Observe ObserveMore TextwrapFacts.

Lemma ink_app a b : ink (a ++ b) = ink a ++ ink b.
Proof. apply filter_app. Qed.

Lemma ink_space_only c : strip_is_empty c = true -> ink c = [].
Proof.
  unfold strip_is_empty, ink. induction c as [|x c IH]; [reflexivity|].
  intros H. cbn [forallb] in H. apply andb_prop in H as [Hx Hc].
  rewrite filter_cons, decide_False by congruence. now apply IH.
Qed.

(** **** The pieces of a round, without conditions on the width *)

Lemma handle_long_word_cut c rest cur_line cur_len width :
  exists t d,
    _handle_long_word (c :: rest) cur_line cur_len width
      = (d :: rest, cur_line ++ [t])
    /\ t ++ d = c.
Proof.
  unfold _handle_long_word. eexists _, _. split; [reflexivity | apply slice_app].
Qed.

Lemma drop_trailing_space_ink cur_line :
  ink (concat (drop_trailing_space cur_line)) = ink (concat cur_line).
Proof.
  unfold drop_trailing_space.
  destruct cur_line as [|x l _] using rev_ind; [reflexivity|].
  rewrite last_snoc. destruct (strip_is_empty x) eqn:E; [|reflexivity].
  rewrite removelast_last, concat_app, ink_app. simpl.
  now rewrite app_nil_r, (ink_space_only x E), app_nil_r.
Qed.

(** A round moves characters from the chunks to the lines and drops white
    space only. *)
Lemma wrap_round_ink width c chunks lines chunks' lines' :
  wrap_round width (c :: chunks) lines = (chunks', lines') ->
  ink (concat lines') ++ ink (concat chunks')
  = ink (concat lines) ++ ink (concat (c :: chunks)).
Proof.
  intros H. unfold wrap_round in H.
  set (chunks1 := if strip_is_empty c && nonempty lines then chunks else c :: chunks) in H.
  assert (H1 : ink (concat chunks1) = ink (concat (c :: chunks))).
  { subst chunks1. destruct (strip_is_empty c) eqn:E; [|reflexivity].
    destruct (nonempty lines); [|reflexivity].
    simpl. now rewrite ink_app, (ink_space_only c E). }
  destruct (fill_line width [] 0 chunks1) as [[cur_line cur_len] chunks2] eqn:F.
  apply fill_line_spec in F as (taken & Hcl & Hch & _). simpl in Hcl. subst cur_line.
  assert (Hstep : exists chunks3 cur_line3,
     (match chunks2 with
      | c0 :: _ => if width <? len c0
                   then _handle_long_word chunks2 taken cur_len width
                   else (chunks2, taken)
      | [] => (chunks2, taken)
      end) = (chunks3, cur_line3)
     /\ ink (concat cur_line3) ++ ink (concat chunks3) = ink (concat chunks1)).
  { rewrite Hch, concat_app, ink_app. destruct chunks2 as [|c0 rest].
    - eexists _, _. split; reflexivity.
    - destruct (width <? len c0).
      + destruct (handle_long_word_cut c0 rest taken cur_len width)
          as (t & d & Hh & Htd).
        exists (d :: rest), (taken ++ [t]). split; [exact Hh|].
        rewrite concat_app, ink_app. simpl. rewrite app_nil_r, <- Htd, !ink_app.
        now rewrite <- !app_assoc.
      + eexists _, _. split; reflexivity. }
  destruct Hstep as (chunks3 & cur_line3 & Heq & Hink).
  rewrite Heq in H. inversion H; subst chunks' lines'.
  rewrite <- H1, <- Hink, <- (drop_trailing_space_ink cur_line3).
  destruct (drop_trailing_space cur_line3) as [|x l].
  - simpl. reflexivity.
  - cbn [nonempty]. rewrite concat_app, ink_app. simpl concat at 2.
    rewrite app_nil_r. now rewrite <- app_assoc.
Qed.

Lemma wrap_loop_ink width : forall fuel chunks lines out,
  wrap_loop fuel width chunks lines = Returns out ->
  ink (concat out) = ink (concat lines) ++ ink (concat chunks).
Proof.
  induction fuel as [|fuel IH]; intros chunks lines out H.
  - destruct chunks; [|discriminate H]. inversion H. simpl. now rewrite app_nil_r.
  - destruct chunks as [|c chunks].
    + inversion H. simpl. now rewrite app_nil_r.
    + cbn [wrap_loop] in H.
      destruct (wrap_round width (c :: chunks) lines) as [chunks' lines'] eqn:R.
      apply IH in H. rewrite H. now apply wrap_round_ink in R.
Qed.

(** [_munge_whitespace] changes white space only. *)
Lemma ink_expandtabs tabsize s : forall column,
  ink (expandtabs_from tabsize column s) = ink s.
Proof.
  induction s as [|c s IH]; intros column; [reflexivity|].
  cbn [expandtabs_from]. destruct (is_char TAB c) eqn:E.
  - apply Ascii.eqb_eq in E. subst c.
    change (ink (TAB :: s)) with (ink s).
    destruct (0 <? tabsize)%nat; [|apply IH].
    rewrite ink_app, IH.
    assert (Hr : forall n, ink (repeat SPACE n) = []).
    { induction n as [|n IHn]; [reflexivity | exact IHn]. }
    now rewrite Hr.
  - unfold ink. rewrite !filter_cons. fold (ink s).
    fold (ink (expandtabs_from tabsize
                 (if is_char LF c || is_char CR c then 0%nat else S column) s)).
    now rewrite IH.
Qed.

Lemma isspace_of_whitespace c : is_whitespace c = true -> isspace c = true.
Proof.
  unfold is_whitespace, isspace. intros H. apply orb_prop in H as [H | H].
  - now rewrite H.
  - apply Ascii.eqb_eq in H. subst c. reflexivity.
Qed.

Lemma ink_translate s : ink (translate_whitespace s) = ink s.
Proof.
  unfold translate_whitespace, ink. induction s as [|c s IH]; [reflexivity|].
  cbn [map]. rewrite !filter_cons, IH.
  destruct (is_whitespace c) eqn:E; [|reflexivity].
  apply isspace_of_whitespace in E.
  rewrite !decide_False; [reflexivity | congruence | discriminate].
Qed.

Lemma ink_munge text : ink (_munge_whitespace text) = ink text.
Proof. unfold _munge_whitespace, expandtabs. now rewrite ink_translate, ink_expandtabs. Qed.

Lemma concat_map_of_to lines : concat (map of_str (map to_str lines)) = concat lines.
Proof.
  induction lines as [|l lines IH]; [reflexivity|].
  cbn [map concat]. f_equal; [apply list_ascii_of_string_of_list_ascii | exact IH].
Qed.

Lemma wrap_ink_spec (text : string) (width : Z) :
  1 <= width ->
  exists lines,
    wrap text width = Returns lines
    /\ ink (concat (map of_str lines)) = ink (of_str text).
Proof.
  intros Hw. unfold wrap, _wrap_chunks.
  destruct (Z.leb_spec width 0); [lia|].
  destruct (wrap_loop_spec width Hw (weight (_split_chunks (of_str text)))
              (_split_chunks (of_str text)) [] ltac:(lia) ltac:(constructor))
    as (out & Hout & _).
  rewrite Hout. eexists. split; [reflexivity|].
  etransitivity; [exact (f_equal ink (concat_map_of_to out))|].
  apply wrap_loop_ink in Hout. rewrite Hout. simpl.
  unfold _split_chunks. now rewrite split_concat, ink_munge.
Qed.

(** X1: wrapping moves line breaks and white space only: for every width of
    at least 1, the characters of the lines that are not white space are
    those of the text, in the same order. *)
Theorem wrap_keeps_ink (text : string) (width : Z) :
  1 <= width ->
  exists lines,
    wrap text width = Returns lines
    /\ ink (concat (map of_str lines)) = ink (of_str text).
Proof. apply wrap_ink_spec. Qed.

Lemma wrap_keeps_ink_witness :
  exists lines,
    wrap "well-known  facts, aaaaaaaaaaaa" 7 = Returns lines
    /\ ink (concat (map of_str lines)) = ink (of_str "well-known  facts, aaaaaaaaaaaa").
Proof. apply (wrap_keeps_ink "well-known  facts, aaaaaaaaaaaa" 7). lia. Defined.

(** **** Texts of white space only *)

Lemma expandtabs_whitespace tabsize s : forall column,
  all_whitespace s -> all_whitespace (expandtabs_from tabsize column s).
Proof.
  unfold all_whitespace. induction s as [|c s IH]; intros column H; [reflexivity|].
  cbn [forallb] in H. apply andb_prop in H as [Hc Hs]. cbn [expandtabs_from].
  destruct (is_char TAB c).
  - destruct (0 <? tabsize)%nat; [|now apply IH].
    rewrite forallb_app, IH by assumption. rewrite andb_true_r.
    induction (tabsize - column mod tabsize)%nat as [|n IHn]; [reflexivity | exact IHn].
  - cbn [forallb]. now rewrite Hc, IH.
Qed.

Lemma munge_whitespace_spaces s :
  all_whitespace s -> forallb (is_char SPACE) (_munge_whitespace s) = true.
Proof.
  intros H. unfold _munge_whitespace, expandtabs.
  pose proof (expandtabs_whitespace 8 s 0%nat H) as H'. unfold all_whitespace in H'.
  induction (expandtabs_from 8 0 s) as [|c l IH]; [reflexivity|].
  cbn [forallb] in H'. apply andb_prop in H' as [Hc Hl].
  cbn [translate_whitespace map forallb]. rewrite Hc. cbn. now apply IH.
Qed.

Lemma spaces_are_whitespace s :
  forallb (is_char SPACE) s = true -> forallb is_whitespace s = true.
Proof.
  induction s as [|c s IH]; [reflexivity|]. cbn [forallb]. intros H.
  apply andb_prop in H as [Hc Hs]. unfold is_whitespace. rewrite Hc, orb_true_r.
  now apply IH.
Qed.

Lemma span_all p s : forallb p s = true -> span p s = (s, []).
Proof.
  induction s as [|c s IH]; [reflexivity|]. cbn [forallb span]. intros H.
  apply andb_prop in H as [Hc Hs]. now rewrite Hc, IH.
Qed.

(** A text of white space is one chunk, or none when it is empty. *)
Lemma split_whitespace s :
  forallb is_whitespace s = true ->
  _split s = match s with [] => [] | _ :: _ => [s] end.
Proof.
  intros H. unfold _split. destruct s as [|c s]; [reflexivity|].
  cbn [length split_from next_chunk].
  pose proof H as Hc. cbn [forallb] in Hc. apply andb_prop in Hc as [Hc _].
  rewrite Hc, (span_all _ _ H). now destruct (length s).
Qed.

Lemma strip_is_empty_take n c : strip_is_empty c = true -> strip_is_empty (take n c) = true.
Proof.
  unfold strip_is_empty. revert n. induction c as [|x c IH]; intros [|n] H;
    try reflexivity.
  cbn [forallb] in H. apply andb_prop in H as [Hx Hc]. cbn [take forallb].
  now rewrite Hx, IH.
Qed.

Lemma strip_is_empty_drop n c : strip_is_empty c = true -> strip_is_empty (drop n c) = true.
Proof.
  unfold strip_is_empty. revert n. induction c as [|x c IH]; intros [|n] H;
    try reflexivity; try exact H.
  cbn [forallb] in H. apply andb_prop in H as [Hx Hc]. cbn [drop]. now apply IH.
Qed.

Lemma strip_is_empty_slices e c :
  strip_is_empty c = true ->
  strip_is_empty (slice_to e c) = true /\ strip_is_empty (slice_from e c) = true.
Proof.
  intros H. unfold slice_to, slice_from.
  destruct (e <? 0); split; auto using strip_is_empty_take, strip_is_empty_drop.
Qed.

(** A round on one chunk of white space, before any line: no line is made,
    and what is left is again at most one chunk of white space. *)
Lemma wrap_round_blank width c :
  strip_is_empty c = true ->
  exists chunks',
    wrap_round width [c] [] = (chunks', [])
    /\ (chunks' = [] \/ exists d, chunks' = [d] /\ strip_is_empty d = true).
Proof.
  intros Hc. unfold wrap_round. rewrite andb_false_r. cbn [fill_line].
  destruct (0 + len c <=? width).
  - cbn. unfold drop_trailing_space. cbn. rewrite Hc. cbn. eauto.
  - destruct (width <? len c).
    + unfold _handle_long_word.
      match goal with |- context [slice_from ?e c] => set (end_ := e) end.
      destruct (strip_is_empty_slices end_ c Hc) as [Ht Hd].
      cbn. unfold drop_trailing_space. cbn. rewrite Ht. cbn.
      eexists. split; [reflexivity|]. right. eauto.
    + cbn. eexists. split; [reflexivity|]. right. eauto.
Qed.

Lemma wrap_loop_blank width :
  1 <= width ->
  forall fuel c,
    strip_is_empty c = true -> (weight [c] <= fuel)%nat ->
    wrap_loop fuel width [c] [] = Returns [].
Proof.
  intros Hw. induction fuel as [|fuel IH]; intros c Hc Hfuel.
  - rewrite weight_cons in Hfuel. lia.
  - cbn [wrap_loop].
    destruct (wrap_round_blank width c Hc) as (chunks' & R & Hshape).
    pose proof (wrap_round_spec width c [] [] chunks' [] Hw R) as [Hlt _].
    rewrite R. destruct Hshape as [-> | (d & -> & Hd)].
    + now destruct fuel.
    + apply IH; [exact Hd | lia].
Qed.

(** X2: a text of white space only (blanks, tabs, line ends), the empty text
    among them, wraps to no line at all, for every width of at least 1. *)
Theorem wrap_of_whitespace_is_empty (text : string) (width : Z) :
  1 <= width ->
  all_whitespace (of_str text) ->
  wrap text width = Returns [].
Proof.
  intros Hw Hws. unfold wrap, _wrap_chunks, _split_chunks.
  destruct (Z.leb_spec width 0); [lia|].
  pose proof (munge_whitespace_spaces _ Hws) as Hsp.
  rewrite (split_whitespace _ (spaces_are_whitespace _ Hsp)).
  destruct (_munge_whitespace (of_str text)) as [|c s] eqn:E; [reflexivity|].
  rewrite wrap_loop_blank; [reflexivity | assumption | | apply Nat.le_refl].
  unfold strip_is_empty. clear E.
  induction (c :: s) as [|x l IH]; [reflexivity|].
  cbn [forallb] in *. apply andb_prop in Hsp as [Hx Hl].
  apply Ascii.eqb_eq in Hx. subst x. now rewrite IH.
Qed.

Lemma wrap_of_whitespace_is_empty_witness :
  wrap (String TAB (String LF "   ")) 2 = Returns [].
Proof. apply wrap_of_whitespace_is_empty; [lia | reflexivity]. Defined.

(** **** No line is empty *)

Lemma split_from_no_empty fuel : forall back s, no_empty (split_from fuel back s).
Proof.
  induction fuel as [|fuel IH]; intros back s.
  - destruct s; constructor.
  - destruct s as [|c s]; [constructor|]. cbn [split_from].
    destruct (next_chunk back (c :: s)) as [chunk rest] eqn:E.
    apply next_chunk_app in E as [_ Hne]. constructor; [now apply Hne | apply IH].
Qed.

Lemma drop_trailing_space_no_empty l :
  no_empty (removelast l) -> no_empty (drop_trailing_space l).
Proof.
  unfold drop_trailing_space. intros H.
  destruct l as [|x l _] using rev_ind; [constructor|].
  rewrite last_snoc. rewrite removelast_last in *.
  destruct (strip_is_empty x) eqn:E; [exact H|].
  apply Forall_app. split; [exact H|]. constructor; [|constructor].
  intros ->. discriminate E.
Qed.

Lemma concat_no_empty (l : list pystr) : no_empty l -> l <> [] -> concat l <> [].
Proof. intros H Hl. destruct l as [|x l]; [easy|]. inversion H; subst. now destruct x. Qed.

(** A round keeps the chunks non-empty and adds no empty line. *)
Lemma wrap_round_no_empty width c chunks lines chunks' lines' :
  1 <= width -> no_empty (c :: chunks) ->
  wrap_round width (c :: chunks) lines = (chunks', lines') ->
  no_empty chunks' /\ exists new, lines' = lines ++ new /\ no_empty new.
Proof.
  intros Hw Hne H. unfold wrap_round in H.
  set (chunks1 := if strip_is_empty c && nonempty lines then chunks else c :: chunks) in H.
  assert (H1 : no_empty chunks1).
  { subst chunks1. destruct (_ && _); [now inversion Hne | exact Hne]. }
  destruct (fill_line width [] 0 chunks1) as [[cur_line cur_len] chunks2] eqn:F.
  apply fill_line_spec in F as (taken & Hcl & Hch & Hn & Hle & _).
  simpl in Hcl. subst cur_line. rewrite Z.add_0_l in Hn.
  rewrite Hch in H1. apply Forall_app in H1 as [Htaken Hrest].
  assert (Hlen : 0 <= cur_len <= width).
  { subst cur_len. pose proof (len_nonneg (concat taken)). lia. }
  assert (Hstep : exists chunks3 cur_line3,
     (match chunks2 with
      | c0 :: _ => if width <? len c0
                   then _handle_long_word chunks2 taken cur_len width
                   else (chunks2, taken)
      | [] => (chunks2, taken)
      end) = (chunks3, cur_line3)
     /\ no_empty chunks3 /\ no_empty (removelast cur_line3)).
  { assert (Hrl : no_empty (removelast taken)).
    { destruct taken as [|x l _] using rev_ind; [constructor|].
      rewrite removelast_last. now apply Forall_app in Htaken as [? _]. }
    destruct chunks2 as [|c0 rest]; [eexists _, _; split; [reflexivity|]; split; assumption|].
    destruct (Z.ltb_spec width (len c0)) as [Hlong|Hshort];
      [|eexists _, _; split; [reflexivity|]; split; assumption].
    destruct (handle_long_word_spec c0 rest taken cur_len width Hw Hlen Hlong)
      as (t & d & Hh & Htd & Ht & _).
    exists (d :: rest), (taken ++ [t]). split; [exact Hh|]. split.
    - inversion Hrest as [|? ? _ Hr]. constructor; [|exact Hr].
      intros Ed. rewrite Ed, app_nil_r in Htd. rewrite <- Htd in Hlong. lia.
    - now rewrite removelast_last. }
  destruct Hstep as (chunks3 & cur_line3 & Heq & Hc3 & Hl3).
  rewrite Heq in H. inversion H; subst chunks' lines'. split; [exact Hc3|].
  pose proof (drop_trailing_space_no_empty cur_line3 Hl3) as Hd.
  destruct (drop_trailing_space cur_line3) as [|x l] eqn:E.
  - exists []. split; [now rewrite app_nil_r | constructor].
  - cbn [nonempty]. eexists. split; [reflexivity|]. constructor; [|constructor].
    now apply concat_no_empty.
Qed.

Lemma wrap_loop_no_empty width :
  1 <= width ->
  forall fuel chunks lines out,
    no_empty chunks -> no_empty lines ->
    wrap_loop fuel width chunks lines = Returns out -> no_empty out.
Proof.
  intros Hw. induction fuel as [|fuel IH]; intros chunks lines out Hc Hl H.
  - destruct chunks; [|discriminate H]. now inversion H; subst.
  - destruct chunks as [|c chunks]; [now inversion H; subst|].
    cbn [wrap_loop] in H.
    destruct (wrap_round width (c :: chunks) lines) as [chunks' lines'] eqn:R.
    apply wrap_round_no_empty in R as (Hc' & new & -> & Hnew); [|assumption..].
    eapply IH; [exact Hc' | | exact H]. apply Forall_app. now split.
Qed.

(** X3: for every width of at least 1, no line that [wrap] returns is
    empty. *)
Theorem wrap_lines_are_not_empty (text : string) (width : Z) :
  1 <= width ->
  exists lines,
    wrap text width = Returns lines
    /\ Forall (fun line => line <> EmptyString) lines.
Proof.
  intros Hw. unfold wrap, _wrap_chunks.
  destruct (Z.leb_spec width 0); [lia|].
  destruct (wrap_loop_spec width Hw (weight (_split_chunks (of_str text)))
              (_split_chunks (of_str text)) [] ltac:(lia) ltac:(constructor))
    as (out & Hout & _).
  rewrite Hout. eexists. split; [reflexivity|].
  apply wrap_loop_no_empty in Hout; [|assumption | apply split_from_no_empty | constructor].
  apply Forall_map. eapply Forall_impl; [exact Hout|].
  intros l Hl. simpl. intros E. apply Hl. now destruct l.
Qed.

Lemma wrap_lines_are_not_empty_witness :
  exists lines,
    wrap "a bcdef" 2 = Returns lines
    /\ Forall (fun line => line <> EmptyString) lines.
Proof. apply (wrap_lines_are_not_empty "a bcdef" 2). lia. Defined.

End TextwrapMore.

(** * Further properties of the word-processor builder *)

Module DocxMore.
Import Docx Observe ObserveMore Basics DocxFacts.

Lemma outline_app a b : outline (a ++ b) = outline a ++ outline b.
Proof. apply omap_app. Qed.

Lemma outline_optional heading st text :
  st <> Normal ->
  outline (optional_section heading st text) = optional_heading text st heading.
Proof.
  intros Hst. unfold optional_section, optional_heading.
  destruct (truthy text); [|reflexivity]. now destruct st.
Qed.

Lemma outline_photo_rows fs photo_paths : outline (photo_rows fs photo_paths) = [].
Proof.
  assert (Hn : forall p, outline (photo_notice fs p) = []).
  { intros p. unfold photo_notice. now destruct (picture_ok fs p). }
  induction photo_paths as [|p|p q rest IH] using pair_ind.
  - reflexivity.
  - cbn [photo_rows]. change (outline (photo_notice fs p) = []). apply Hn.
  - cbn [photo_rows].
    change (outline (photo_notice fs p ++ photo_notice fs q ++ photo_rows fs rest) = []).
    now rewrite !outline_app, !Hn, IH.
Qed.

(** X4: the outline of the document (its headings, in order) is fixed but for
    three headings: Day 1, Day 2 and Learning Outcomes are there exactly when
    their text is not empty.  The Conclusion heading is always there, also
    for an empty conclusion, and no photo or invitation adds a heading. *)
Theorem docx_outline
    (fs : gmap string file) (data : EventRecord) (invitation_path : option string)
    (photo_paths : list string) :
  outline (body (docx_document fs data invitation_path photo_paths))
  = [ (IntenseQuote, (NL ++ "CIRCULAR" ++ NL)%string);
      (Title, ("DEPARTMENT OF " ++ department data)%string);
      (Heading1, "REPORT OF THE EVENT"%string);
      (Heading2, "Workshop Overview"%string) ]
    ++ optional_heading (day1 data) Heading3
         (NL ++ "Day 1: Fundamentals and Demonstrations")%string
    ++ optional_heading (day2 data) Heading3
         (NL ++ "Day 2: Advanced Troubleshooting and Maintenance")%string
    ++ optional_heading (learning_outcomes data) Heading2
         (NL ++ "Learning Outcomes")%string
    ++ [ (Heading2, (NL ++ "Conclusion")%string);
         (Heading1, "Event Photographs"%string) ].
Proof.
  rewrite docx_body. unfold circular_page, report_page, invitation_block.
  rewrite !outline_app, !outline_optional by discriminate.
  assert (Hlast : outline
            (match photo_paths with
             | [] => [no_photos_notice]
             | _ :: _ => photo_rows fs photo_paths
             end) = []).
  { destruct photo_paths; [reflexivity | apply outline_photo_rows]. }
  change (outline (Paragraph "Event Photographs" Heading1 :: ?l))
    with ((Heading1, "Event Photographs"%string) :: outline l).
  rewrite Hlast.
  destruct (path_given invitation_path) as [p|]; [destruct (picture_ok fs p)|];
    cbn; rewrite <- ?app_assoc; reflexivity.
Qed.

Lemma grid_cells_app a b : grid_cells (a ++ b) = grid_cells a ++ grid_cells b.
Proof. apply flat_map_app. Qed.

Lemma grid_cells_photo_rows fs photo_paths :
  grid_cells (photo_rows fs photo_paths)
  = map (photo_cell fs) photo_paths
    ++ (if Nat.odd (length photo_paths) then [[]] else []).
Proof.
  assert (Hn : forall p, grid_cells (photo_notice fs p) = []).
  { intros p. unfold photo_notice. now destruct (picture_ok fs p). }
  induction photo_paths as [|p|p q rest IH] using pair_ind.
  - reflexivity.
  - cbn [photo_rows]. change (grid_cells (?t :: ?l)) with (grid_cells [t] ++ grid_cells l).
    rewrite Hn. reflexivity.
  - cbn [photo_rows]. change (grid_cells (?t :: ?l)) with (grid_cells [t] ++ grid_cells l).
    rewrite !grid_cells_app, !Hn, IH. cbn [length]. rewrite Nat.odd_succ_succ.
    reflexivity.
Qed.

Lemma tables_photo_rows fs photo_paths :
  length (filter (fun b => is_table b = true) (photo_rows fs photo_paths))
  = ((length photo_paths + 1) / 2)%nat.
Proof.
  assert (Hn : forall p, filter (fun b => is_table b = true) (photo_notice fs p) = []).
  { intros p. unfold photo_notice. now destruct (picture_ok fs p). }
  induction photo_paths as [|p|p q rest IH] using pair_ind.
  - reflexivity.
  - cbn [photo_rows]. rewrite filter_cons, decide_True, Hn by reflexivity. reflexivity.
  - cbn [photo_rows]. rewrite filter_cons, decide_True by reflexivity.
    rewrite !filter_app, !Hn. cbn [app length]. rewrite IH.
    replace (S (S (length rest)) + 1)%nat with (length rest + 1 + 1 * 2)%nat by lia.
    rewrite Nat.div_add by lia. lia.
Qed.

(** X5: for [N] photos, [N > 0], the photo page holds [ceil(N/2)] one-row
    tables of two cells; read row by row, cell number [i] belongs to photo
    number [i], in upload order, and holds its picture at 3 inches, or an
    empty run when the picture could not be added; when [N] is odd the last
    row's second cell is empty. *)
Theorem docx_grid_layout
    (fs : gmap string file) (p : string) (rest : list string) :
  let photo_paths := p :: rest in
  grid_cells (photo_page fs [] photo_paths)
    = map (fun q => if picture_ok fs q then [InlinePicture q 3] else [EmptyRun])
        photo_paths
      ++ (if Nat.odd (length photo_paths) then [[]] else [])
  /\ length (filter (fun b => is_table b = true) (photo_page fs [] photo_paths))
    = ((length photo_paths + 1) / 2)%nat.
Proof.
  cbv zeta. unfold photo_page. rewrite add_photos_rows by reflexivity.
  cbn [app]. split.
  - change (grid_cells (?t :: ?l)) with (grid_cells l).
    apply grid_cells_photo_rows.
  - rewrite filter_cons, decide_False by discriminate. apply tables_photo_rows.
Qed.

Lemma page_breaks_photo_rows fs photo_paths :
  docx_page_breaks (photo_rows fs photo_paths) = 0%nat.
Proof.
  unfold docx_page_breaks.
  assert (Hn : forall p, filter (fun b => is_page_break b = true) (photo_notice fs p) = []).
  { intros p. unfold photo_notice. now destruct (picture_ok fs p). }
  induction photo_paths as [|p|p q rest IH] using pair_ind.
  - reflexivity.
  - cbn [photo_rows]. rewrite filter_cons, decide_False, Hn by discriminate. reflexivity.
  - cbn [photo_rows]. rewrite filter_cons, decide_False by discriminate.
    rewrite !filter_app, !Hn. exact IH.
Qed.

Lemma page_breaks_app a b :
  docx_page_breaks (a ++ b) = (docx_page_breaks a + docx_page_breaks b)%nat.
Proof. unfold docx_page_breaks. now rewrite filter_app, length_app. Qed.

(** X6: whatever the record, the invitation and the photos are, the body has
    exactly two page breaks, so the document has its three parts: circular,
    report and photographs. *)
Theorem docx_has_two_page_breaks
    (fs : gmap string file) (data : EventRecord) (invitation_path : option string)
    (photo_paths : list string) :
  docx_page_breaks (body (docx_document fs data invitation_path photo_paths)) = 2%nat.
Proof.
  rewrite docx_body, !page_breaks_app.
  assert (H1 : docx_page_breaks (circular_page fs data invitation_path) = 0%nat).
  { unfold circular_page, invitation_block.
    destruct (path_given invitation_path) as [p|]; [destruct (picture_ok fs p)|];
      reflexivity. }
  assert (H2 : docx_page_breaks (report_page data) = 0%nat).
  { unfold report_page, optional_section. rewrite !page_breaks_app.
    destruct (truthy (day1 data)), (truthy (day2 data)),
      (truthy (learning_outcomes data)); reflexivity. }
  assert (H3 : docx_page_breaks
            (Paragraph "Event Photographs" Heading1
             :: match photo_paths with
                | [] => [no_photos_notice]
                | _ :: _ => photo_rows fs photo_paths
                end) = 0%nat).
  { change (docx_page_breaks (?t :: ?l)) with (docx_page_breaks l).
    destruct photo_paths; [reflexivity | apply page_breaks_photo_rows]. }
  rewrite H1, H2, H3. reflexivity.
Qed.

(** **** Records whose texts XML can hold *)

Lemma docx_text_compatible fs data invitation_path photo_paths :
  forallb xml_compatible (fields data) = true ->
  forallb xml_compatible (map Os.path_basename photo_paths) = true ->
  forallb xml_compatible (docx_text (docx_document fs data invitation_path photo_paths))
  = true.
Proof.
  intros Hf Hn. rewrite (photos_do_not_abort _ _ _ _ Hn).
  cbn [fields forallb] in Hf.
  repeat match type of Hf with
         | (_ && _ = true) => let H := fresh "Hx" in apply andb_prop in Hf as [H Hf]
         end.
  unfold docx_text. rewrite docx_body. cbn [header docx_document].
  unfold header_runs, circular_page, report_page, optional_section, invitation_block,
    details_table, text_cell.
  destruct (picture_ok fs logo_path), (path_given invitation_path) as [p|];
    [destruct (picture_ok fs p)| |destruct (picture_ok fs p)|];
    destruct (truthy (day1 data)), (truthy (day2 data)),
      (truthy (learning_outcomes data));
    cbn [flat_map run_text block_text app forallb];
    rewrite ?xml_compatible_app;
    repeat match goal with H : xml_compatible _ = true |- _ => rewrite H; clear H end;
    reflexivity.
Qed.

End DocxMore.

(** * Further properties of the PDF page painter *)

Module PdfMore.
Import Pdf Observe ObserveMore PdfFacts.
Local Open Scope Q_scope.

(** **** A photo in its cell *)

Lemma NQ_pos n : n <> 0%N -> 0 < NQ n.
Proof.
  intros H. unfold NQ. change 0 with (inject_Z 0). rewrite <- Zlt_Qlt. lia.
Qed.

Lemma qmin_le_l a b : qmin a b <= a.
Proof.
  unfold qmin. destruct (Qlt_bool b a) eqn:E.
  - apply Qlt_le_weak. now apply Qlt_bool_true.
  - apply Qle_refl.
Qed.

Lemma qmin_le_r a b : qmin a b <= b.
Proof.
  unfold qmin. destruct (Qlt_bool b a) eqn:E.
  - apply Qle_refl.
  - now apply Qlt_bool_false.
Qed.

Lemma qmin_cases a b : qmin a b = a \/ qmin a b = b.
Proof. unfold qmin. destruct (Qlt_bool b a); auto. Qed.

Lemma scale_le n s r : n <> 0%N -> r <= s / NQ n -> NQ n * r <= s.
Proof.
  intros Hn Hr. pose proof (NQ_pos n Hn) as Hp.
  apply Qle_trans with (NQ n * (s / NQ n)).
  - apply Qmult_le_l; assumption.
  - rewrite Qmult_div_r; [apply Qle_refl|].
    intros E. rewrite E in Hp. now apply Qlt_irrefl in Hp.
Qed.

Lemma scale_eq n s : n <> 0%N -> NQ n * (s / NQ n) == s.
Proof.
  intros Hn. pose proof (NQ_pos n Hn) as Hp. apply Qmult_div_r.
  intros E. rewrite E in Hp. now apply Qlt_irrefl in Hp.
Qed.

Lemma place_photo_spec
    (fs : gmap string file) (g : grid) (p : string) (iw ih : N) :
  pil_open fs p = Some (iw, ih) -> iw <> 0%N -> ih <> 0%N ->
  (col g = 0 \/ col g = 1)%Z ->
  exists x y dw dh,
    place_photo fs g p = ([DrawInlineImage p x y dw dh], y)
    /\ 0 < dw /\ dw <= col_w /\ 0 < dh /\ dh <= row_h
    /\ (dw == col_w \/ dh == row_h)
    /\ dw * NQ ih == dh * NQ iw
    /\ x_margin + inject_Z (col g) * (col_w + 20) <= x
    /\ x + dw <= x_margin + inject_Z (col g) * (col_w + 20) + col_w
    /\ y == y_start - inject_Z (row g) * 140 - dh.
Proof.
  intros Hopen Hiw Hih Hcol. unfold place_photo. rewrite Hopen.
  apply N.eqb_neq in Hiw as Ew. apply N.eqb_neq in Hih as Eh. rewrite Ew, Eh.
  cbn [orb].
  set (ratio := qmin (col_w / NQ iw) (row_h / NQ ih)).
  pose proof (NQ_pos iw Hiw) as Pw. pose proof (NQ_pos ih Hih) as Ph.
  assert (Hdw : NQ iw * ratio <= col_w) by (apply scale_le; [assumption | apply qmin_le_l]).
  assert (Hdh : NQ ih * ratio <= row_h) by (apply scale_le; [assumption | apply qmin_le_r]).
  assert (Hr : 0 < ratio).
  { subst ratio. destruct (qmin_cases (col_w / NQ iw) (row_h / NQ ih)) as [-> | ->].
    - apply Qlt_shift_div_l; [assumption|]. rewrite Qmult_0_l. reflexivity.
    - apply Qlt_shift_div_l; [assumption|]. rewrite Qmult_0_l. reflexivity. }
  assert (Hmax : NQ iw * ratio == col_w \/ NQ ih * ratio == row_h).
  { subst ratio. destruct (qmin_cases (col_w / NQ iw) (row_h / NQ ih)) as [-> | ->];
      [left | right]; now apply scale_eq. }
  assert (Hx : exists x0, x_positions !! Z.to_nat (col g) = Some x0
                          /\ x0 == x_margin + inject_Z (col g) * (col_w + 20)).
  { destruct Hcol as [-> | ->]; eexists; (split; [reflexivity|]); cbn; ring. }
  destruct Hx as (x0 & -> & Hx0).
  eexists _, _, _, _. split; [reflexivity|].
  split; [apply Qmult_lt_0_compat; assumption|]. split; [exact Hdw|].
  split; [apply Qmult_lt_0_compat; assumption|]. split; [exact Hdh|].
  split; [exact Hmax|]. split; [ring|].
  split; [|split].
  - rewrite <- Hx0. revert Hdw. generalize (NQ iw * ratio), col_w. intros dw cw Hdw.
    unfold Qdiv. change (/ 2) with (1 # 2). lra.
  - rewrite <- Hx0. revert Hdw. generalize (NQ iw * ratio), col_w. intros dw cw Hdw.
    unfold Qdiv. change (/ 2) with (1 # 2). lra.
  - unfold row_h. ring.
Qed.



(** X7: a photo that opens, with sides that are not 0, is drawn once, scaled
    by one ratio for both sides (the aspect ratio is kept), as large as its
    cell of [col_w] by 120 allows (one side fills the cell, the other does
    not exceed it) and inside the cell's width, with its lower edge at
    [y_start - row*140 - draw_h]. *)
Theorem photo_fits_its_cell
    (fs : gmap string file) (g : grid) (p : string) (iw ih : N) :
  pil_open fs p = Some (iw, ih) -> iw <> 0%N -> ih <> 0%N ->
  (col g = 0 \/ col g = 1)%Z ->
  exists x y dw dh,
    place_photo fs g p = ([DrawInlineImage p x y dw dh], y)
    /\ 0 < dw /\ dw <= col_w /\ 0 < dh /\ dh <= row_h
    /\ (dw == col_w \/ dh == row_h)
    /\ dw * NQ ih == dh * NQ iw
    /\ x_margin + inject_Z (col g) * (col_w + 20) <= x
    /\ x + dw <= x_margin + inject_Z (col g) * (col_w + 20) + col_w
    /\ y == y_start - inject_Z (row g) * 140 - dh.
Proof. apply place_photo_spec. Qed.

Lemma photo_fits_its_cell_witness :
  exists x y dw dh,
    place_photo Scenario.fs_flat {| col := 1; row := 2; y_last := 500 |} Scenario.photo
    = ([DrawInlineImage Scenario.photo x y dw dh], y)
    /\ dw <= col_w /\ dh <= row_h.
Proof.
  destruct (photo_fits_its_cell Scenario.fs_flat {| col := 1; row := 2; y_last := 500 |}
              Scenario.photo 1000 10 eq_refl ltac:(discriminate) ltac:(discriminate)
              ltac:(now right))
    as (x & y & dw & dh & E & _ & Hw & _ & Hh & _).
  exists x, y, dw, dh. repeat split; assumption.
Defined.

(** **** How low the text of the report page can get *)

Lemma keeps_and_then b b1 b2 a1 a2 :
  keeps_above b b1 a1 -> keeps_above b1 b2 a2 -> b2 <= b1 ->
  keeps_above b b2 (a1 >>> a2).
Proof.
  intros H1 H2 Hle y Hy. unfold and_then. destruct (H1 y Hy) as [D1 Y1].
  destruct (a1 y) as [o1 y1]. simpl in D1, Y1. destruct (H2 y1 Y1) as [D2 Y2].
  destruct (a2 y1) as [o2 y2]. simpl in *. split; [|exact Y2].
  rewrite drawn_lines_app. apply Forall_app. split; [|exact D2].
  eapply Forall_impl; [exact D1|]. intros d Hd. simpl in *. lra.
Qed.

Lemma keeps_weaken b b' c c' a :
  keeps_above b b' a -> b <= c -> c' <= b' -> keeps_above c c' a.
Proof.
  intros H Hb Hc y Hy. destruct (H y ltac:(lra)) as [D Y]. split; [|lra].
  eapply Forall_impl; [exact D|]. intros d Hd. simpl in *. lra.
Qed.

Lemma keeps_skip b : keeps_above b b skip.
Proof. intros y Hy. split; [constructor | exact Hy]. Qed.

Lemma keeps_move_down b d : keeps_above b (b - d) (move_down d).
Proof. intros y Hy. split; [constructor | simpl; lra]. Qed.

Lemma keeps_emit_string b text :
  keeps_above b b (emit (fun y => [DrawString 50 y text])).
Proof. intros y Hy. split; [repeat constructor; exact Hy | exact Hy]. Qed.

Lemma keeps_draw_details lines : forall b,
  keeps_above b (b - 16 * inject_Z (Z.of_nat (length lines))) (draw_details lines).
Proof.
  induction lines as [|L rest IH]; intros b.
  - apply (keeps_weaken b b); [apply keeps_skip | lra |].
    change (inject_Z (Z.of_nat (length (@nil string)))) with 0. lra.
  - cbn [draw_details].
    assert (E : inject_Z (Z.of_nat (length (L :: rest)))
                == 1 + inject_Z (Z.of_nat (length rest))).
    { cbn [length]. rewrite Nat2Z.inj_succ, <- Z.add_1_l, inject_Z_plus. reflexivity. }
    pose proof (Qle_bool_iff 0 (inject_Z (Z.of_nat (length rest)))) as [Hpos _].
    assert (Hn : 0 <= inject_Z (Z.of_nat (length rest))).
    { change 0 with (inject_Z 0). rewrite <- Zle_Qle. lia. }
    eapply keeps_and_then; [apply keeps_emit_string | | rewrite E; lra].
    eapply keeps_and_then; [apply keeps_move_down | | rewrite E; lra].
    eapply keeps_weaken; [apply (IH (b - 16)) | lra | rewrite E; lra].
Qed.

Lemma keeps_draw_lines fs lines b b' :
  b' <= b -> b' <= 120 -> keeps_above b b' (draw_lines (draw_header fs) lines).
Proof.
  intros Hb H120 y Hy. destruct lines as [|ln rest].
  - simpl. split; [constructor | lra].
  - rewrite draw_lines_cons.
    pose proof (break_if_low_spec fs (y - 14)) as [Hnone Hy1].
    destruct (break_if_low (draw_header fs) (y - 14)) as [ops1 y1].
    simpl in Hnone, Hy1.
    pose proof (draw_lines_above fs rest y1 Hy1) as [Hall Hend].
    destruct (draw_lines (draw_header fs) rest y1) as [ops2 y2]. simpl in *.
    split; [|lra]. constructor; [simpl; lra|].
    rewrite drawn_lines_app, Hnone. simpl.
    eapply Forall_impl; [exact Hall|]. intros d Hd. simpl in *. lra.
Qed.

Lemma keeps_text_section fs heading text b :
  b <= 144 -> keeps_above b (b - 24) (text_section (draw_header fs) heading text).
Proof.
  intros Hb. unfold text_section.
  eapply keeps_and_then; [apply keeps_move_down | | lra].
  eapply keeps_and_then;
    [ intros y Hy; split; [repeat constructor; exact Hy | exact Hy] | | lra].
  eapply keeps_and_then; [apply keeps_move_down | | lra].
  eapply keeps_and_then;
    [ intros y Hy; split; [constructor | exact Hy] | | lra].
  eapply keeps_weaken; [apply (keeps_draw_lines fs _ (b - 8 - 16) (b - 24)) | |]; lra.
Qed.

Lemma keeps_optional_section fs heading text b :
  b <= 144 -> keeps_above b (b - 24) (optional_section (draw_header fs) heading text).
Proof.
  intros Hb. unfold optional_section. destruct (truthy text).
  - now apply keeps_text_section.
  - apply (keeps_weaken b b); [apply keeps_skip | |]; lra.
Qed.

Lemma keeps_report_sections fs data :
  keeps_above (h - 170) 24 (report_sections (draw_header fs) data).
Proof.
  unfold report_sections.
  apply (keeps_and_then _ 144).
  { eapply keeps_weaken; [apply keeps_draw_details | apply Qle_refl |].
    apply Qle_bool_iff. reflexivity. }
  2: lra.
  apply (keeps_and_then _ 120);
    [eapply keeps_weaken; [apply (keeps_text_section fs _ _ 144) | |]; lra | | lra].
  apply (keeps_and_then _ 96);
    [eapply keeps_weaken; [apply (keeps_optional_section fs _ _ 120) | |]; lra | | lra].
  apply (keeps_and_then _ 72);
    [eapply keeps_weaken; [apply (keeps_optional_section fs _ _ 96) | |]; lra | | lra].
  apply (keeps_and_then _ 48);
    [eapply keeps_weaken; [apply (keeps_optional_section fs _ _ 72) | |]; lra | | lra].
  eapply keeps_weaken; [apply (keeps_optional_section fs _ _ 48) | |]; lra.
Qed.

(** X8: on the report page every string drawn with [drawString] (the five
    detail lines, the section headings, the wrapped lines, the signature) is
    drawn 24 points or more above the bottom edge, and the cursor the page
    leaves behind is at 24 or above: the text never runs off the page,
    whatever the texts are. *)
Theorem report_text_stays_on_page (fs : gmap string file) (data : EventRecord) :
  Forall (fun d => 24 <= fst d) (drawn_lines (fst (report_page fs data)))
  /\ 24 <= snd (report_page fs data).
Proof.
  unfold report_page.
  destruct (keeps_report_sections fs data (h - 170) ltac:(apply Qle_refl)) as [D Y].
  destruct (report_sections (draw_header fs) data (h - 170)) as [ops y].
  simpl in D, Y. cbn [fst snd]. split; [|exact Y].
  rewrite !drawn_lines_app, drawn_lines_header.
  apply Forall_app. split; [constructor|].
  apply Forall_app. split; [constructor|].
  apply Forall_app. split; [exact D|].
  repeat constructor. simpl. lra.
Qed.

(** **** Photos that all decode stay on the page *)

Lemma image_bottoms_app a b : image_bottoms (a ++ b) = image_bottoms a ++ image_bottoms b.
Proof. apply omap_app. Qed.

Lemma header_image_bottoms fs : Forall (fun y => 1 <= y) (image_bottoms (draw_header fs)).
Proof.
  unfold draw_header. rewrite image_bottoms_app.
  destruct (pil_open fs logo_path) as [[iw ih]|]; [destruct (iw =? 0)%N|];
    cbn; repeat constructor.
  apply Qle_bool_iff. reflexivity.
Qed.

Lemma pil_decodes_sizes fs p :
  pil_decodes fs p = true ->
  exists iw ih, pil_open fs p = Some (iw, ih) /\ iw <> 0%N /\ ih <> 0%N.
Proof.
  unfold pil_decodes. destruct (pil_open fs p) as [[iw ih]|]; [|discriminate].
  intros H. apply negb_true_iff, orb_false_elim in H as [Hw Hh].
  exists iw, ih. split; [reflexivity|]. split; now apply N.eqb_neq.
Qed.

Lemma photo_step_on_page fs g p :
  pil_decodes fs p = true -> grid_ok g ->
  Forall (fun y => 1 <= y) (image_bottoms (fst (photo_step fs g p)))
  /\ grid_ok (snd (photo_step fs g p)).
Proof.
  intros Hd [Hcol Hrow].
  destruct (pil_decodes_sizes fs p Hd) as (iw & ih & Hopen & Hiw & Hih).
  destruct (place_photo_spec fs g p iw ih Hopen Hiw Hih Hcol)
    as (x & y & dw & dh & E & _ & _ & Hdh0 & Hdh & _ & _ & _ & _ & Hy).
  unfold photo_step. rewrite E.
  assert (Hr0 : 0 <= inject_Z (row g)) by (change 0 with (inject_Z 0); rewrite <- Zle_Qle; lia).
  assert (Hr4 : inject_Z (row g) <= 4) by (change 4 with (inject_Z 4); rewrite <- Zle_Qle; lia).
  assert (Hfour : forall r : Q, y == y_start - r * 140 - dh -> 120 <= y - row_h -> r < 4).
  { intros r Er B. clear - Er B Hdh0. unfold y_start, h, row_h in *. lra. }
  assert (Hy1 : 1 <= y).
  { clear - Hy Hr4 Hdh. revert Hy Hr4. generalize (inject_Z (row g)). intros r Hy Hr4.
    unfold y_start, h, row_h in *. lra. }
  destruct Hcol as [Hc | Hc]; rewrite Hc;
    [change (1 <? 0 + 1)%Z with false | change (1 <? 1 + 1)%Z with true]; cbv iota.
  - split; [repeat constructor; exact Hy1|]. split; [now right | exact Hrow].
  - destruct (Qlt_bool (y - row_h) 120) eqn:B; cbn [fst snd].
    + split; [|split; [now left | cbn; lia]].
      rewrite image_bottoms_app. apply Forall_app. split.
      * repeat constructor. exact Hy1.
      * apply header_image_bottoms.
    + split; [repeat constructor; exact Hy1|]. split; [now left|]. cbn [row].
      apply Qlt_bool_false in B.
      assert (Hlt : inject_Z (row g) < 4) by (apply Hfour; assumption).
      change 4 with (inject_Z 4) in Hlt. rewrite <- Zlt_Qlt in Hlt. lia.
Qed.

Lemma photo_loop_on_page fs photo_paths : forall g,
  Forall (fun p => pil_decodes fs p = true) photo_paths -> grid_ok g ->
  Forall (fun y => 1 <= y) (image_bottoms (fst (photo_loop fs g photo_paths))).
Proof.
  induction photo_paths as [|p rest IH]; intros g Hall Hg; [constructor|].
  inversion Hall as [|? ? Hp Hrest]; subst. cbn [photo_loop].
  destruct (photo_step_on_page fs g p Hp Hg) as [H1 Hg1].
  destruct (photo_step fs g p) as [ops1 g1]. simpl in H1, Hg1.
  specialize (IH g1 Hrest Hg1).
  destruct (photo_loop fs g1 rest) as [ops2 g2]. simpl in *.
  rewrite image_bottoms_app. apply Forall_app. now split.
Qed.

(** X9: when every photo opens with sides that are not 0, every image of
    the photo pages is drawn with its lower edge at least 1 point above the
    bottom of the page: a page never holds more than five rows. *)
Theorem decoded_photos_stay_on_page
    (fs : gmap string file) (y0 : Q) (photo_paths : list string) :
  Forall (fun p => pil_decodes fs p = true) photo_paths ->
  Forall (fun y => 1 <= y) (image_bottoms (photo_page fs y0 photo_paths)).
Proof.
  intros Hall. unfold photo_page. rewrite !image_bottoms_app.
  apply Forall_app. split; [apply header_image_bottoms|].
  apply Forall_app. split; [constructor|].
  apply photo_loop_on_page; [exact Hall|]. split; [now left | cbn; lia].
Qed.

Lemma decoded_photos_stay_on_page_witness :
  Forall (fun y => 1 <= y)
    (image_bottoms (photo_page Scenario.fs_square 500 Scenario.eight_photos)).
Proof.
  apply decoded_photos_stay_on_page. repeat constructor.
Defined.

(** **** What the report page says *)

Lemma drawn_texts_app a b : drawn_texts (a ++ b) = drawn_texts a ++ drawn_texts b.
Proof. unfold drawn_texts. now rewrite drawn_lines_app, map_app. Qed.

Lemma draws_and_then t1 t2 a1 a2 :
  draws t1 a1 -> draws t2 a2 -> draws (t1 ++ t2) (a1 >>> a2).
Proof.
  intros H1 H2 y. unfold and_then. specialize (H1 y). destruct (a1 y) as [o1 y1].
  specialize (H2 y1). destruct (a2 y1) as [o2 y2]. simpl in *.
  now rewrite drawn_texts_app, H1, H2.
Qed.

Lemma draws_skip : draws [] skip.
Proof. now intros y. Qed.

Lemma draws_move_down d : draws [] (move_down d).
Proof. now intros y. Qed.

Lemma draws_draw_details lines : draws lines (draw_details lines).
Proof.
  induction lines as [|L rest IH]; [apply draws_skip|].
  cbn [draw_details]. apply (draws_and_then [L] rest); [now intros y|].
  apply (draws_and_then [] rest); [apply draws_move_down | exact IH].
Qed.

Lemma draws_text_section fs heading text :
  draws (heading :: wrapped text) (text_section (draw_header fs) heading text).
Proof.
  unfold text_section.
  apply (draws_and_then [] (heading :: wrapped text)); [apply draws_move_down|].
  apply (draws_and_then [heading] (wrapped text)); [now intros y|].
  apply (draws_and_then [] (wrapped text)); [apply draws_move_down|].
  apply (draws_and_then [] (wrapped text)); [now intros y|].
  intros y. apply draw_lines_texts.
Qed.

Lemma draws_optional_section fs heading text :
  draws (optional_lines heading text) (optional_section (draw_header fs) heading text).
Proof.
  unfold optional_lines, optional_section. destruct (truthy text);
    [apply draws_text_section | apply draws_skip].
Qed.

Lemma wrapped_ink text : ink (concat (map of_str (wrapped text))) = ink (of_str text).
Proof.
  destruct (TextwrapMore.wrap_ink_spec text 100 ltac:(lia)) as (lines & E & Hink).
  rewrite TextwrapFacts.wrapped_returns in E. inversion E as [E']. rewrite E'. exact Hink.
Qed.

(** X16: the strings the report page draws with [drawString] are, in order:
    the five detail lines; the heading "Workshop Overview:" and the wrapped
    overview; for Day 1, Day 2, Learning Outcomes and Conclusion the heading
    and the wrapped text when the text is not empty, nothing otherwise; and
    "HoD".  Page breaks drop and repeat no line, and the wrapped lines of a
    text hold its characters that are not white space, in order. *)
Theorem report_page_texts (fs : gmap string file) (data : EventRecord) :
  drawn_texts (fst (report_page fs data))
  = [ "Name of the activity: " ++ title data;
      "Department: " ++ department data;
      "Academic year: " ++ academic_year data;
      "Date of activity conducted: " ++ date_activity data;
      "Organized by: " ++ organized_by data ]%string
    ++ ("Workshop Overview:"%string :: wrapped (overview data))
    ++ optional_lines "Day 1: Fundamentals and Demonstrations" (day1 data)
    ++ optional_lines "Day 2: Advanced Troubleshooting and Maintenance" (day2 data)
    ++ optional_lines "Learning Outcomes:" (learning_outcomes data)
    ++ optional_lines "Conclusion:" (conclusion data)
    ++ ["HoD"%string]
  /\ forall text, ink (concat (map of_str (wrapped text))) = ink (of_str text).
Proof.
  split; [|apply wrapped_ink].
  assert (H : draws
    ([ "Name of the activity: " ++ title data;
       "Department: " ++ department data;
       "Academic year: " ++ academic_year data;
       "Date of activity conducted: " ++ date_activity data;
       "Organized by: " ++ organized_by data ]%string
     ++ ("Workshop Overview:"%string :: wrapped (overview data))
     ++ optional_lines "Day 1: Fundamentals and Demonstrations" (day1 data)
     ++ optional_lines "Day 2: Advanced Troubleshooting and Maintenance" (day2 data)
     ++ optional_lines "Learning Outcomes:" (learning_outcomes data)
     ++ optional_lines "Conclusion:" (conclusion data))
    (report_sections (draw_header fs) data)).
  { unfold report_sections.
    apply draws_and_then; [apply draws_draw_details|].
    apply draws_and_then; [apply draws_text_section|].
    repeat (apply draws_and_then; [apply draws_optional_section|]).
    apply draws_optional_section. }
  unfold report_page. specialize (H (h - 170)).
  destruct (report_sections (draw_header fs) data (h - 170)) as [ops y].
  cbn [fst] in *. rewrite !drawn_texts_app, H.
  unfold drawn_texts at 1 2. rewrite drawn_lines_header. cbn [map app].
  rewrite <- !app_assoc. reflexivity.
Qed.

(** **** The font of a wrapped line *)

Lemma split_at_draw_string l1 : forall pre x y t post l2,
  forallb (fun o => negb (is_draw_string o)) l1 = true ->
  pre ++ DrawString x y t :: post = l1 ++ l2 ->
  exists mid, pre = l1 ++ mid /\ l2 = mid ++ DrawString x y t :: post.
Proof.
  induction l1 as [|o l1 IH]; intros pre x y t post l2 Hno E.
  - exists pre. now split.
  - cbn [forallb] in Hno. apply andb_prop in Hno as [Ho Hno].
    destruct pre as [|o' pre]; cbn [app] in E.
    + inversion E; subst. discriminate Ho.
    + inversion E as [[Eo E']]. destruct (IH _ _ _ _ _ _ Hno E') as (mid & -> & ->).
      now exists mid.
Qed.

Lemma font_set_app f0 a b : font_set f0 (a ++ b) = font_set (font_set f0 a) b.
Proof. apply fold_left_app. Qed.

Lemma font_set_header fs f0 :
  font_set f0 (draw_header fs) = ("Helvetica-Bold"%string, 12%Z).
Proof.
  unfold draw_header. rewrite font_set_app. reflexivity.
Qed.

Lemma header_no_draw_string fs :
  forallb (fun o => negb (is_draw_string o)) (draw_header fs) = true.
Proof.
  unfold draw_header. rewrite forallb_app.
  destruct (pil_open fs logo_path) as [[iw ih]|]; [destruct (iw =? 0)%N|]; reflexivity.
Qed.

Lemma draw_lines_fonts fs lines : forall y f0 pre x y' ln post,
  fst (draw_lines (draw_header fs) lines y) = pre ++ DrawString x y' ln :: post ->
  font_set f0 pre
  = if existsb is_show_page pre then ("Helvetica-Bold"%string, 12%Z) else f0.
Proof.
  induction lines as [|l rest IH]; intros y f0 pre x y' ln post E.
  - destruct pre; discriminate E.
  - rewrite draw_lines_cons in E. unfold break_if_low in E.
    destruct (Qlt_bool (y - 14) 120).
    + destruct (draw_lines (draw_header fs) rest (h - 120)) as [ops2 y2] eqn:E2.
      cbn [fst] in E. destruct pre as [|o pre]; [reflexivity|].
      cbn [app] in E. inversion E as [[Eo E']].
      destruct pre as [|o1 pre]; [discriminate E'|].
      cbn [app] in E'. inversion E' as [[Eo1 E'']].
      symmetry in E''. apply split_at_draw_string in E''; [|apply header_no_draw_string].
      destruct E'' as (mid & -> & Emid).
      change (DrawString 50 y l :: ShowPage :: draw_header fs ++ mid)
        with ([DrawString 50 y l; ShowPage] ++ draw_header fs ++ mid).
      rewrite !font_set_app, font_set_header. cbn [existsb is_show_page orb app].
      rewrite (IH (h - 120) _ mid x y' ln post) by (now rewrite E2).
      now destruct (existsb is_show_page mid).
    + destruct (draw_lines (draw_header fs) rest (y - 14)) as [ops2 y2] eqn:E2.
      cbn [fst app] in E. destruct pre as [|o pre]; [reflexivity|].
      cbn [app] in E. inversion E as [[Eo E']].
      change (font_set f0 (DrawString 50 y l :: pre)) with (font_set f0 pre).
      cbn [existsb is_show_page orb].
      apply (IH (y - 14) f0 pre x y' ln post). now rewrite E2.
Qed.

Lemma text_section_ops hdr heading text y :
  fst (text_section hdr heading text y)
  = SetFont "Helvetica-Bold" 11 :: DrawString 50 (y - 8) heading
    :: SetFont "Helvetica" 10 :: fst (draw_lines hdr (wrapped text) (y - 8 - 16)).
Proof.
  unfold text_section, and_then, move_down, emit.
  destruct (draw_lines hdr (wrapped text) (y - 8 - 16)) as [ops y']. reflexivity.
Qed.

(** X17: the fonts of a text section.  The heading is drawn in Helvetica-Bold
    11 and the wrapped lines before a page break in Helvetica 10; but a
    wrapped line drawn after a page break of the section is drawn in
    Helvetica-Bold 12, the font [draw_header] sets last: the loop does not
    set the font of the text again after it redraws the header. *)
Theorem section_fonts
    (fs : gmap string file) (heading text : string) (y : Q) (f0 : string * Z)
    (pre : list op) (x y' : Q) (ln : string) (post : list op) :
  fst (text_section (draw_header fs) heading text y) = pre ++ DrawString x y' ln :: post ->
  font_set f0 pre
  = if existsb is_show_page pre then ("Helvetica-Bold"%string, 12%Z)
    else match pre with
         | [_] => ("Helvetica-Bold"%string, 11%Z)
         | _ => ("Helvetica"%string, 10%Z)
         end.
Proof.
  rewrite text_section_ops. intros E.
  destruct pre as [|o0 pre]; [discriminate E|].
  cbn [app] in E. inversion E as [[E0 E1]].
  destruct pre as [|o1 pre]; [reflexivity|].
  cbn [app] in E1. inversion E1 as [[Eo1 E2]].
  destruct pre as [|o2 pre]; [discriminate E2|].
  cbn [app] in E2. inversion E2 as [[Eo2 E3]].
  change (font_set f0 (SetFont "Helvetica-Bold" 11 :: DrawString 50 (y - 8) heading
                         :: SetFont "Helvetica" 10 :: pre))
    with (font_set ("Helvetica"%string, 10%Z) pre).
  cbn [existsb is_show_page orb].
  rewrite (draw_lines_fonts fs (wrapped text) (y - 8 - 16) _ pre x y' ln post)
    by exact E3.
  reflexivity.
Qed.

Lemma section_fonts_witness :
  let text := ("aaaaaaaaaaaaaaaaaaaaaaaaaaaaaaaaaaaaaaaaaaaaaaaaaaaaaaaaaaaa "
               ++ "bbbbbbbbbbbbbbbbbbbbbbbbbbbbbbbbbbbbbbbbbbbbbbbbbbbbbbbbbbbb")%string in
  let ops := fst (text_section (draw_header ∅) "Workshop Overview:" text 150) in
  font_set ("Times-Roman"%string, 9%Z) (firstn 7 ops) = ("Helvetica-Bold"%string, 12%Z).
Proof.
  intros text ops.
  refine (eq_trans
    (section_fonts ∅ "Workshop Overview:" text 150 ("Times-Roman"%string, 9%Z)
       (firstn 7 ops) 50 (h - 120)
       "bbbbbbbbbbbbbbbbbbbbbbbbbbbbbbbbbbbbbbbbbbbbbbbbbbbbbbbbbbbb" (skipn 8 ops) _) _);
    vm_compute; reflexivity.
Defined.

End PdfMore.

(** * Further properties of file names and of the routes *)

Module AppMore.
Import Textwrap Werkzeug Os App Observe ObserveMore Basics NameFacts AppFacts.
Local Open Scope string_scope.

(** **** [allowed_file] *)

Lemma after_last_split d s :
  existsb (is_char d) s = true ->
  exists before after,
    s = (before ++ d :: after)%list
    /\ existsb (is_char d) after = false
    /\ after_last d s = after.
Proof.
  induction s as [|c s IH]; [discriminate|]. intros H. cbn [after_last].
  destruct (existsb (is_char d) s) eqn:E.
  - destruct (IH eq_refl) as (before & after & -> & Hafter & Hlast).
    exists (c :: before), after. repeat split; assumption.
  - cbn [existsb] in H. rewrite E, orb_false_r in H. rewrite H.
    apply Ascii.eqb_eq in H. subst c. exists [], s. now repeat split.
Qed.

(** X10: [allowed_file] accepts exactly the names that have a dot and whose
    part after the last dot is png, jpg, jpeg or gif, whatever the case of
    its letters; a name without a dot is refused, and only the last
    extension counts. *)
Theorem allowed_file_extension (name : string) :
  allowed_file name = true
  <-> exists stem ext,
        name = stem ++ "." ++ ext
        /\ existsb (is_char DOT) (of_str ext) = false
        /\ In (to_str (map lower (of_str ext))) ALLOWED_IMG.
Proof.
  unfold allowed_file. split.
  - intros H. apply andb_prop in H as [Hdot Hext].
    apply bool_decide_eq_true_1 in Hext. apply list_elem_of_In in Hext.
    destruct (after_last_split DOT _ Hdot) as (before & after & Hname & Hafter & Hlast).
    rewrite Hlast in Hext. exists (to_str before), (to_str after).
    rewrite of_to_str. split; [|split; assumption].
    apply of_str_inj. rewrite Hname, !of_str_app, !of_to_str. reflexivity.
  - intros (stem & ext & -> & Hext & Hin).
    rewrite !of_str_app. change (of_str ".") with [DOT].
    change ([DOT] ++ of_str ext)%list with (DOT :: of_str ext).
    rewrite existsb_app. cbn [existsb]. unfold is_char at 2. rewrite Ascii.eqb_refl.
    rewrite orb_true_r. cbn [andb orb].
    rewrite (after_last_app DOT (of_str stem) (of_str ext) Hext).
    apply bool_decide_eq_true_2. now apply list_elem_of_In.
Qed.

Lemma allowed_file_extension_witness :
  allowed_file "group photo.v2.JpEg" = true.
Proof.
  apply (allowed_file_extension "group photo.v2.JpEg").
  exists "group photo.v2", "JpEg". repeat split. right. right. now left.
Defined.

(** **** [secure_filename] *)

(** X11: a name [secure_filename] returns has only letters, digits, [_], [.]
    and [-], neither begins nor ends with a dot or an underscore (so it is
    never [.], [..] or a hidden file, and has no path separator), and
    sanitising it again leaves it as it is. *)
Theorem secure_filename_is_stable (name : string) :
  let safe_name := secure_filename name in
  Forall (fun c => is_safe c = true) (of_str safe_name)
  /\ head_is is_dot_or_underscore (of_str safe_name) = false
  /\ head_is is_dot_or_underscore (rev (of_str safe_name)) = false
  /\ existsb (is_char SLASH) (of_str safe_name) = false
  /\ secure_filename safe_name = safe_name.
Proof.
  cbv zeta. pose proof (secure_filename_safe name) as Hsafe.
  unfold secure_filename in *. rewrite of_to_str in *.
  assert (Hends : head_is is_dot_or_underscore (secure_filename_chars (of_str name)) = false
                  /\ head_is is_dot_or_underscore
                       (rev (secure_filename_chars (of_str name))) = false).
  { unfold secure_filename_chars. apply strip_ends. }
  destruct Hends as [Hh Hl].
  split; [exact Hsafe|]. split; [exact Hh|]. split; [exact Hl|].
  split; [now apply safe_no_slash|].
  now rewrite secure_filename_chars_fixed.
Qed.

(** **** [save_file] *)

Lemma save_file_eq f w :
  save_file (Some f) w
  = if truthy (filename f) then
      match write_error w (upload_path f) with
      | Some e => (Raise e, w)
      | None =>
          (Ok (Some (upload_path f)),
           {| files := <[upload_path f := Uploaded (content f)]> (files w);
              write_error := write_error w;
              flashes := flashes w |})
      end
    else (Ok None, w).
Proof.
  unfold save_file. destruct (truthy (filename f)); [|reflexivity]. cbn [negb].
  unfold mbind, M_bind, write_file. fold (upload_path f).
  now destruct (write_error w (upload_path f)).
Qed.

(** X12: [save_file] writes at most one file, [uploads/<name>] with [<name>]
    the sanitised file name: a name without a path separator that does not
    begin with a dot, so the file is directly in the upload folder whatever
    the client sent.  Every other file, the write errors and the flashed
    messages stay as they were; when a path is returned, it is this one and
    it holds the uploaded content. *)
Theorem save_file_stays_in_uploads (f : FileStorage) (w : world) :
  let name := secure_filename (filename f) in
  let w' := snd (save_file (Some f) w) in
  existsb (is_char SLASH) (of_str name) = false
  /\ head_is (is_char DOT) (of_str name) = false
  /\ (forall other, other <> "uploads/" ++ name -> files w' !! other = files w !! other)
  /\ write_error w' = write_error w
  /\ flashes w' = flashes w
  /\ (forall path, fst (save_file (Some f) w) = Ok (Some path) ->
        path = "uploads/" ++ name
        /\ files w' !! path = Some (Uploaded (content f))).
Proof.
  cbv zeta. rewrite save_file_eq, upload_path_eq.
  pose proof (secure_filename_safe (filename f)) as Hsafe.
  split; [now apply safe_no_slash|]. split.
  { unfold secure_filename, secure_filename_chars. rewrite of_to_str.
    match goal with |- head_is _ (strip _ ?s) = false =>
      destruct (strip_ends is_dot_or_underscore s) as [Hh _];
      destruct (strip is_dot_or_underscore s) as [|c r]; [reflexivity|]
    end.
    cbn [head_is] in *. unfold is_dot_or_underscore in Hh.
    now apply orb_false_elim in Hh as [Hh _]. }
  destruct (truthy (filename f));
    [destruct (write_error w ("uploads/" ++ secure_filename (filename f)))|];
    cbn [fst snd files write_error flashes]; repeat split; try discriminate.
  - intros other Hne. now rewrite lookup_insert_ne by congruence.
  - now inversion H.
  - inversion H. apply lookup_insert_eq.
Qed.

Lemma save_file_stays_in_uploads_witness :
  let f := {| filename := "../../etc/.pass wd.png";
              content := {| pil_size := None; docx_ok := false |} |} in
  let w := {| files := ∅; write_error := fun _ => None; flashes := [] |} in
  fst (save_file (Some f) w) = Ok (Some "uploads/etc_.pass_wd.png")
  /\ files (snd (save_file (Some f) w)) !! "uploads/etc_.pass_wd.png"
     = Some (Uploaded (content f)).
Proof.
  intros f w.
  destruct (save_file_stays_in_uploads f w) as (_ & _ & _ & _ & _ & H).
  assert (E : fst (save_file (Some f) w) = Ok (Some "uploads/etc_.pass_wd.png"))
    by reflexivity.
  split; [exact E | apply (H _ E)].
Defined.

(** **** The uploads of a request *)

Lemma upload_effect_refl w : upload_effect w w.
Proof. repeat split; intros path; now left. Qed.

Lemma upload_effect_trans w1 w2 w3 :
  upload_effect w1 w2 -> upload_effect w2 w3 -> upload_effect w1 w3.
Proof.
  intros (E1 & F1 & U1 & C1) (E2 & F2 & U2 & C2). repeat split; [congruence..| |].
  - intros path. destruct (U2 path) as [H|H]; [rewrite H; apply U1 | now right].
  - intros path. destruct (C2 path) as [H|H]; [rewrite H; apply C1 | now right].
Qed.

Lemma save_file_effect f w : upload_effect w (snd (save_file (Some f) w)).
Proof.
  rewrite save_file_eq.
  destruct (truthy (filename f)); [|apply upload_effect_refl].
  destruct (write_error w (upload_path f)); [apply upload_effect_refl|].
  cbn [snd]. repeat split; intros path; cbn [files];
    (destruct (decide (upload_path f = path)) as [<-|Hne];
     [right | left; now rewrite lookup_insert_ne]).
  - rewrite lookup_insert_eq. eauto.
  - rewrite upload_path_eq. eauto.
Qed.

Lemma allowed_upload_truthy f : allowed_file (filename f) = true -> allowed_upload f = true.
Proof.
  intros H. unfold allowed_upload. rewrite H, andb_true_r.
  unfold allowed_file in H. apply andb_prop in H as [Hdot _].
  unfold truthy. destruct (filename f); [discriminate Hdot | reflexivity].
Qed.

Lemma save_photos_effect photos : forall acc w,
  upload_effect w (snd (save_photos photos acc w)).
Proof.
  induction photos as [|f photos IH]; intros acc w; [apply upload_effect_refl|].
  cbn [save_photos]. destruct (truthy (filename f) && allowed_file (filename f));
    [|apply IH].
  unfold mbind, M_bind. pose proof (save_file_effect f w) as H1.
  destruct (save_file (Some f) w) as [[r1|e] w1]; cbn [snd] in *; [|exact H1].
  eapply upload_effect_trans; [exact H1 | apply IH].
Qed.

Lemma save_photos_paths photos : forall acc w,
  Forall (fun f => write_error w (upload_path f) = None) photos ->
  fst (save_photos photos acc w)
  = Ok (acc ++ map upload_path
                 (filter (fun f => allowed_file (filename f) = true) photos))%list.
Proof.
  induction photos as [|f photos IH]; intros acc w Hall.
  - cbn. now rewrite app_nil_r.
  - inversion Hall as [|? ? Hf Hrest]; subst. cbn [save_photos]. rewrite filter_cons.
    destruct (allowed_file (filename f)) eqn:Ea.
    + pose proof (allowed_upload_truthy f Ea) as Et. unfold allowed_upload in Et.
      rewrite Ea in Et. rewrite Et. rewrite decide_True by reflexivity.
      unfold mbind, M_bind. pose proof (save_file_effect f w) as (Ew & _).
      rewrite save_file_eq in *. apply andb_prop in Et as [Et _]. rewrite Et, Hf in *.
      cbn [snd] in Ew. rewrite IH.
      * cbn [option_list map]. now rewrite <- app_assoc.
      * eapply Forall_impl; [exact Hrest|]. intros g Hg. exact Hg.
    + rewrite andb_false_r, decide_False by discriminate. now apply IH.
Qed.

(** X13: when every upload can be written, the photo paths handed to the
    builders are the upload paths of the photos with an allowed extension, in
    the order of the request; the other files of the request are left out
    and not saved. *)
Theorem saved_photos_keep_order (photos : list FileStorage) (w : world) :
  Forall (fun f => write_error w (upload_path f) = None) photos ->
  fst (save_photos photos [] w)
    = Ok (map upload_path (filter (fun f => allowed_file (filename f) = true) photos))
  /\ forall f, In f photos -> allowed_file (filename f) = false ->
       (forall g, In g photos -> allowed_file (filename g) = true ->
                  upload_path g <> upload_path f) ->
       files (snd (save_photos photos [] w)) !! upload_path f = files w !! upload_path f.
Proof.
  intros Hall. split; [now rewrite save_photos_paths|].
  intros f Hf Hnot Hother.
  assert (Hgen : forall l acc w0,
    (forall g, In g l -> allowed_file (filename g) = true ->
               upload_path g <> upload_path f) ->
    files (snd (save_photos l acc w0)) !! upload_path f = files w0 !! upload_path f).
  { induction l as [|g l IH]; intros acc w0 Hne; [reflexivity|].
    cbn [save_photos].
    destruct (truthy (filename g) && allowed_file (filename g)) eqn:Eg.
    - unfold mbind, M_bind. rewrite save_file_eq.
      apply andb_prop in Eg as [Et Ea]. rewrite Et.
      destruct (write_error w0 (upload_path g)); [reflexivity|].
      rewrite IH by (intros; apply Hne; [now right | assumption]).
      cbn [files]. apply lookup_insert_ne, Hne; [now left | exact Ea].
    - apply IH. intros; apply Hne; [now right | assumption]. }
  now apply Hgen.
Qed.

Lemma saved_photos_keep_order_witness :
  let good := {| pil_size := Some (4, 3)%N; docx_ok := true |} in
  let photos := [ {| filename := "b.PNG"; content := good |};
                  {| filename := "notes.txt"; content := good |};
                  {| filename := "a.gif"; content := good |} ] in
  fst (save_photos photos [] {| files := ∅; write_error := fun _ => None; flashes := [] |})
  = Ok ["uploads/b.PNG"; "uploads/a.gif"].
Proof.
  intros good photos.
  apply (saved_photos_keep_order photos
           {| files := ∅; write_error := fun _ => None; flashes := [] |}).
  repeat constructor.
Defined.

(** **** A request whose upload cannot be saved *)

Lemma save_photos_raises photos : forall acc w,
  Exists (fun f => allowed_upload f = true /\ write_error w (upload_path f) <> None)
    photos ->
  exists e, fst (save_photos photos acc w) = Raise e.
Proof.
  induction photos as [|f photos IH]; intros acc w Hex; [inversion Hex|].
  cbn [save_photos]. fold (allowed_upload f).
  destruct (allowed_upload f) eqn:Ea.
  - unfold mbind, M_bind. pose proof (save_file_effect f w) as (Ew & _).
    rewrite save_file_eq in *. unfold allowed_upload in Ea.
    apply andb_prop in Ea as [Et Eal]. rewrite Et in *.
    destruct (write_error w (upload_path f)) as [e|] eqn:Hw; [now exists e|].
    cbn [snd] in Ew. apply IH. inversion Hex as [? ? [_ Hbad]|? ? Hlater]; subst.
    + now rewrite Hw in Hbad.
    + eapply Exists_impl; [exact Hlater|]. intros g Hg. exact Hg.
  - apply IH. inversion Hex as [? ? [Hal _]|? ? Hlater]; subst; [congruence | exact Hlater].
Qed.

(** X14: when an upload that passes the extension test cannot be saved, the
    request ends with the uncaught exception: no document is built, nothing
    is flashed, and the only files written are the uploads saved before. *)
Theorem generate_raises_when_upload_fails (req : request) (w : world) (f : FileStorage) :
  In f (uploads req) ->
  allowed_upload f = true ->
  write_error w (upload_path f) <> None ->
  (exists e, fst (generate req w) = Raise e)
  /\ flashes (snd (generate req w)) = flashes w
  /\ only_uploads_added (files w) (files (snd (generate req w))).
Proof.
  intros Hin Hal Hbad. unfold generate, uploads in *.
  set (first_step := match invitation req with
                     | Some f0 =>
                         if truthy (filename f0) && allowed_file (filename f0)
                         then save_file (Some f0) else mret None
                     | None => mret None
                     end).
  assert (H1 : upload_effect w (snd (first_step w))).
  { subst first_step. destruct (invitation req) as [f0|]; [|apply upload_effect_refl].
    destruct (truthy (filename f0) && allowed_file (filename f0));
      [apply save_file_effect | apply upload_effect_refl]. }
  assert (H1' : invitation req = Some f -> exists e, fst (first_step w) = Raise e).
  { intros E. subst first_step. rewrite E. fold (allowed_upload f). rewrite Hal.
    rewrite save_file_eq. unfold allowed_upload in Hal.
    apply andb_prop in Hal as [-> _].
    destruct (write_error w (upload_path f)) as [e|]; [now exists e | congruence]. }
  unfold mbind, M_bind.
  destruct (first_step w) as [[r1|e1] w1] eqn:E1; cbn [fst snd] in *.
  - assert (Hphotos : In f (photos req)).
    { apply in_app_or in Hin as [Hin|Hin]; [|exact Hin].
      destruct (invitation req) as [f0|]; [|inversion Hin].
      destruct Hin as [->|[]]. destruct (H1' eq_refl) as [e He]. discriminate He. }
    destruct H1 as (Ew & Hf & Hu & Hc).
    destruct (save_photos_raises (photos req) [] w1) as [e He].
    { apply Exists_exists. exists f. split; [now apply list_elem_of_In|].
      split; [exact Hal | now rewrite Ew]. }
    pose proof (save_photos_effect (photos req) [] w1) as (Ew2 & Hf2 & Hu2 & _).
    destruct (save_photos (photos req) [] w1) as [[r2|e2] w2]; cbn [fst snd] in *;
      [discriminate He|].
    split; [eauto|]. split; [congruence|].
    intros path. destruct (Hu2 path) as [H|H]; [rewrite H; apply Hu | now right].
  - destruct H1 as (_ & Hf & Hu & _). split; [eauto|]. split; assumption.
Qed.

Lemma generate_raises_when_upload_fails_witness :
  let f := {| filename := "hall.png";
              content := {| pil_size := Some (640, 480)%N; docx_ok := true |} |} in
  let req := {| form := Scenario.robotics; invitation := Some f; photos := [] |} in
  let w := {| files := ∅; write_error := fun _ => Some "read-only"; flashes := [] |} in
  exists e, fst (generate req w) = Raise e.
Proof.
  intros f req w.
  refine (proj1 (generate_raises_when_upload_fails req w f _ _ _));
    [now left | reflexivity | discriminate].
Defined.

(** **** From [generate] to [download] *)

Lemma append_inv_head (s a b : string) : s ++ a = s ++ b -> a = b.
Proof. induction s as [|c s IH]; simpl; intros H; [exact H | inversion H; auto]. Qed.

Lemma docx_pdf_paths_differ data : docx_path data <> pdf_path data.
Proof.
  destruct (output_paths data) as (-> & -> & _). intros H.
  apply append_inv_head, append_inv_head in H. discriminate H.
Qed.

Lemma outputs_not_uploads data name : pdf_path data <> "uploads/" ++ name.
Proof. destruct (output_paths data) as (_ & -> & _). discriminate. Qed.

Lemma download_eq fmt name w :
  download fmt name w
  = match files w !! path_join OUTPUT_FOLDER name with
    | Some _ => SendFile (path_join OUTPUT_FOLDER name) true
    | None =>
        if String.eqb fmt "pdf" then Plain "PDF not available" 404
        else Plain "File not found" 404
    end.
Proof.
  unfold download, path_exists.
  destruct (files w !! path_join OUTPUT_FOLDER name) as [f|] eqn:Hf.
  - rewrite bool_decide_eq_true_2 by eauto. now destruct (String.eqb fmt "pdf").
  - rewrite bool_decide_eq_false_2 by (intros [? ?]; discriminate).
    now destruct (String.eqb fmt "pdf").
Qed.

Lemma upload_names_compatible l :
  forallb Docx.xml_compatible (map path_basename (map upload_path l)) = true.
Proof.
  induction l as [|f l IH]; [reflexivity|].
  cbn [map forallb]. now rewrite DocxFacts.upload_name_compatible, IH.
Qed.

Lemma generate_uploads_effect req w :
  Forall (fun f => write_error w (upload_path f) = None) (uploads req) ->
  exists invitation_path photo_paths w2,
    upload_effect w w2
    /\ save_uploads req w = (Ok (invitation_path, photo_paths), w2)
    /\ forallb Docx.xml_compatible (map path_basename photo_paths) = true
    /\ generate req w = build_phase (form req) invitation_path photo_paths w2.
Proof.
  unfold uploads. intros Hall. apply Forall_app in Hall as [Hinv Hph].
  unfold generate, save_uploads.
  set (first_step := match invitation req with
                     | Some f0 =>
                         if truthy (filename f0) && allowed_file (filename f0)
                         then save_file (Some f0) else mret None
                     | None => mret None
                     end).
  assert (H1 : exists r1 w1, first_step w = (Ok r1, w1) /\ upload_effect w w1).
  { subst first_step. destruct (invitation req) as [f0|].
    - destruct (truthy (filename f0) && allowed_file (filename f0)).
      + inversion Hinv as [|? ? Hf0 _]; subst.
        destruct (save_file_ok f0 w Hf0) as (r & w' & E & _).
        exists r, w'. split; [exact E|].
        pose proof (save_file_effect f0 w) as He. now rewrite E in He.
      + exists None, w. split; [reflexivity | apply upload_effect_refl].
    - exists None, w. split; [reflexivity | apply upload_effect_refl]. }
  destruct H1 as (r1 & w1 & E1 & P1).
  assert (Hph1 : Forall (fun f => write_error w1 (upload_path f) = None) (photos req)).
  { destruct P1 as (Ew & _). eapply Forall_impl; [exact Hph|].
    intros g Hg. simpl. now rewrite Ew. }
  destruct (save_photos_ok (photos req) w1 [] Hph1) as (r2 & w2 & E2 & _).
  pose proof (save_photos_effect (photos req) [] w1) as P2. rewrite E2 in P2.
  pose proof (save_photos_paths (photos req) [] w1 Hph1) as Hpaths.
  rewrite E2 in Hpaths. cbn [fst app] in Hpaths. injection Hpaths as ->.
  eexists r1, _, w2. split; [eapply upload_effect_trans; eassumption|].
  unfold mbind, M_bind. rewrite E1, E2.
  split; [reflexivity|]. split; [apply upload_names_compatible | reflexivity].
Qed.

(** X15: after a request whose uploads could be saved, whose record holds
    only texts XML can hold and whose DOCX could be saved, the file names the
    preview is given lead back to the files: the DOCX is the document built
    from the saved uploads, and [download] of the DOCX name sends it.  If the
    PDF could be saved, it holds the drawing calls of [build_pdf] and
    [download] of the PDF name sends it; if not, [download] of the PDF name
    answers as it would have before the request: "PDF not available" with
    status 404, or an older PDF of the same name when there is one. *)
Theorem generate_then_download (req : request) (w : world) :
  Forall (fun f => write_error w (upload_path f) = None) (uploads req) ->
  forallb Docx.xml_compatible (fields (form req)) = true ->
  write_error w (docx_path (form req)) = None ->
  let data := form req in
  let w' := snd (generate req w) in
  exists (invitation_path : option string) (photo_paths : list string) (w2 : world)
         (docx pdf : string),
    save_uploads req w = (Ok (invitation_path, photo_paths), w2)
    /\ fst (generate req w) = Ok (Preview data invitation_path photo_paths docx pdf)
    /\ let doc := Docx.docx_document (files w2) data invitation_path photo_paths in
       let with_docx := <[docx_path data := DocxFile doc]> (files w2) in
       files w' !! docx_path data = Some (DocxFile doc)
       /\ download "docx" docx w' = SendFile (docx_path data) true
       /\ match write_error w (pdf_path data) with
          | None =>
              files w' !! pdf_path data
              = Some (PdfFile (Pdf.pdf_canvas with_docx data invitation_path photo_paths))
              /\ download "pdf" pdf w' = SendFile (pdf_path data) true
          | Some _ => download "pdf" pdf w' = download "pdf" pdf w
          end.
Proof.
  intros Hall Hfields Hdocx. cbv zeta.
  destruct (generate_uploads_effect req w Hall)
    as (inv & photo_paths & w2 & (Ew & _ & _ & Hunder) & Esave & Hnames & ->).
  rewrite <- Ew in *. unfold build_phase, mbind, M_bind.
  rewrite catch_build_docx. cbv zeta.
  rewrite (DocxMore.docx_text_compatible _ _ _ _ Hfields Hnames), Hdocx, catch_build_pdf.
  cbn [write_error files flashes].
  destruct (output_paths (form req)) as (_ & _ & B1 & B2).
  pose proof (docx_pdf_paths_differ (form req)) as Hne.
  exists inv, photo_paths, w2, (path_basename (docx_path (form req))),
    (path_basename (pdf_path (form req))).
  split; [exact Esave|].
  rewrite !download_eq, B1, B2.
  change (path_join OUTPUT_FOLDER (base_name (form req) ++ ".docx"))
    with (docx_path (form req)).
  change (path_join OUTPUT_FOLDER (base_name (form req) ++ ".pdf"))
    with (pdf_path (form req)).
  destruct (write_error w2 (pdf_path (form req))) as [e|] eqn:Hp;
    unfold mret, M_ret; cbn [fst snd files].
  - split; [reflexivity|]. rewrite lookup_insert_eq. split; [reflexivity|].
    split; [reflexivity|].
    rewrite lookup_insert_ne by exact Hne.
    destruct (Hunder (pdf_path (form req))) as [-> | [name Hname]]; [reflexivity|].
    now apply outputs_not_uploads in Hname.
  - split; [reflexivity|].
    rewrite lookup_insert_ne by congruence. rewrite !lookup_insert_eq.
    split; [reflexivity|]. split; [reflexivity|]. split; reflexivity.
Qed.

Lemma generate_then_download_witness :
  let req := {| form := Scenario.robotics; invitation := None; photos := [] |} in
  let w := {| files := ∅;
              write_error := fun path =>
                if String.eqb path "outputs/Robotics_Workshop.pdf"
                then Some "disk full" else None;
              flashes := [] |} in
  files (snd (generate req w)) !! "outputs/Robotics_Workshop.docx"
    = Some (DocxFile (Docx.docx_document ∅ Scenario.robotics None []))
  /\ download "docx" "Robotics_Workshop.docx" (snd (generate req w))
    = SendFile "outputs/Robotics_Workshop.docx" true
  /\ download "pdf" "Robotics_Workshop.pdf" (snd (generate req w))
    = Plain "PDF not available" 404.
Proof.
  intros req w.
  destruct (generate_then_download req w ltac:(constructor) eq_refl eq_refl)
    as (inv & photo_paths & w2 & docx & pdf & Esave & E & Hfile & Hd & Hp).
  injection Esave as <- <- <-.
  assert (Enames : docx = "Robotics_Workshop.docx" /\ pdf = "Robotics_Workshop.pdf").
  { vm_compute in E. now inversion E. }
  destruct Enames as [-> ->]. split; [exact Hfile|]. split; [exact Hd | exact Hp].
Defined.

End AppMore.
